(** * Directory reading, sorting and pairing of GNU diff (dir.c)

    A shallow embedding of [dir_read], [compare_collated], [compare_names],
    [compare_names_for_qsort], [diff_dirs], [dir_loop] and
    [find_dir_file_pathname], together with the properties of the
    directory-comparison core that the specification states about them.

    The C file keeps two pieces of global state ([locale_specific_sorting]
    and the jump buffer [failed_locale_specific_sorting]) and talks to the
    operating system, the locale subsystem and the allocator.  All of these
    live in an explicit [world]; functions are state transformers returning
    an [outcome], which is either a normal return, a [longjmp] in flight, or
    undefined behaviour (the fourth outcome, an exhausted recursion bound,
    belongs to the model and is shown not to arise). *)

From Stdlib Require Import ZArith List String Ascii Bool Lia Permutation Sorted.
Import ListNotations.
Local Open Scope Z_scope.

(** ** The C library functions the code relies on *)

Module Libc.

(** A byte read through [unsigned char]. *)
Definition uchar (c : ascii) : Z := Z.of_N (N_of_ascii c).

(** [strcmp]: difference of the first pair of differing bytes; the end of
    a string reads as the byte 0. *)
Fixpoint strcmp (a b : string) : Z :=
  match a, b with
  | EmptyString, EmptyString => 0
  | EmptyString, String d _ => 0 - uchar d
  | String c _, EmptyString => uchar c - 0
  | String c a', String d b' =>
      if (uchar c =? uchar d) then strcmp a' b' else uchar c - uchar d
  end.

(** [tolower] in the POSIX locale. *)
Definition tolower (c : ascii) : ascii :=
  let n := uchar c in
  if (65 <=? n) && (n <=? 90) then ascii_of_N (Z.to_N (n + 32)) else c.

(** [strcasecmp] in the POSIX locale. *)
Fixpoint strcasecmp (a b : string) : Z :=
  match a, b with
  | EmptyString, EmptyString => 0
  | EmptyString, String d _ => 0 - uchar (tolower d)
  | String c _, EmptyString => uchar (tolower c) - 0
  | String c a', String d b' =>
      if (uchar (tolower c) =? uchar (tolower d)) then strcasecmp a' b'
      else uchar (tolower c) - uchar (tolower d)
  end.

Definition strlen (a : string) : Z := Z.of_nat (String.length a).

End Libc.

(** system.h: [# define file_name_cmp strcmp] and [#define EXIT_TROUBLE 2]. *)
Definition file_name_cmp : string -> string -> Z := Libc.strcmp.
Definition EXIT_SUCCESS : Z := 0.
Definition EXIT_TROUBLE : Z := 2.

(** ** Data *)

(** [struct stat], the fields [same_file] looks at. *)
Record stat := mkstat {
  st_dev : Z;
  st_ino : Z;
  st_mode : Z;
  st_rdev : Z
}.

(** An open directory stream: the entries [readdir] will still hand out and
    the [errno] it leaves when it finally returns a null pointer (0 at a
    proper end of directory). *)
Record DIR := mkDIR {
  dir_entries : list string;
  dir_errno : Z
}.

(** [struct file_data], the fields this file uses. *)
Record file_data := mkfile {
  name : string;
  desc : Z;
  dirstream : option DIR;
  fstat : stat
}.

(** [struct comparison]: the two sides and the parent; [None] stands for
    [&noparent]. *)
#[local] Set Warnings "-register-all,-notation-for-abbreviation".
Inductive comparison : Type :=
  mkcmp (file0 file1 : file_data) (parent : option comparison).

Definition file (c : comparison) (i : nat) : file_data :=
  match c with mkcmp f0 f1 _ => match i with O => f0 | _ => f1 end end.

Definition parent (c : comparison) : option comparison :=
  match c with mkcmp _ _ p => p end.

Definition set_file (c : comparison) (i : nat) (f : file_data) : comparison :=
  match c with
  | mkcmp f0 f1 p => match i with O => mkcmp f f1 p | _ => mkcmp f0 f p end
  end.

(** [struct dirdata].  [names] is the pointer table as it lies in memory:
    one cell per name and the terminating null cell; [None] for the field is
    the null table pointer.  [data] is the block holding the packed names. *)
Record dirdata := mkdirdata {
  nnames : nat;
  names : option (nat * list (option string));
  data : option nat
}.

(** ** What the program does to the outside *)

Inductive syscall : Type :=
| Sys_openat (parentdirfd : Z) (path : string) (flags : Z)
| Sys_fdopendir (fd : Z)
| Sys_readdir (fd : Z).

Inductive diagnostic : Type :=
| Cannot_compare (err : Z) (name1 name2 : string)
| Recursive_loop (nm : string)
| Perror (nm : string) (err : Z).

Inductive event : Type :=
| Ev_sys (s : syscall)
| Ev_collate (folding : bool) (name1 name2 : string)
| Ev_handle (name0 name1 : option string)
| Ev_diag (d : diagnostic).

(** The collaborators and configuration the file reads but does not own. *)
Record env := mkenv {
  NONEXISTENT : Z;
  AT_FDCWD : Z;
  O_dir_flags : Z;
  O_NOFOLLOW : Z;
  noparent_desc : nat -> Z;
  ignore_file_name_case : bool;
  no_dereference_symlinks : bool;
  starting_file : option string;
  excluded_file_name : string -> bool;
  strcoll : string -> string -> Z * Z;
  strcasecoll : string -> string -> Z * Z;
  os_openat : Z -> string -> Z -> Z * Z;
  os_fdopendir : Z -> option DIR * Z;
  last_component : string -> string;
  file_name_concat : string -> string -> string
}.

(** The mutable state: the two globals of the file, [errno], the allocator
    and the log of interactions. *)
Record world := mkworld {
  locale_specific_sorting : bool;
  failed_locale_specific_sorting : option nat;
  errno : Z;
  activations : nat;
  heap : list nat;
  next_block : nat;
  events : list event
}.

Definition set_sorting (b : bool) (w : world) : world :=
  mkworld b (failed_locale_specific_sorting w) (errno w) (activations w)
          (heap w) (next_block w) (events w).

Definition set_jmp (k : option nat) (w : world) : world :=
  mkworld (locale_specific_sorting w) k (errno w) (activations w)
          (heap w) (next_block w) (events w).

Definition set_errno (e : Z) (w : world) : world :=
  mkworld (locale_specific_sorting w) (failed_locale_specific_sorting w) e
          (activations w) (heap w) (next_block w) (events w).

Definition emit (e : event) (w : world) : world :=
  mkworld (locale_specific_sorting w) (failed_locale_specific_sorting w)
          (errno w) (activations w) (heap w) (next_block w) (events w ++ [e]).

Definition new_activation (w : world) : nat * world :=
  (activations w,
   mkworld (locale_specific_sorting w) (failed_locale_specific_sorting w)
           (errno w) (S (activations w)) (heap w) (next_block w) (events w)).

(** [malloc] family: a fresh live block. *)
Definition alloc (w : world) : nat * world :=
  (next_block w,
   mkworld (locale_specific_sorting w) (failed_locale_specific_sorting w)
           (errno w) (activations w) (next_block w :: heap w)
           (S (next_block w)) (events w)).

(** [free]; freeing the null pointer does nothing. *)
Definition free (p : option nat) (w : world) : world :=
  match p with
  | None => w
  | Some b =>
      mkworld (locale_specific_sorting w) (failed_locale_specific_sorting w)
              (errno w) (activations w)
              (filter (fun x => negb (Nat.eqb x b)) (heap w))
              (next_block w) (events w)
  end.

(** ** Outcomes and the monad *)

Inductive outcome (A : Type) : Type :=
| Ret (a : A)          (* normal return *)
| Longjmp              (* [longjmp (failed_locale_specific_sorting, 1)] in flight *)
| Undefined            (* undefined behaviour: null dereference, wild read *)
| Fuel.                (* recursion bound of the model exhausted *)
Arguments Ret {A} a.
Arguments Longjmp {A}.
Arguments Undefined {A}.
Arguments Fuel {A}.

Definition M (A : Type) : Type := world -> outcome A * world.

Definition ret {A} (a : A) : M A := fun w => (Ret a, w).

Definition bind {A B} (m : M A) (k : A -> M B) : M B :=
  fun w =>
    match m w with
    | (Ret a, w') => k a w'
    | (Longjmp, w') => (Longjmp, w')
    | (Undefined, w') => (Undefined, w')
    | (Fuel, w') => (Fuel, w')
    end.

Declare Scope dir_scope.
Delimit Scope dir_scope with dir.
Notation "x <- m ;; k" := (bind m (fun x => k))
  (at level 100, m at next level, right associativity) : dir_scope.
Local Open Scope dir_scope.

(** Reading the log. *)
Definition is_failure_report (e : event) : bool :=
  match e with Ev_diag (Cannot_compare _ _ _) => true | _ => false end.

Definition is_collation (e : event) : bool :=
  match e with Ev_collate _ _ _ => true | _ => false end.

Definition is_delivery (e : event) : bool :=
  match e with Ev_handle _ _ => true | _ => false end.

Definition is_loop_report (e : event) : bool :=
  match e with Ev_diag (Recursive_loop _) => true | _ => false end.

Definition is_perror (e : event) : bool :=
  match e with Ev_diag (Perror _ _) => true | _ => false end.

Definition is_syscall (e : event) : bool :=
  match e with Ev_sys _ => true | _ => false end.

Definition is_reading_event (e : event) : bool :=
  is_syscall e || is_collation e.

(** What the file logs on its own account while nothing fails, and what it
    logs while collation is off. *)
Definition is_step_event (e : event) : bool :=
  is_syscall e || is_collation e || is_delivery e.

(** The events of a class that are not collation calls. *)
Definition calm_in (P : event -> bool) (e : event) : bool :=
  P e && negb (is_collation e).

Notation is_calm_event := (calm_in is_step_event).

Definition count (p : event -> bool) (evs : list event) : nat :=
  List.length (filter p evs).

Fixpoint before_first_failure (evs : list event) : list event :=
  match evs with
  | [] => []
  | e :: rest =>
      if is_failure_report e then [] else e :: before_first_failure rest
  end.

Fixpoint after_first_failure (evs : list event) : list event :=
  match evs with
  | [] => []
  | e :: rest =>
      if is_failure_report e then rest else after_first_failure rest
  end.

Section Dir.

Variable E : env.

(** ** Name Comparator *)

(** [compare_collated]: clears [errno], calls [strcasecoll] or [strcoll];
    when the call left [errno] set, reports and jumps. *)
Definition compare_collated (name1 name2 : string) : M Z :=
  fun w =>
    let w0 := set_errno 0 w in
    let '(r, e) := if ignore_file_name_case E
                   then strcasecoll E name1 name2
                   else strcoll E name1 name2 in
    let w1 := set_errno e (emit (Ev_collate (ignore_file_name_case E) name1 name2) w0) in
    if e =? 0 then (Ret r, w1)
    else (Longjmp, emit (Ev_diag (Cannot_compare e name1 name2)) w1).

(** [compare_names]. *)
Definition compare_names (name1 name2 : string) : M Z :=
  fun w =>
    if locale_specific_sorting w then
      (diff <- compare_collated name1 name2 ;;
       if negb (diff =? 0) || ignore_file_name_case E
       then ret diff
       else ret (file_name_cmp name1 name2)) w
    else ret (file_name_cmp name1 name2) w.

(** [compare_names_for_qsort]; the arguments are cells of the pointer
    table, and a null cell cannot be read as a name. *)
Definition compare_names_for_qsort (file1 file2 : option string) : M Z :=
  match file1, file2 with
  | Some name1, Some name2 =>
      fun w =>
        if locale_specific_sorting w then
          (diff <- compare_collated name1 name2 ;;
           if negb (diff =? 0) then ret diff
           else ret (file_name_cmp name1 name2)) w
        else ret (file_name_cmp name1 name2) w
  | _, _ => fun w => (Undefined, w)
  end.

(** ** Directory Reader *)

(** The test [d_name[0] == '.' && (d_name[1] == 0 || (d_name[1] == '.' &&
    d_name[2] == 0))], reading the end of the string as the byte 0. *)
Definition byte_at (s : string) (i : nat) : Z :=
  match String.get i s with Some c => Libc.uchar c | None => 0 end.

Definition is_dot_or_dotdot (d_name : string) : bool :=
  (byte_at d_name 0 =? 46)
  && ((byte_at d_name 1 =? 0)
      || ((byte_at d_name 1 =? 46) && (byte_at d_name 2 =? 0))).

(** Modelled from the spec: [xpalloc] of gnulib is not part of the sources;
    the buffer is "grown by at least the shortfall needed plus amortized
    slack".  The block may move, so the old block dies and a fresh one is
    handed out. *)
Definition xpalloc (blk : nat) (n : Z) (n_incr_min : Z) : M (nat * Z) :=
  fun w =>
    let '(b, w') := alloc (free (Some blk) w) in
    (Ret (b, n + Z.max n_incr_min (n / 2)), w').

(** The local variables of the reading loop: the block of [data], its
    capacity, the bytes used and the names stored so far, in storage
    order. *)
Record reader := mkreader {
  rd_data : nat;
  data_alloc : Z;
  data_used : Z;
  rd_names : list string
}.

(** The body of the [while (true)] loop for one entry that [readdir]
    returned. *)
Definition read_entry (startfile : option string) (startfile_only : bool)
    (d_name : string) (r : reader) : M reader :=
  let d_size := Libc.strlen d_name + 1 in
  if is_dot_or_dotdot d_name then ret r
  else
    skip <- match startfile with
            | Some sf =>
                cmp <- compare_names d_name sf ;;
                ret ((cmp <? 0) || (startfile_only && negb (cmp =? 0)))
            | None => ret false
            end ;;
    if (skip : bool) then ret r
    else if excluded_file_name E d_name then ret r
    else
      r' <- (if data_alloc r - data_used r <? d_size
             then
               ba <- xpalloc (rd_data r) (data_alloc r)
                             (d_size - (data_alloc r - data_used r)) ;;
               ret (mkreader (fst ba) (snd ba) (data_used r) (rd_names r))
             else ret r) ;;
      ret (mkreader (rd_data r') (data_alloc r') (data_used r' + d_size)
                    (rd_names r' ++ [d_name])).

(** [readdir]: clears [errno] first, as the loop does. *)
Definition readdir (fd : Z) : M unit :=
  fun w => (Ret tt, emit (Ev_sys (Sys_readdir fd)) (set_errno 0 w)).

(** The loop over the entries the stream hands out; after the last one
    [readdir] returns a null pointer and leaves the stream's [errno]. *)
Fixpoint read_entries (fd : Z) (startfile : option string)
    (startfile_only : bool) (entries : list string) (final_errno : Z)
    (r : reader) : M reader :=
  match entries with
  | [] =>
      _ <- readdir fd ;;
      fun w => (Ret r, set_errno final_errno w)
  | d_name :: rest =>
      _ <- readdir fd ;;
      r' <- read_entry startfile startfile_only d_name r ;;
      read_entries fd startfile startfile_only rest final_errno r'
  end.

(** The pointer table built from the packed names: one cell per name, then
    the null cell. *)
Definition table (l : list string) : list (option string) :=
  map Some l ++ [None].

Definition empty_dirdata : dirdata := mkdirdata 0 None None.

(** The tail of [dir_read]: "Create the 'names' table from the 'data'
    table."  [blk] is the block of [data], if one was allocated. *)
Definition build_names (dir' : file_data) (blk : option nat) (l : list string)
  : M (bool * file_data * dirdata) :=
  fun w =>
    let '(nb, w') := alloc w in
    (Ret (true, dir', mkdirdata (List.length l) (Some (nb, table l)) blk), w').

(** "Open the directory and check for errors": the descriptor in hand, or
    the one [openat] returns, stored into [dir->desc]; [None] when [openat]
    failed. *)
Definition open_directory (parentdirfd : Z) (dir : file_data)
  : M (option (Z * file_data)) :=
  if desc dir <? 0 then
    fun w =>
      let path := if parentdirfd <? 0 then name dir
                  else last_component E (name dir) in
      let flags := Z.lor (O_dir_flags E)
                     (if no_dereference_symlinks E then O_NOFOLLOW E else 0) in
      let '(fd, e) := os_openat E parentdirfd path flags in
      let w' := emit (Ev_sys (Sys_openat parentdirfd path flags)) w in
      if fd <? 0 then (Ret None, set_errno e w')
      else (Ret (Some (fd, mkfile (name dir) fd (dirstream dir) (fstat dir))), w')
  else ret (Some (desc dir, dir)).

(** From [fdopendir] to the end of [dir_read]. *)
Definition enumerate (dirfd : Z) (dir1 : file_data)
    (startfile : option string) (startfile_only : bool)
  : M (bool * file_data * dirdata) :=
  fun w =>
    let '(reading, e) := os_fdopendir E dirfd in
    let w1 := emit (Ev_sys (Sys_fdopendir dirfd)) w in
    match reading with
    | None => (Ret (false, dir1, empty_dirdata), set_errno e w1)
    | Some stream =>
        let dir2 := mkfile (name dir1) (desc dir1) (Some stream) (fstat dir1) in
        let '(blk, w2) := alloc w1 in
        (r <- read_entries dirfd startfile startfile_only
                (dir_entries stream) (dir_errno stream)
                (mkreader blk 512 0 []) ;;
         fun w3 =>
           if negb (errno w3 =? 0)
           then (Ret (false, dir2, mkdirdata 0 None (Some (rd_data r))), w3)
           else build_names dir2 (Some (rd_data r)) (rd_names r) w3) w2
    end.

(** [dir_read].  The result is the returned flag, the updated [*dir] and the
    [*dirdata] as the function leaves it. *)
Definition dir_read (parentdirfd : Z) (dir : file_data)
    (startfile : option string) (startfile_only : bool)
  : M (bool * file_data * dirdata) :=
  if desc dir =? NONEXISTENT E then build_names dir None []
  else
    opened <- open_directory parentdirfd dir ;;
    match opened with
    | None => ret (false, dir, empty_dirdata)
    | Some (dirfd, dir1) => enumerate dirfd dir1 startfile startfile_only
    end.

(** ** Loop Detector *)

(** Modelled from the spec: [SAME_INODE] of gnulib's same-inode.h is not
    part of the sources; two files are the same when they have the "same
    device+inode". *)
Definition SAME_INODE (a b : stat) : bool :=
  (st_ino a =? st_ino b) && (st_dev a =? st_dev b).

(** [S_ISBLK] and [S_ISCHR] of <sys/stat.h>. *)
Definition S_ISBLK (m : Z) : bool := Z.land m 61440 =? 24576.
Definition S_ISCHR (m : Z) : bool := Z.land m 61440 =? 8192.

(** system.h: [same_special_file] and [same_file]. *)
Definition same_special_file (s t : stat) : bool :=
  ((S_ISBLK (st_mode s) && S_ISBLK (st_mode t))
   || (S_ISCHR (st_mode s) && S_ISCHR (st_mode t)))
  && (st_rdev s =? st_rdev t).

Definition same_file (s t : stat) : Z :=
  if SAME_INODE s t || same_special_file s t then 1 else 0.

(** The [for] loop of [dir_loop], started at [p]: it moves to the parent
    first and stops at [&noparent]. *)
Fixpoint dir_loop_from (p : comparison) (target : stat) (i : nat) : bool :=
  match p with
  | mkcmp _ _ None => false
  | mkcmp _ _ (Some q) =>
      if 0 <? same_file (fstat (file q i)) target then true
      else dir_loop_from q target i
  end.

Definition dir_loop (cmp : comparison) (i : nat) : bool :=
  dir_loop_from cmp (fstat (file cmp i)) i.

(** ** Pairing Merge *)

(** The caller's [handle_file]. *)
Definition handler : Type :=
  comparison -> option string -> option string -> M Z.

(** The locals of [diff_dirs] that live across the [setjmp]: the two
    cursors [names[0]], [names[1]] (each shown as the cells from the cursor
    to the end of its table) and [val]; with them the record of what was
    handed to the handler and what it returned. *)
Record frame := mkframe {
  names0 : list (option string);
  names1 : list (option string);
  val : Z;
  delivered : list (option string * option string);
  returned : list Z
}.

(** The result of a piece of [diff_dirs]: how it ended, the frame and the
    world at that point. *)
Definition FM : Type := world -> outcome unit * frame * world.

(** Model of the C library's [qsort] with [compare_names_for_qsort]:
    insertion from the right.  An array of one cell is never compared.
    The C library leaves the algorithm open: which cells are compared, and
    in what order, is a choice of this model.  The table a sort leaves
    does not depend on that choice when the comparison function is
    consistent on the names, since two names it calls equal are one name
    and the sorted arrangement is then unique. *)
Fixpoint qsort_insert (x : option string) (l : list (option string))
  : M (list (option string)) :=
  match l with
  | [] => ret [x]
  | y :: l' =>
      c <- compare_names_for_qsort x y ;;
      if c <=? 0 then ret (x :: y :: l')
      else (r <- qsort_insert x l' ;; ret (y :: r))
  end.

Fixpoint qsort_cells (l : list (option string)) : M (list (option string)) :=
  match l with
  | [] => ret []
  | x :: l' => s <- qsort_cells l' ;; qsort_insert x s
  end.

(** [qsort (names[i], dirdata[i].nnames, ...)]: sorts the [n] cells at the
    cursor; cells beyond the end of the table cannot be read. *)
Definition qsort (cells : list (option string)) (n : nat)
  : M (list (option string)) :=
  if (n <=? List.length cells)%nat
  then s <- qsort_cells (firstn n cells) ;; ret (s ++ skipn n cells)
  else fun w => (Undefined, w).

(** The inner [for] loop of the tie-break: [p] runs over the cells after
    [lesser]; [k] is [p - lesser].  The answer is the offset to rotate to
    the front, if the loop found a [file_name_cmp] match. *)
Fixpoint scan_lesser (greater_name : string) (k : nat)
    (p : list (option string)) : M (option nat) :=
  match p with
  | [] => fun w => (Undefined, w)
  | None :: _ => ret None
  | Some q :: rest =>
      e <- compare_names q greater_name ;;
      if e =? 0 then
        let c := file_name_cmp q greater_name in
        if 0 <=? c then ret (if c =? 0 then Some k else None)
        else scan_lesser greater_name (S k) rest
      else ret None
  end.

(** The [memmove] of the [k = p - lesser] cells at [lesser] one cell up,
    followed by the store of [greater_name] into the first cell. *)
Definition rotate (lesser : list (option string)) (k : nat)
    (greater_name : string) : list (option string) :=
  Some greater_name :: firstn k lesser ++ skipn (S k) lesser.

(** The block [if (nameorder == 0 && ignore_file_name_case) ...]. *)
Definition prefer_exact (nameorder : Z) (n0 n1 : list (option string))
  : M (list (option string) * list (option string)) :=
  if (nameorder =? 0) && ignore_file_name_case E then
    match n0, n1 with
    | Some a :: _, Some b :: _ =>
        let raw_order := file_name_cmp a b in
        if negb (raw_order =? 0) then
          if raw_order <? 0 then
            (* greater_side = 1, lesser_side = 0 *)
            found <- scan_lesser b 1 (tl n0) ;;
            match found with
            | Some k => ret (rotate n0 k b, n1)
            | None => ret (n0, n1)
            end
          else
            (* greater_side = 0, lesser_side = 1 *)
            found <- scan_lesser a 1 (tl n1) ;;
            match found with
            | Some k => ret (n0, rotate n1 k a)
            | None => ret (n0, n1)
            end
        else ret (n0, n1)
    | _, _ => fun w => (Undefined, w)
    end
  else ret (n0, n1).

(** [nameorder]: an exhausted side counts as very large. *)
Definition name_order (c0 c1 : option string) : M Z :=
  match c0, c1 with
  | None, _ => ret 1
  | _, None => ret (-1)
  | Some a, Some b => compare_names a b
  end.

(** The test of the [while] loop: [Some true] when both cursors are at
    their null cell and the loop ends, [Some false] when it goes on, [None]
    when a cursor lies outside its table and cannot be read. *)
Definition at_end (fr : frame) : option bool :=
  match names0 fr, names1 fr with
  | None :: _, None :: _ => Some true
  | _ :: _, _ :: _ => Some false
  | _, _ => None
  end.

(** The comparisons of one turn: [nameorder], then the tie-break, which
    may rotate one of the tables. *)
Definition compare_heads (fr : frame)
  : M (Z * (list (option string) * list (option string))) :=
  nameorder <- name_order (hd None (names0 fr)) (hd None (names1 fr)) ;;
  nn <- prefer_exact nameorder (names0 fr) (names1 fr) ;;
  ret (nameorder, nn).

(** The arguments of the handler call, with the cursors moved as the
    argument expressions move them. *)
Definition handed (fr : frame) (nameorder : Z)
    (n0 n1 : list (option string)) : (option string * option string) * frame :=
  let arg0 := if 0 <? nameorder then None else hd None n0 in
  let arg1 := if nameorder <? 0 then None else hd None n1 in
  ((arg0, arg1),
   mkframe (if 0 <? nameorder then n0 else tl n0)
           (if nameorder <? 0 then n1 else tl n1)
           (val fr) (delivered fr ++ [(arg0, arg1)]) (returned fr)).

(** [if (val < v1) val = v1;] *)
Definition with_value (fr1 : frame) (v1 : Z) : frame :=
  mkframe (names0 fr1) (names1 fr1)
          (if val fr1 <? v1 then v1 else val fr1)
          (delivered fr1) (returned fr1 ++ [v1]).

(** The [while] loop over the two cursors.  Every turn moves at least one
    cursor, so [fuel] need not exceed the number of cells. *)
Fixpoint merge_loop (fuel : nat) (h : handler) (cmp : comparison)
    (fr : frame) : FM :=
  fun w =>
    match at_end fr with
    | None => (Undefined, fr, w)
    | Some true => (Ret tt, fr, w)
    | Some false =>
        match fuel with
        | O => (Fuel, fr, w)
        | S fuel' =>
            match compare_heads fr w with
            | (Ret (nameorder, (n0, n1)), w1) =>
                let '(args, fr1) := handed fr nameorder n0 n1 in
                match h cmp (fst args) (snd args)
                        (emit (Ev_handle (fst args) (snd args)) w1) with
                | (Ret v1, w2) =>
                    merge_loop fuel' h cmp (with_value fr1 v1) w2
                | (Longjmp, w2) => (Longjmp, fr1, w2)
                | (Undefined, w2) => (Undefined, fr1, w2)
                | (Fuel, w2) => (Fuel, fr1, w2)
                end
            | (Longjmp, w1) => (Longjmp, fr, w1)
            | (Undefined, w1) => (Undefined, fr, w1)
            | (Fuel, w1) => (Fuel, fr, w1)
            end
        end
    end.

(** What the loop does after the comparisons of one turn. *)
Definition deliver (h : handler) (cmp : comparison) (f : nat)
    (p : option string * option string) (l' r' : list string)
    (v : Z) (dl : list (option string * option string)) (rt : list Z)
    (w1 : world) : outcome unit * frame * world :=
  match h cmp (fst p) (snd p) (emit (Ev_handle (fst p) (snd p)) w1) with
  | (Ret v1, w2) =>
      merge_loop f h cmp
        (mkframe (table l') (table r') (if v <? v1 then v1 else v)
                 (dl ++ [p]) (rt ++ [v1])) w2
  | (Longjmp, w2) =>
      (Longjmp, mkframe (table l') (table r') v (dl ++ [p]) rt, w2)
  | (Undefined, w2) =>
      (Undefined, mkframe (table l') (table r') v (dl ++ [p]) rt, w2)
  | (Fuel, w2) =>
      (Fuel, mkframe (table l') (table r') v (dl ++ [p]) rt, w2)
  end.

(** From the [setjmp] to the end of the loop.  A [longjmp] that this
    activation's [setjmp] owns comes back here with the locals as they were,
    clears [locale_specific_sorting], and sorts and merges again from the
    cursors; any other jump travels on. *)
Fixpoint sort_and_merge (fuel : nat) (stamp : nat) (h : handler)
    (cmp : comparison) (nn0 nn1 : nat) (fr : frame) : FM :=
  fun w =>
    match fuel with
    | O => (Fuel, fr, w)
    | S fuel' =>
        let resume (fr' : frame) (w' : world) :=
          if match failed_locale_specific_sorting w' with
             | Some k => Nat.eqb k stamp
             | None => false
             end
          then sort_and_merge fuel' stamp h cmp nn0 nn1 fr' (set_sorting false w')
          else (Longjmp, fr', w') in
        match qsort (names0 fr) nn0 w with
        | (Ret s0, w1) =>
            let fr1 := mkframe s0 (names1 fr) (val fr) (delivered fr) (returned fr) in
            match qsort (names1 fr1) nn1 w1 with
            | (Ret s1, w2) =>
                let fr2 := mkframe s0 s1 (val fr) (delivered fr) (returned fr) in
                match merge_loop (List.length s0 + List.length s1) h cmp fr2 w2 with
                | (Longjmp, fr3, w3) => resume fr3 w3
                | r => r
                end
            | (Longjmp, w2) => resume fr1 w2
            | (Undefined, w2) => (Undefined, fr1, w2)
            | (Fuel, w2) => (Fuel, fr1, w2)
            end
        | (Longjmp, w1) => resume fr w1
        | (Undefined, w1) => (Undefined, fr, w1)
        | (Fuel, w1) => (Fuel, fr, w1)
        end
    end.

(** What [diff_dirs] hands back: the returned status, [*cmp] as it leaves
    it, and the record of pairs delivered and values received. *)
Record diff_result := mkresult {
  status : Z;
  cmp_after : comparison;
  pairs : list (option string * option string);
  handler_values : list Z
}.

Definition parent_desc (cmp : comparison) (i : nat) : Z :=
  match parent cmp with
  | None => noparent_desc E i
  | Some p => desc (file p i)
  end.

Definition cells_of (d : dirdata) : list (option string) :=
  match names d with Some (_, c) => c | None => [] end.

Definition names_block (d : dirdata) : option nat :=
  match names d with Some (b, _) => Some b | None => None end.

(** One turn of [for (int i = 0; i < 2; i++) if (! dir_read (...)) ...]. *)
Definition read_side (cmp : comparison) (i : nat) (v : Z)
  : M (comparison * dirdata * Z) :=
  r <- dir_read (parent_desc cmp i) (file cmp i)
         (match parent cmp with None => starting_file E | Some _ => None end)
         false ;;
  let '(ok, f, d) := r in
  if (ok : bool) then ret (set_file cmp i f, d, v)
  else fun w =>
         (Ret (set_file cmp i f, d, EXIT_TROUBLE),
          emit (Ev_diag (Perror (name f) (errno w))) w).

(** [diff_dirs]. *)
Definition diff_dirs (h : handler) (cmp : comparison) : M diff_result :=
  if ((desc (file cmp 0) =? NONEXISTENT E) || dir_loop cmp 0)
     && ((desc (file cmp 1) =? NONEXISTENT E) || dir_loop cmp 1)
  then
    fun w =>
      (Ret (mkresult EXIT_TROUBLE cmp [] []),
       emit (Ev_diag (Recursive_loop
               (name (file cmp (if desc (file cmp 0) =? NONEXISTENT E
                                then 1%nat else 0%nat))))) w)
  else
    fun w =>
      let '(stamp, w0) := new_activation w in
      (r0 <- read_side cmp 0 EXIT_SUCCESS ;;
       let '(cmp0, dirdata0, v0) := r0 in
       r1 <- read_side cmp0 1 v0 ;;
       let '(cmp1, dirdata1, v1) := r1 in
       let release (fr : frame) : M diff_result :=
         fun w' =>
           (Ret (mkresult (val fr) cmp1 (delivered fr) (returned fr)),
            free (data dirdata1) (free (names_block dirdata1)
              (free (data dirdata0) (free (names_block dirdata0) w')))) in
       if v1 =? EXIT_SUCCESS then
         fun w1 =>
           let fr := mkframe (cells_of dirdata0) (cells_of dirdata1) v1 [] [] in
           let w2 := set_jmp (Some stamp) (set_sorting true w1) in
           match sort_and_merge (S (S (nnames dirdata0 + nnames dirdata1)))
                   stamp h cmp1 (nnames dirdata0) (nnames dirdata1) fr w2 with
           | (Ret _, fr', w3) => release fr' w3
           | (Longjmp, _, w3) => (Longjmp, w3)
           | (Undefined, _, w3) => (Undefined, w3)
           | (Fuel, _, w3) => (Fuel, w3)
           end
       else release (mkframe [] [] v1 [] [])) w0.

(** ** Single-Name Finder *)

(** The [for] loop of [find_dir_file_pathname] over the table; [match_] is
    [None] while [match == file]. *)
Fixpoint find_match (file_ : string) (p : list (option string))
    (match_ : option string) : outcome string :=
  match p with
  | [] => Undefined
  | None :: _ =>
      Ret (match match_ with Some m => m | None => file_ end)
  | Some q :: rest =>
      if file_name_cmp q file_ =? 0 then Ret q
      else find_match file_ rest
             (match match_ with Some m => Some m | None => Some q end)
  end.

(** [find_dir_file_pathname]; the result is the path together with the
    block [file_name_concat] allocated for it. *)
Definition find_dir_file_pathname (dir : file_data) (file_ : string)
  : M (string * nat * file_data) :=
  let finish (dir' : file_data) (match_ : string) (d : dirdata)
    : M (string * nat * file_data) :=
    fun w =>
      let '(b, w') := alloc w in
      (Ret (file_name_concat E (name dir) match_, b, dir'),
       free (data d) (free (names_block d) w')) in
  if ignore_file_name_case E then
    r <- dir_read (AT_FDCWD E) dir (Some file_) true ;;
    let '(ok, dir', d) := r in
    if (ok : bool) then
      match find_match file_ (cells_of d) None with
      | Ret m => finish dir' m d
      | _ => fun w => (Undefined, w)
      end
    else finish dir' file_ d
  else finish dir file_ empty_dirdata.

(** ** Vocabulary of the statements *)

(** The collation call [compare_collated] makes. *)
Definition collate (name1 name2 : string) : Z * Z :=
  if ignore_file_name_case E then strcasecoll E name1 name2
  else strcoll E name1 name2.

(** The value [compare_names] computes when the collation call reports no
    error, as a function of [locale_specific_sorting]. *)
Definition names_cmp (sorting : bool) (name1 name2 : string) : Z :=
  if sorting then
    let diff := fst (collate name1 name2) in
    if negb (diff =? 0) || ignore_file_name_case E then diff
    else file_name_cmp name1 name2
  else file_name_cmp name1 name2.

(** The same for [compare_names_for_qsort]. *)
Definition qsort_cmp (sorting : bool) (name1 name2 : string) : Z :=
  if sorting then
    let diff := fst (collate name1 name2) in
    if negb (diff =? 0) then diff else file_name_cmp name1 name2
  else file_name_cmp name1 name2.

(** The locale subsystem never reports an error. *)
Definition collation_works : Prop :=
  forall a b, snd (collate a b) = 0.

(** A state in which no comparison can fail. *)
Definition comparisons_safe (w : world) : Prop :=
  collation_works \/ locale_specific_sorting w = false.

(** What a call of [compare_collated] does to the world when the locale
    reports no error. *)
Definition collated_world (name1 name2 : string) (w : world) : world :=
  set_errno 0 (emit (Ev_collate (ignore_file_name_case E) name1 name2)
                    (set_errno 0 w)).

(** The world after a successful [compare_names]. *)
Definition compared_world (name1 name2 : string) (w : world) : world :=
  if locale_specific_sorting w then collated_world name1 name2 w else w.

(** The path and the flags [dir_read] passes to [openat]. *)
Definition open_name (parentdirfd : Z) (dir : file_data) : string :=
  if parentdirfd <? 0 then name dir else last_component E (name dir).

Definition open_flags : Z :=
  Z.lor (O_dir_flags E) (if no_dereference_symlinks E then O_NOFOLLOW E else 0).

(** [dir] is open already, or [openat] opens it, with descriptor [fd]. *)
Definition opens_as (parentdirfd : Z) (dir : file_data) (fd : Z) : Prop :=
  (0 <= desc dir /\ fd = desc dir)
  \/ (desc dir < 0 /\ 0 <= fd
      /\ fst (os_openat E parentdirfd (open_name parentdirfd dir) open_flags) = fd).

(** The allocator while [dir_read] is in its loop: the block of [data] on
    top of the blocks [H] that were live before. *)
Definition reading (H : list nat) (r : reader) (w : world) : Prop :=
  heap w = rd_data r :: H
  /\ Forall (fun b => (b < rd_data r)%nat) H
  /\ (rd_data r < next_block w)%nat.

(** The blocks a [struct dirdata] points to, and their release as
    [diff_dirs] and [find_dir_file_pathname] do it. *)
Definition dirdata_blocks (d : dirdata) : list nat :=
  match names_block d with Some b => [b] | None => [] end
  ++ match data d with Some b => [b] | None => [] end.

Definition release (d : dirdata) (w : world) : world :=
  free (data d) (free (names_block d) w).

(** What the inner loop of the tie-break finds in the names [q] that
    follow the lesser name, given the answers of the comparator: the index
    of the first name that [file_name_cmp] does not put before
    [greater_name], provided it is reached through names that compare equal
    to [greater_name] and is itself a [file_name_cmp] match. *)
Fixpoint find_exact (sorting : bool) (greater_name : string)
    (q : list string) : option nat :=
  match q with
  | [] => None
  | x :: q' =>
      if names_cmp sorting x greater_name =? 0 then
        let c := file_name_cmp x greater_name in
        if 0 <=? c then (if c =? 0 then Some O else None)
        else option_map S (find_exact sorting greater_name q')
      else None
  end.

Definition remove_nth (i : nat) (q : list string) : list string :=
  firstn i q ++ skipn (S i) q.

(** The two tables after the tie-break, when the current names [a] and [b]
    compared equal. *)
Definition exact_first (sorting : bool) (a : string) (la : list string)
    (b : string) (rb : list string) : list string * list string :=
  if ignore_file_name_case E then
    let raw_order := file_name_cmp a b in
    if raw_order =? 0 then (a :: la, b :: rb)
    else if raw_order <? 0 then
      match find_exact sorting b la with
      | Some i => (b :: a :: remove_nth i la, b :: rb)
      | None => (a :: la, b :: rb)
      end
    else
      match find_exact sorting a rb with
      | Some i => (a :: la, a :: b :: remove_nth i rb)
      | None => (a :: la, b :: rb)
      end
  else (a :: la, b :: rb).

(** One turn of the merge on the names that remain: the pair handed to the
    handler and the names that remain after it. *)
Definition next_pair (sorting : bool) (l r : list string)
  : option ((option string * option string) * list string * list string) :=
  match l, r with
  | [], [] => None
  | a :: la, [] => Some ((Some a, None), la, [])
  | [], b :: rb => Some ((None, Some b), [], rb)
  | a :: la, b :: rb =>
      let c := names_cmp sorting a b in
      if c <? 0 then Some ((Some a, None), la, r)
      else if 0 <? c then Some ((None, Some b), l, rb)
      else
        let '(l1, r1) := exact_first sorting a la b rb in
        Some ((hd_error l1, hd_error r1), tl l1, tl r1)
  end.

(** A world reached from [w] by comparisons that did not fail. *)
Definition compared (w w1 : world) : Prop :=
  comparisons_safe w1
  /\ locale_specific_sorting w1 = locale_specific_sorting w
  /\ failed_locale_specific_sorting w1 = failed_locale_specific_sorting w
  /\ activations w1 = activations w
  /\ heap w1 = heap w
  /\ next_block w1 = next_block w
  /\ (locale_specific_sorting w = false -> w1 = w)
  /\ exists evs, events w1 = events w ++ evs /\ forallb is_collation evs = true.

(** The pairs the merge hands over, turn by turn, while the comparator
    stays in one mode. *)
Fixpoint merge_pairs (fuel : nat) (sorting : bool) (l r : list string)
  : list (option string * option string) :=
  match fuel with
  | O => []
  | S f =>
      match next_pair sorting l r with
      | None => []
      | Some (p, l', r') => p :: merge_pairs f sorting l' r'
      end
  end.

(** The comparator does not put [x] after [y]. *)
Definition name_le (sorting : bool) (x y : string) : Prop :=
  names_cmp sorting x y <= 0.

(** A read with this restart cursor cannot fail in a comparison. *)
Definition read_safe (startfile : option string) (w : world) : Prop :=
  startfile = None \/ comparisons_safe w.

(** The restart cursor [diff_dirs] passes to [dir_read]. *)
Definition cursor_of (cmp : comparison) : option string :=
  match parent cmp with None => starting_file E | Some _ => None end.

(** The world after one turn of the reading loop of [diff_dirs]: a failed
    read is followed by [perror_with_name]. *)
Definition after_read (ok : bool) (f : file_data) (w : world) : world :=
  if ok then w else emit (Ev_diag (Perror (name f) (errno w))) w.

(** What [diff_dirs] does once both reads have returned. *)
Definition after_reads (h : handler) (cmp1 : comparison) (stamp : nat)
    (ok : bool) (d0 d1 : dirdata) (w : world) : outcome diff_result * world :=
  if ok then
    match sort_and_merge (S (S (nnames d0 + nnames d1))) stamp h cmp1
            (nnames d0) (nnames d1)
            (mkframe (cells_of d0) (cells_of d1) EXIT_SUCCESS [] [])
            (set_jmp (Some stamp) (set_sorting true w)) with
    | (Ret _, fr', w3) =>
        (Ret (mkresult (val fr') cmp1 (delivered fr') (returned fr')),
         release d1 (release d0 w3))
    | (Longjmp, _, w3) => (Longjmp, w3)
    | (Undefined, _, w3) => (Undefined, w3)
    | (Fuel, _, w3) => (Fuel, w3)
    end
  else (Ret (mkresult EXIT_TROUBLE cmp1 [] []), release d1 (release d0 w)).

(** The nodes above [cmp], nearest first, up to but not including
    [&noparent]. *)
Fixpoint ancestors (cmp : comparison) : list comparison :=
  match cmp with
  | mkcmp _ _ None => []
  | mkcmp _ _ (Some q) => q :: ancestors q
  end.

(** No event of the log is a recursive-loop report. *)
Definition not_loop_report (e : event) : bool := negb (is_loop_report e).

(** The guard at the head of [diff_dirs]. *)
Definition loop_guard (cmp : comparison) : bool :=
  ((desc (file cmp 0) =? NONEXISTENT E) || dir_loop cmp 0)
  && ((desc (file cmp 1) =? NONEXISTENT E) || dir_loop cmp 1).

(** Which entries [dir_read] keeps, given the answers of the comparator. *)
Definition kept (sorting : bool) (startfile : option string)
    (startfile_only : bool) (d_name : string) : bool :=
  negb (is_dot_or_dotdot d_name)
  && match startfile with
     | Some sf =>
         let cmp := names_cmp sorting d_name sf in
         negb ((cmp <? 0) || (startfile_only && negb (cmp =? 0)))
     | None => true
     end
  && negb (excluded_file_name E d_name).

(** The name the finder settles on within the run it was given. *)
Definition best_match (file_ : string) (run : list string) : string :=
  match find (fun q => file_name_cmp q file_ =? 0) run with
  | Some q => q
  | None => hd file_ run
  end.

End Dir.

(** A name is a C string: it holds no zero byte. *)
Fixpoint C_string (s : string) : Prop :=
  match s with
  | EmptyString => True
  | String c s' => Libc.uchar c <> 0 /\ C_string s'
  end.

(** Reading the pairs. *)
Definition lefts (ps : list (option string * option string)) : list string :=
  flat_map (fun p => match fst p with Some a => [a] | None => [] end) ps.

Definition rights (ps : list (option string * option string)) : list string :=
  flat_map (fun p => match snd p with Some a => [a] | None => [] end) ps.

(** The name a one-sided pair carries. *)
Definition lone_name (p : option string * option string) : option string :=
  match p with
  | (Some a, None) => Some a
  | (None, Some b) => Some b
  | _ => None
  end.

Definition max_status (vs : list Z) : Z := fold_left Z.max vs EXIT_SUCCESS.

(** Handlers. *)

(** The handler always returns. *)
Definition total (E : env) (h : handler) : Prop :=
  forall cmp a b w, comparisons_safe E w ->
    exists v w', h cmp a b w = (Ret v, w') /\ comparisons_safe E w'.

(** The handler returns and leaves [locale_specific_sorting] alone. *)
Definition keeps_sorting (h : handler) : Prop :=
  forall cmp a b w,
    exists v w', h cmp a b w = (Ret v, w')
      /\ locale_specific_sorting w' = locale_specific_sorting w.

(** The handler returns, leaves the comparator's two globals alone, and
    logs nothing but system calls: it does not come back into this file. *)
Definition quiet (h : handler) : Prop :=
  forall cmp a b w,
    exists v evs w', h cmp a b w = (Ret v, w')
      /\ locale_specific_sorting w' = locale_specific_sorting w
      /\ failed_locale_specific_sorting w' = failed_locale_specific_sorting w
      /\ events w' = events w ++ evs
      /\ forallb is_syscall evs = true.

(** Whatever the handler does, [locale_specific_sorting] is afterwards what
    it was before. *)
Definition sorting_kept (h : handler) : Prop :=
  forall cmp a b w,
    locale_specific_sorting (snd (h cmp a b w)) = locale_specific_sorting w.

(** All live blocks were handed out by the allocator. *)
Definition heap_ok (w : world) : Prop :=
  Forall (fun b => (b < next_block w)%nat) (heap w).

(** What a piece of [dir_read] does whenever no comparison can fail: it
    returns, it leaves the comparator's globals alone, it logs system calls
    and collation calls only (system calls only when it does not collate),
    it allocates the blocks of the table on top of a well-formed heap, and a
    successful read leaves a well-formed table. *)
Definition reads_well (name0 : string) (startfile : option string) (w : world)
    (res : outcome (bool * file_data * dirdata) * world) : Prop :=
  exists ok dir' d w' evs,
    res = (Ret (ok, dir', d), w')
    /\ name dir' = name0
    /\ locale_specific_sorting w' = locale_specific_sorting w
    /\ failed_locale_specific_sorting w' = failed_locale_specific_sorting w
    /\ activations w' = activations w
    /\ events w' = events w ++ evs
    /\ forallb is_reading_event evs = true
    /\ (startfile = None \/ locale_specific_sorting w = false ->
        forallb is_syscall evs = true)
    /\ (heap_ok w ->
        heap w' = dirdata_blocks d ++ heap w
        /\ Forall (fun b => (next_block w <= b < next_block w')%nat)
                  (dirdata_blocks d))
    /\ (next_block w <= next_block w')%nat
    /\ (ok = true ->
        exists l, cells_of d = table l /\ nnames d = List.length l)
    /\ (ok = false -> names d = None).

(** Two names that the comparator, in one of its two modes and in one order
    of its arguments, calls equal. *)
Definition comparator_equal (E : env) (x y : string) : Prop :=
  exists sorting,
    names_cmp E sorting x y = 0 \/ names_cmp E sorting y x = 0.

(** [l'] arises from [l] by moving names past neighbours they are
    equivalent to: the only reordering a run of equal names allows. *)
Inductive run_permuted (eqv : string -> string -> Prop)
  : list string -> list string -> Prop :=
| rp_nil : run_permuted eqv [] []
| rp_skip x l l' : run_permuted eqv l l' -> run_permuted eqv (x :: l) (x :: l')
| rp_swap x y l : eqv x y -> run_permuted eqv (x :: y :: l) (y :: x :: l)
| rp_trans l l' l'' :
    run_permuted eqv l l' -> run_permuted eqv l' l'' -> run_permuted eqv l l''.

(** The names of the one-sided pairs, in the order of delivery. *)
Definition lone_names (ps : list (option string * option string))
  : list string :=
  flat_map (fun p => match lone_name p with Some n => [n] | None => [] end) ps.

(** The discipline of the comparator.  A piece of code that ran from [w]
    to [w'] left the two globals alone and logged events of the class [P]
    only; when it ended in a jump, collation was on and the failure report
    is the last thing logged; when it did not, and collation was off, it
    made no collation call. *)
Definition is_jump {A} (o : outcome A) : bool :=
  match o with Longjmp => true | _ => false end.

Definition disciplined_in (P : event -> bool) (w : world) (jump : bool)
    (w' : world) : Prop :=
  locale_specific_sorting w' = locale_specific_sorting w
  /\ failed_locale_specific_sorting w' = failed_locale_specific_sorting w
  /\ exists evs,
       events w' = events w ++ evs
       /\ if jump
          then locale_specific_sorting w = true
               /\ exists pre e a b,
                    evs = pre ++ [Ev_diag (Cannot_compare e a b)]
                    /\ forallb P pre = true
          else forallb P evs = true
               /\ (locale_specific_sorting w = false ->
                   forallb (calm_in P) evs = true).

Definition obeys_in {A} (P : event -> bool) (m : M A) : Prop :=
  forall w, disciplined_in P w (is_jump (fst (m w))) (snd (m w)).

Notation disciplined := (disciplined_in is_step_event).
Notation obeys := (obeys_in is_step_event).

(** [w'] extends the log of [w] by events that [Q] accepts. *)
Definition extends (Q : event -> bool) (w w' : world) : Prop :=
  exists evs, events w' = events w ++ evs /\ forallb Q evs = true.

(** [Q] accepts whatever this file logs apart from the loop report. *)
Definition accepts_own_events (Q : event -> bool) : Prop :=
  forall e,
    is_step_event e = true \/ is_failure_report e = true \/ is_perror e = true ->
    Q e = true.

(** ** Concrete worlds *)

Module Sample.

Local Open Scope string_scope.

(** A small file system: each directory has a path, the descriptor
    [openat] hands out for it, and its stream. *)
Definition fs : Type := list (string * Z * DIR).

Fixpoint open_path (t : fs) (path : string) : Z * Z :=
  match t with
  | [] => (-1, 2)
  | (p, fd, _) :: rest =>
      if String.eqb p path then (fd, 0) else open_path rest path
  end.

Fixpoint open_fd (t : fs) (fd : Z) : option DIR * Z :=
  match t with
  | [] => (None, 9)
  | (_, fd', d) :: rest =>
      if (fd' =? fd)%Z then (Some d, 0) else open_fd rest fd
  end.

(** The C locale with the fallback of system.h, which reads
    [strcasecoll] as [strcasecmp]; neither reports errors. *)
Definition c_strcoll (a b : string) : Z * Z := (Libc.strcmp a b, 0).
Definition c_strcasecoll (a b : string) : Z * Z := (Libc.strcasecmp a b, 0).

(** A locale subsystem that fails on every call (EILSEQ). *)
Definition broken_coll (a b : string) : Z * Z := (0, 84).

Definition mk (icase : bool) (start : option string) (t : fs)
    (coll casecoll : string -> string -> Z * Z) : env :=
  mkenv (-1) (-100) 65536 131072 (fun _ => -100) icase false start
        (fun _ => false) coll casecoll
        (fun _ path _ => open_path t path) (open_fd t)
        (fun p => p) (fun d f => d ++ "/" ++ f).

Definition posix (icase : bool) (start : option string) (t : fs) : env :=
  mk icase start t c_strcoll c_strcasecoll.

Definition broken (icase : bool) (t : fs) : env :=
  mk icase None t broken_coll broken_coll.

Definition w0 : world := mkworld false None 0 0 [] 0 [].

(** The state a completed [diff_dirs] leaves behind: collation on, the
    jump buffer naming an activation that has returned. *)
Definition w_after_diff : world := mkworld true (Some 0%nat) 0 1 [] 0 [].

Definition dir_stat (ino : Z) : stat := mkstat 1 ino 16877 0.

Definition unopened (nm : string) (ino : Z) : file_data :=
  mkfile nm (-2) None (dir_stat ino).

Definition nonexistent (nm : string) : file_data :=
  mkfile nm (-1) None (mkstat 0 0 0 0).

Definition top : comparison := mkcmp (unopened "L" 10) (unopened "R" 20) None.

(** A handler that reports a difference for one-sided pairs only. *)
Definition leaf : handler :=
  fun _ a b =>
    ret (match a, b with Some _, Some _ => 0 | _, _ => 1 end).

(** Modelled from the spec: [compare_files] of diff.c is not part of the
    sources.  A ComparisonNode is "created per recursive descent into a
    matched subdirectory pair", with the node that is being compared as
    its parent; one-sided names are reported as a difference. *)
Fixpoint compare_subdirs (E : env) (depth : nat) : handler :=
  fun cmp a b =>
    match depth, a, b with
    | S d, Some n0, Some n1 =>
        let p0 := file_name_concat E (name (file cmp 0)) n0 in
        let p1 := file_name_concat E (name (file cmp 1)) n1 in
        r <- diff_dirs E (compare_subdirs E d)
               (mkcmp (unopened p0 (Z.of_nat (String.length p0)))
                      (unopened p1 (100 + Z.of_nat (String.length p1)))
                      (Some cmp)) ;;
        ret (status r)
    | _, Some _, Some _ => ret 0
    | _, _, _ => ret 1
    end.

(** Left holds "A" and "b", right holds "a" and "B". *)
Definition fs_case : fs :=
  [("L", 3, mkDIR ["b"; "A"] 0); ("R", 4, mkDIR ["a"; "B"] 0)].

(** Disjoint names on the two sides. *)
Definition fs_disjoint : fs :=
  [("L", 3, mkDIR ["."; ".."; "c"; "a"] 0); ("R", 4, mkDIR ["d"; "b"] 0)].

(** A directory holding "a", "m" and "z". *)
Definition fs_amz : fs := [("L", 3, mkDIR ["a"; "m"; "z"] 0)].

(** A directory holding names that differ by case only. *)
Definition fs_readme : fs :=
  [("L", 3, mkDIR ["."; ".."; "README"; "Readme"; "other"] 0)].

(** The right side cannot be opened; the left one fails while being
    enumerated (EIO). *)
Definition fs_unreadable : fs := [("L", 3, mkDIR ["a"; "b"] 5)].

(** Two levels: "d" is a directory on both sides. *)
Definition fs_nested : fs :=
  [("L", 3, mkDIR ["d"; "x"] 0); ("R", 4, mkDIR ["d"; "y"] 0);
   ("L/d", 5, mkDIR ["p"; "q"] 0); ("R/d", 6, mkDIR ["p"] 0)].

(** A node whose left side is known not to exist and whose right side is
    the directory its parent is comparing (same device and inode). *)
Definition one_sided_loop : comparison :=
  mkcmp (nonexistent "L/s") (unopened "R/s" 20) (Some top).

End Sample.

(** ** Further vocabulary *)

(** The calls of the handler between two worlds.  From [w] the loop makes
    comparisons that do not fail and reaches [w1]; it logs the pair and
    calls [h] on it there; the call returns [v] and leaves [w2], from
    where the remaining calls are made.  Nothing but comparisons lies
    between two calls, and nothing at all after the last one. *)
Inductive handler_calls (E : env) (h : handler) (cmp : comparison)
  : world -> list (option string * option string) -> list Z -> world -> Prop :=
| calls_none w : handler_calls E h cmp w [] [] w
| calls_next w w1 p v w2 ps vs w' :
    compared E w w1 ->
    h cmp (fst p) (snd p) (emit (Ev_handle (fst p) (snd p)) w1) = (Ret v, w2) ->
    handler_calls E h cmp w2 ps vs w' ->
    handler_calls E h cmp w (p :: ps) (v :: vs) w'.

(** What a run of [diff_dirs] from [w] to [w'] with the result [r] did
    with the handler.  Up to some world [wm] it logged system calls and
    collation calls only; from [wm] on it called [h] on the pairs of [r],
    one after the other and in their order, each time with the comparison
    [cmp_after r], and the values of [r] are what these calls returned;
    after the last call it logged nothing more. *)
Definition hands_over (E : env) (h : handler) (w : world) (r : diff_result)
    (w' : world) : Prop :=
  exists wm wm' evs,
    events wm = events w ++ evs
    /\ forallb is_reading_event evs = true
    /\ handler_calls E h (cmp_after r) wm (pairs r) (handler_values r) wm'
    /\ events w' = events wm'.

(** system.h: [#define ISDIGIT(c) ((unsigned int) (c) - '0' <= 9)].  The
    conversion to [unsigned int] and the subtraction wrap around modulo
    2^[width], [width] being the number of bits of [unsigned int]. *)
Definition to_unsigned (width c : Z) : Z := c mod 2 ^ width.

Definition ISDIGIT (width c : Z) : bool :=
  to_unsigned width (to_unsigned width c - 48) <=? to_unsigned width 9.

(** The bytes the names stored so far take in [data]: each name with its
    terminating zero byte. *)
Definition packed_size (l : list string) : Z :=
  fold_right (fun n acc => Libc.strlen n + 1 + acc) 0 l.

(** The [data] buffer of the reading loop holds what was copied into it. *)
Definition buffer_ok (r : reader) : Prop :=
  data_used r = packed_size (rd_names r)
  /\ 0 <= data_used r <= data_alloc r
  /\ 512 <= data_alloc r.

(** A piece of code that leaves the allocator alone. *)
Definition heap_kept {A} (m : M A) : Prop :=
  forall w, heap (snd (m w)) = heap w /\ next_block (snd (m w)) = next_block w.

(** The handler leaves the allocator as it found it, however it ends. *)
Definition keeps_heap (h : handler) : Prop :=
  forall cmp a b, heap_kept (h cmp a b).

(** What side [i] of [cmp] holds for [diff_dirs] when it is called in [w]:
    nothing when the side is known not to exist; otherwise the entries of
    the stream its directory opens as, less those [dir_read] skips. *)
Definition side_listing (E : env) (cmp : comparison) (i : nat) (w : world)
    (l : list string) : Prop :=
  (desc (file cmp i) = NONEXISTENT E /\ l = [])
  \/ (desc (file cmp i) <> NONEXISTENT E
      /\ exists fd stream e,
           opens_as E (parent_desc E cmp i) (file cmp i) fd
           /\ os_fdopendir E fd = (Some stream, e)
           /\ dir_errno stream = 0
           /\ Forall C_string (dir_entries stream)
           /\ l = filter (kept E (locale_specific_sorting w) (cursor_of E cmp)
                            false)
                         (dir_entries stream)).

(** The order [compare_names_for_qsort] sorts by. *)
Definition sort_le (E : env) (sorting : bool) (a b : string) : Prop :=
  qsort_cmp E sorting a b <= 0.

(** What [qsort] asks of its comparison function, on the names of [l]:
    exchanging the arguments reverses the sign of the answer, and the
    order the answers describe is transitive. *)
Definition consistent_on (E : env) (sorting : bool) (l : list string)
    : Prop :=
  (forall a b, In a l -> In b l ->
     Z.sgn (qsort_cmp E sorting b a) = - Z.sgn (qsort_cmp E sorting a b))
  /\ (forall a b c, In a l -> In b l -> In c l ->
        sort_le E sorting a b -> sort_le E sorting b c ->
        sort_le E sorting a c).

(** The table [qsort] leaves, as a function of the names and of the
    answers of [compare_names_for_qsort]. *)
Fixpoint insert_name (E : env) (sorting : bool) (x : string)
    (l : list string) : list string :=
  match l with
  | [] => [x]
  | y :: l' =>
      if qsort_cmp E sorting x y <=? 0 then x :: y :: l'
      else y :: insert_name E sorting x l'
  end.

Fixpoint sort_names (E : env) (sorting : bool) (l : list string)
  : list string :=
  match l with
  | [] => []
  | x :: l' => insert_name E sorting x (sort_names E sorting l')
  end.

(** system.h: [floor_log2], which returns
    [ULLONG_WIDTH - 1 - count_leading_zeros_ll (n)].  gnulib's
    [count_leading_zeros_ll] is not part of the sources and is taken as a
    parameter, together with the width of [unsigned long long]. *)
Definition floor_log2 (ULLONG_WIDTH : Z) (count_leading_zeros_ll : Z -> Z)
    (n : Z) : Z :=
  ULLONG_WIDTH - 1 - count_leading_zeros_ll n.

(** What [floor_log2] relies on: [clz] counts the zero bits above the
    highest set bit of a [width]-bit number, and answers [width] for 0. *)
Definition counts_leading_zeros (width : Z) (clz : Z -> Z) : Prop :=
  clz 0 = width
  /\ forall n, 0 < n < 2 ^ width ->
       0 <= clz n < width
       /\ Z.testbit n (width - 1 - clz n) = true
       /\ forall i, width - 1 - clz n < i -> Z.testbit n i = false.

(** ** Further concrete cases *)

Module Cases.

(** The left side is known not to exist, at the top level. *)
Definition left_missing : comparison :=
  mkcmp (Sample.nonexistent "L") (Sample.unopened "R" 20) None.

(** A count of leading zeros for 64-bit numbers. *)
Definition clz64 (n : Z) : Z := if n =? 0 then 64 else 63 - Z.log2 n.

(** The same names on both sides. *)
Definition fs_same : Sample.fs :=
  [("L"%string, 3, mkDIR ["b"; "a"; "."]%string 0);
   ("R"%string, 4, mkDIR ["b"; "a"; "."]%string 0)].

(** Below [Sample.top]: on the left "s" is a link back to the directory
    "L" itself, so that "L/s" is the file its parent is comparing (same
    device and inode) and lists what "L" lists; on the right "s" is an
    ordinary directory holding "u". *)
Definition fs_link : Sample.fs :=
  [("L/s"%string, 5, mkDIR ["."; ".."; "s"; "x"]%string 0);
   ("R/s"%string, 6, mkDIR ["."; ".."; "u"]%string 0)].

(** The node for "s": only its left side revisits an ancestor. *)
Definition left_loops : comparison :=
  mkcmp (Sample.unopened "L/s" 10) (Sample.unopened "R/s" 21)
        (Some Sample.top).


End Cases.

(** * Properties *)

Ltac splits := repeat match goal with |- _ /\ _ => split end.

Ltac world_simpl :=
  unfold collated_world, compared_world, set_errno, set_sorting, set_jmp,
    emit, alloc, free, new_activation in *; simpl in *.

(** ** The monad and the world *)

Lemma bind_ret {A B} (m : M A) (k : A -> M B) w a w' :
  m w = (Ret a, w') -> bind m k w = k a w'.
Proof. unfold bind; intros ->; reflexivity. Qed.

Lemma bind_inv {A B} (m : M A) (k : A -> M B) w b w'' :
  bind m k w = (Ret b, w'') ->
  exists a w', m w = (Ret a, w') /\ k a w' = (Ret b, w'').
Proof.
  unfold bind; destruct (m w) as [[a| | |] w']; intros H; try discriminate.
  exists a, w'; split; [reflexivity | exact H].
Qed.

(** ** Name Comparator *)

Section Comparator.

Variable E : env.

Lemma compare_collated_ok name1 name2 w :
  snd (collate E name1 name2) = 0 ->
  compare_collated E name1 name2 w
  = (Ret (fst (collate E name1 name2)), collated_world E name1 name2 w).
Proof.
  unfold compare_collated, collate, collated_world.
  destruct (if ignore_file_name_case E then strcasecoll E name1 name2
            else strcoll E name1 name2) as [r e]; simpl.
  intros ->; reflexivity.
Qed.

Lemma compare_collated_fails name1 name2 w :
  snd (collate E name1 name2) <> 0 ->
  compare_collated E name1 name2 w
  = (Longjmp,
     emit (Ev_diag (Cannot_compare (snd (collate E name1 name2)) name1 name2))
       (set_errno (snd (collate E name1 name2))
          (emit (Ev_collate (ignore_file_name_case E) name1 name2)
                (set_errno 0 w)))).
Proof.
  unfold compare_collated, collate.
  destruct (if ignore_file_name_case E then strcasecoll E name1 name2
            else strcoll E name1 name2) as [r e]; simpl.
  intros He. apply Z.eqb_neq in He. rewrite He. reflexivity.
Qed.

Lemma compare_names_ok name1 name2 w :
  locale_specific_sorting w = false \/ snd (collate E name1 name2) = 0 ->
  compare_names E name1 name2 w
  = (Ret (names_cmp E (locale_specific_sorting w) name1 name2),
     compared_world E name1 name2 w).
Proof.
  unfold compare_names, names_cmp, compared_world.
  destruct (locale_specific_sorting w) eqn:Hs.
  - intros [H | H]; [discriminate |].
    unfold bind. rewrite (compare_collated_ok _ _ _ H).
    destruct (negb (fst (collate E name1 name2) =? 0) || ignore_file_name_case E);
      reflexivity.
  - intros _. reflexivity.
Qed.

(** C1, as the code has it.  With collated ordering active and a collation
    call that reports no error, [compare_names] returns the collated result
    whenever it is nonzero; when it is zero and case-folding is requested,
    zero is the final answer; when it is zero and case-folding is not
    requested, the answer is the raw byte-wise comparison. *)
Theorem compare_names_collated (name1 name2 : string) (w : world) :
  locale_specific_sorting w = true ->
  snd (collate E name1 name2) = 0 ->
  exists r w',
    compare_names E name1 name2 w = (Ret r, w')
    /\ (fst (collate E name1 name2) <> 0 -> r = fst (collate E name1 name2))
    /\ (fst (collate E name1 name2) = 0 ->
        ignore_file_name_case E = true -> r = 0)
    /\ (fst (collate E name1 name2) = 0 ->
        ignore_file_name_case E = false -> r = file_name_cmp name1 name2).
Proof.
  intros Hs Herr.
  rewrite compare_names_ok by (right; exact Herr).
  do 2 eexists; split; [reflexivity |].
  rewrite Hs; unfold names_cmp.
  repeat split.
  - intros Hd. apply Z.eqb_neq in Hd. rewrite Hd. reflexivity.
  - intros Hd Hi. rewrite Hd, Hi. reflexivity.
  - intros Hd Hi. rewrite Hd, Hi. reflexivity.
Qed.

End Comparator.

Lemma compare_names_collated_witness :
  exists r w',
    compare_names (Sample.posix false None []) "a" "b" Sample.w_after_diff
    = (Ret r, w')
    /\ (fst (collate (Sample.posix false None []) "a" "b") <> 0 ->
        r = fst (collate (Sample.posix false None []) "a" "b"))
    /\ (fst (collate (Sample.posix false None []) "a" "b") = 0 ->
        ignore_file_name_case (Sample.posix false None []) = true -> r = 0)
    /\ (fst (collate (Sample.posix false None []) "a" "b") = 0 ->
        ignore_file_name_case (Sample.posix false None []) = false ->
        r = file_name_cmp "a" "b").
Proof.
  apply (compare_names_collated (Sample.posix false None []) "a" "b"
           Sample.w_after_diff); reflexivity.
Defined.

(** C1 as the specification words it fails: with case-folding requested and
    a collated result of zero for "A" and "a", [compare_names] answers zero
    and does not fall through to the raw order, which tells the two names
    apart. *)
Lemma compare_names_folding_counterexample :
  ignore_file_name_case (Sample.posix true None []) = true
  /\ locale_specific_sorting Sample.w_after_diff = true
  /\ collate (Sample.posix true None []) "A" "a" = (0, 0)
  /\ fst (compare_names (Sample.posix true None []) "A" "a" Sample.w_after_diff)
     = Ret 0
  /\ file_name_cmp "A" "a" = -32
  /\ fst (compare_names (Sample.posix true None []) "A" "a" Sample.w_after_diff)
     <> Ret (file_name_cmp "A" "a").
Proof.
  repeat split; try reflexivity.
  vm_compute; discriminate.
Qed.

(** ** Directory Reader *)

Section Reader.

Variable E : env.

Lemma compared_world_fields name1 name2 w :
  locale_specific_sorting (compared_world E name1 name2 w)
  = locale_specific_sorting w
  /\ failed_locale_specific_sorting (compared_world E name1 name2 w)
     = failed_locale_specific_sorting w
  /\ activations (compared_world E name1 name2 w) = activations w
  /\ heap (compared_world E name1 name2 w) = heap w
  /\ next_block (compared_world E name1 name2 w) = next_block w
  /\ exists evs, events (compared_world E name1 name2 w) = events w ++ evs
                 /\ forallb is_reading_event evs = true
                 /\ forallb is_collation evs = true
                 /\ (locale_specific_sorting w = false -> evs = []).
Proof.
  unfold compared_world.
  destruct (locale_specific_sorting w) eqn:Hs; world_simpl.
  - splits; try assumption; try reflexivity.
    eexists; split; [reflexivity |]. splits; try reflexivity. discriminate.
  - splits; try assumption; try reflexivity.
    exists []; rewrite app_nil_r; splits; reflexivity.
Qed.

Lemma safe_collation name1 name2 w :
  comparisons_safe E w ->
  locale_specific_sorting w = false \/ snd (collate E name1 name2) = 0.
Proof. intros [H | H]; [right; apply H | left; exact H]. Qed.

Lemma filter_above (H : list nat) (b : nat) :
  Forall (fun x => (x < b)%nat) H ->
  filter (fun x => negb (Nat.eqb x b)) H = H.
Proof.
  induction 1 as [| x l Hx _ IH]; simpl; [reflexivity |].
  rewrite IH. destruct (Nat.eqb_spec x b); [lia | reflexivity].
Qed.

(** One entry: the name is appended exactly when [kept] says so. *)
Lemma read_entry_ok startfile startfile_only d_name H r w :
  read_safe E startfile w ->
  exists r' w' evs,
    read_entry E startfile startfile_only d_name r w = (Ret r', w')
    /\ rd_names r'
       = rd_names r
         ++ (if kept E (locale_specific_sorting w) startfile startfile_only d_name
             then [d_name] else [])
    /\ (reading H r w -> reading H r' w' /\ (rd_data r <= rd_data r')%nat)
    /\ (next_block w <= next_block w')%nat
    /\ locale_specific_sorting w' = locale_specific_sorting w
    /\ failed_locale_specific_sorting w' = failed_locale_specific_sorting w
    /\ activations w' = activations w
    /\ events w' = events w ++ evs
    /\ forallb is_reading_event evs = true
    /\ (startfile = None \/ locale_specific_sorting w = false ->
        forallb is_syscall evs = true).
Proof.
  intros Hsafe.
  unfold read_entry, kept.
  destruct (is_dot_or_dotdot d_name); simpl.
  { exists r, w, []. rewrite !app_nil_r. splits; try reflexivity; auto. }
  (* the restart cursor *)
  assert (Hskip :
    exists w1 evs,
      (match startfile with
       | Some sf =>
           cmp <- compare_names E d_name sf ;;
           ret ((cmp <? 0) || (startfile_only && negb (cmp =? 0)))
       | None => ret false
       end) w
      = (Ret (match startfile with
              | Some sf =>
                  let cmp := names_cmp E (locale_specific_sorting w) d_name sf in
                  (cmp <? 0) || (startfile_only && negb (cmp =? 0))
              | None => false
              end), w1)
      /\ locale_specific_sorting w1 = locale_specific_sorting w
      /\ failed_locale_specific_sorting w1 = failed_locale_specific_sorting w
      /\ activations w1 = activations w
      /\ heap w1 = heap w /\ next_block w1 = next_block w
      /\ events w1 = events w ++ evs
      /\ forallb is_reading_event evs = true
      /\ (startfile = None \/ locale_specific_sorting w = false ->
          forallb is_syscall evs = true)).
  { destruct startfile as [sf |].
    - destruct Hsafe as [Hsafe | Hsafe]; [discriminate |].
      unfold bind. rewrite compare_names_ok by (apply safe_collation; exact Hsafe).
      destruct (compared_world_fields d_name sf w)
        as (F1 & F2 & F3 & F4 & F5 & evs & F6 & F7 & _ & F8).
      exists (compared_world E d_name sf w), evs. splits; auto.
      intros [Hn | Hoff]; [discriminate |]. rewrite (F8 Hoff). reflexivity.
    - exists w, []. rewrite app_nil_r. splits; auto. }
  destruct Hskip as (w1 & evs & Hrun & F1 & F2 & F3 & F4 & F5 & F6 & F7 & F8).
  unfold bind at 1. rewrite Hrun.
  set (skip := match startfile with
               | Some sf =>
                   let cmp := names_cmp E (locale_specific_sorting w) d_name sf in
                   (cmp <? 0) || (startfile_only && negb (cmp =? 0))
               | None => false
               end).
  assert (Hrd1 : reading H r w -> reading H r w1).
  { intros (A & B & C). unfold reading. rewrite F4, F5. auto. }
  assert (Hk : match startfile with
               | Some sf =>
                   let cmp := names_cmp E (locale_specific_sorting w) d_name sf in
                   negb ((cmp <? 0) || (startfile_only && negb (cmp =? 0)))
               | None => true
               end = negb skip).
  { unfold skip. destruct startfile; reflexivity. }
  cbv zeta in Hk |- *. rewrite Hk. clear Hk. clearbody skip.
  destruct skip; simpl.
  { exists r, w1, evs. rewrite app_nil_r. splits; try reflexivity; auto; lia. }
  destruct (excluded_file_name E d_name); simpl.
  { exists r, w1, evs. rewrite app_nil_r. splits; try reflexivity; auto; lia. }
  destruct (data_alloc r - data_used r <? Libc.strlen d_name + 1) eqn:Hgrow.
  - (* the buffer grows: the block moves *)
    unfold bind, xpalloc, ret. world_simpl.
    eexists _, _, evs. split; [reflexivity |]. simpl.
    splits; auto; try lia.
    intros Hrd. destruct (Hrd1 Hrd) as (A & B & C).
    unfold reading; simpl. rewrite A. simpl.
    rewrite Nat.eqb_refl. simpl.
    rewrite (filter_above H (rd_data r) B).
    splits; auto; try lia.
    eapply Forall_impl; [| exact B]. simpl. intros; lia.
  - unfold bind, ret. simpl.
    eexists _, w1, evs. split; [reflexivity |]. simpl.
    splits; auto; lia.
Qed.

Lemma read_safe_step startfile w w' :
  read_safe E startfile w ->
  locale_specific_sorting w' = locale_specific_sorting w ->
  read_safe E startfile w'.
Proof.
  intros [H | [H | H]] Hf; [left; exact H | right; left; exact H |].
  right; right. congruence.
Qed.

Lemma read_entries_ok fd startfile startfile_only entries final_errno H :
  forall r w,
  read_safe E startfile w ->
  exists r' w' evs,
    read_entries E fd startfile startfile_only entries final_errno r w
    = (Ret r', w')
    /\ rd_names r'
       = rd_names r
         ++ filter (kept E (locale_specific_sorting w) startfile startfile_only)
                   entries
    /\ (reading H r w -> reading H r' w' /\ (rd_data r <= rd_data r')%nat)
    /\ (next_block w <= next_block w')%nat
    /\ locale_specific_sorting w' = locale_specific_sorting w
    /\ failed_locale_specific_sorting w' = failed_locale_specific_sorting w
    /\ activations w' = activations w
    /\ errno w' = final_errno
    /\ events w' = events w ++ evs
    /\ forallb is_reading_event evs = true
    /\ (startfile = None \/ locale_specific_sorting w = false ->
        forallb is_syscall evs = true).
Proof.
  induction entries as [| d_name rest IH]; intros r w Hsafe; simpl.
  - unfold bind, readdir. simpl.
    eexists r, _, _. split; [reflexivity |]. simpl.
    rewrite app_nil_r. splits; auto.
  - unfold bind at 1. unfold readdir at 1.
    set (w0 := emit (Ev_sys (Sys_readdir fd)) (set_errno 0 w)).
    assert (Hsafe0 : read_safe E startfile w0) by exact Hsafe.
    destruct (read_entry_ok startfile startfile_only d_name H r w0 Hsafe0)
      as (r1 & w1 & evs1 & Hrun & Hn & Hrd1 & M2 & F1 & F2 & F3 & F4 & F5 & F6).
    unfold bind at 1. rewrite Hrun.
    destruct (IH r1 w1 (read_safe_step _ _ _ Hsafe0 F1))
      as (r2 & w2 & evs2 & Hrun2 & Hn2 & Hrd2 & N2 & G1 & G2 & G3 & G4
          & G5 & G6 & G7).
    exists r2, w2, (Ev_sys (Sys_readdir fd) :: evs1 ++ evs2).
    split; [exact Hrun2 |].
    rewrite Hn2, Hn, G1, G2, G3, G5, F1, F2, F3, F4. simpl.
    change (locale_specific_sorting w0) with (locale_specific_sorting w) in *.
    change (next_block w0) with (next_block w) in M2.
    splits; auto; try lia.
    + rewrite <- app_assoc.
      destruct (kept E (locale_specific_sorting w) startfile startfile_only d_name);
        reflexivity.
    + intros Hrd. destruct (Hrd1 Hrd) as [A1 A2]. destruct (Hrd2 A1) as [B1 B2].
      split; [exact B1 | lia].
    + rewrite <- !app_assoc. reflexivity.
    + rewrite forallb_app, F5, G6. reflexivity.
    + intros Hc. rewrite forallb_app, (F6 Hc), G7; [reflexivity |].
      rewrite F1. exact Hc.
Qed.

Lemma enumerate_returns dirfd dir1 startfile startfile_only w :
  read_safe E startfile w ->
  reads_well (name dir1) startfile w
    (enumerate E dirfd dir1 startfile startfile_only w).
Proof.
  intros Hsafe. unfold enumerate, reads_well.
  destruct (os_fdopendir E dirfd) as [[stream |] e'] eqn:Hdir.
  2:{ eexists false, _, empty_dirdata, _, [_].
      split; [reflexivity |]. unfold dirdata_blocks. world_simpl.
      splits; try reflexivity; auto; try discriminate. }
  set (w1 := emit (Ev_sys (Sys_fdopendir dirfd)) w).
  destruct (read_entries_ok dirfd startfile startfile_only
              (dir_entries stream) (dir_errno stream) (heap w)
              (mkreader (next_block w) 512 0 []) (snd (alloc w1)))
    as (r & w2 & evs & Hrun & Hn & Hrd & M2
        & F1 & F2 & F3 & F4 & F5 & F6 & F7).
  { exact Hsafe. }
  unfold alloc at 1. simpl. unfold bind. simpl in Hrun. rewrite Hrun.
  rewrite F4. simpl in M2, F7.
  assert (Hblocks : heap_ok w ->
            heap w2 = rd_data r :: heap w
            /\ (next_block w <= rd_data r)%nat
            /\ (rd_data r < next_block w2)%nat).
  { intros Hheap.
    destruct Hrd as [(A & B & C) D]; [| simpl in D; auto].
    unfold reading; simpl. splits; auto. }
  destruct (dir_errno stream =? 0); simpl.
  - eexists true, _, _, _, (_ :: evs).
    split; [reflexivity |]. unfold dirdata_blocks, build_names. world_simpl.
    rewrite F5, <- !app_assoc. simpl.
    splits; auto; try discriminate; try lia.
    + intros Hheap. destruct (Hblocks Hheap) as (A & B & C).
      rewrite A. split; [reflexivity |].
      constructor; [lia |]. constructor; [lia | constructor].
    + intros _. eexists; split; reflexivity.
  - eexists false, _, _, _, (_ :: evs).
    split; [reflexivity |]. unfold dirdata_blocks. world_simpl.
    rewrite F5, <- !app_assoc. simpl.
    splits; auto; try discriminate; try lia.
    intros Hheap. destruct (Hblocks Hheap) as (A & B & C).
    rewrite A. split; [reflexivity |].
    constructor; [lia | constructor].
Qed.

Lemma dir_read_returns parentdirfd dir startfile startfile_only w :
  read_safe E startfile w ->
  reads_well (name dir) startfile w
    (dir_read E parentdirfd dir startfile startfile_only w).
Proof.
  intros Hsafe.
  unfold dir_read.
  destruct (desc dir =? NONEXISTENT E).
  { (* known not to exist *)
    unfold reads_well, build_names. world_simpl.
    eexists true, dir, _, _, []. split; [reflexivity |]. simpl.
    rewrite app_nil_r. unfold dirdata_blocks. simpl.
    splits; auto; try discriminate.
    intros _. exists []. split; reflexivity. }
  unfold bind, open_directory.
  destruct (desc dir <? 0) eqn:Hneg.
  - (* the directory has to be opened *)
    destruct (os_openat E parentdirfd
                (if parentdirfd <? 0 then name dir else last_component E (name dir))
                (Z.lor (O_dir_flags E)
                   (if no_dereference_symlinks E then O_NOFOLLOW E else 0)))
      as [fd e] eqn:Hopen.
    destruct (fd <? 0).
    + unfold reads_well.
      eexists false, dir, empty_dirdata, _, [_].
      split; [reflexivity |]. unfold dirdata_blocks. world_simpl.
      splits; try reflexivity; auto; try discriminate.
    + match goal with
      | |- reads_well _ _ _ (enumerate E fd ?d ?s ?o ?w1) =>
          destruct (enumerate_returns fd d s o w1 Hsafe)
            as (ok & dir' & dd & w' & evs & Hrun & G)
      end.
      unfold reads_well. rewrite Hrun.
      exists ok, dir', dd, w', (Ev_sys (Sys_openat parentdirfd
                (if parentdirfd <? 0 then name dir else last_component E (name dir))
                (Z.lor (O_dir_flags E)
                   (if no_dereference_symlinks E then O_NOFOLLOW E else 0))) :: evs).
      split; [reflexivity |].
      world_simpl. rewrite <- app_assoc in G. simpl in G. exact G.
  - unfold ret. apply enumerate_returns; assumption.
Qed.

(** The names a readable directory yields. *)
Lemma enumerate_names dirfd dir1 startfile startfile_only stream e w :
  read_safe E startfile w ->
  os_fdopendir E dirfd = (Some stream, e) ->
  exists d w',
    enumerate E dirfd dir1 startfile startfile_only w
    = (Ret (dir_errno stream =? 0,
            mkfile (name dir1) (desc dir1) (Some stream) (fstat dir1), d), w')
    /\ (dir_errno stream = 0 ->
        cells_of d
        = table (filter (kept E (locale_specific_sorting w) startfile
                           startfile_only) (dir_entries stream))
        /\ nnames d
           = List.length
               (filter (kept E (locale_specific_sorting w) startfile
                          startfile_only) (dir_entries stream))).
Proof.
  intros Hsafe Hdir. unfold enumerate. rewrite Hdir.
  set (w1 := emit (Ev_sys (Sys_fdopendir dirfd)) w).
  destruct (read_entries_ok dirfd startfile startfile_only
              (dir_entries stream) (dir_errno stream) (heap w)
              (mkreader (next_block w) 512 0 []) (snd (alloc w1)))
    as (r & w2 & evs & Hrun & Hn & _ & _ & _ & _ & _ & F4 & _).
  { exact Hsafe. }
  unfold alloc at 1. simpl. unfold bind. simpl in Hrun. rewrite Hrun.
  rewrite F4. simpl in Hn.
  destruct (dir_errno stream =? 0) eqn:He; simpl.
  - unfold build_names, alloc. simpl.
    eexists _, _. split; [reflexivity |]. intros _. simpl.
    rewrite Hn. split; reflexivity.
  - eexists _, _. split; [reflexivity |].
    intros H0. rewrite H0 in He. discriminate.
Qed.

Lemma dir_read_names parentdirfd dir fd startfile startfile_only stream e w :
  read_safe E startfile w ->
  desc dir <> NONEXISTENT E ->
  opens_as E parentdirfd dir fd ->
  os_fdopendir E fd = (Some stream, e) ->
  exists dir' d w',
    dir_read E parentdirfd dir startfile startfile_only w
    = (Ret (dir_errno stream =? 0, dir', d), w')
    /\ (dir_errno stream = 0 ->
        cells_of d
        = table (filter (kept E (locale_specific_sorting w) startfile
                           startfile_only) (dir_entries stream))
        /\ nnames d
           = List.length
               (filter (kept E (locale_specific_sorting w) startfile
                          startfile_only) (dir_entries stream))).
Proof.
  intros Hsafe Hne Hopen Hdir.
  unfold dir_read.
  apply Z.eqb_neq in Hne. rewrite Hne.
  unfold bind, open_directory.
  destruct Hopen as [[Hpos ->] | (Hneg & Hfd & Hop)].
  - assert (Hlt : (desc dir <? 0) = false) by (apply Z.ltb_ge; exact Hpos).
    rewrite Hlt. unfold ret.
    destruct (enumerate_names (desc dir) dir startfile startfile_only stream e w
                Hsafe Hdir) as (d & w' & Hrun & Hn).
    rewrite Hrun. eexists _, d, w'. split; [reflexivity | exact Hn].
  - assert (Hlt : (desc dir <? 0) = true) by (apply Z.ltb_lt; exact Hneg).
    rewrite Hlt. unfold open_name, open_flags in Hop.
    destruct (os_openat E parentdirfd
                (if parentdirfd <? 0 then name dir else last_component E (name dir))
                (Z.lor (O_dir_flags E)
                   (if no_dereference_symlinks E then O_NOFOLLOW E else 0)))
      as [fd' e'] eqn:Hopen.
    simpl in Hop. subst fd'.
    assert (Hfd' : (fd <? 0) = false) by (apply Z.ltb_ge; exact Hfd).
    rewrite Hfd'.
    match goal with
    | |- context [enumerate E fd ?d1 ?s ?o ?w1] =>
        destruct (enumerate_names fd d1 s o stream e w1 Hsafe Hdir)
          as (d & w' & Hrun & Hn)
    end.
    rewrite Hrun. eexists _, d, w'. split; [reflexivity | exact Hn].
Qed.

(** C8.  For a directory side marked [NONEXISTENT], [dir_read] returns
    true at once: [*dir] is untouched, the table holds no name and consists
    of the null cell alone, no [data] block exists, and the log, hence the
    file system, is not touched; the only effect is the allocation of the
    one-cell table. *)
Theorem dir_read_nonexistent (parentdirfd : Z) (dir : file_data)
    (startfile : option string) (startfile_only : bool) (w : world) :
  desc dir = NONEXISTENT E ->
  exists d w',
    dir_read E parentdirfd dir startfile startfile_only w
    = (Ret (true, dir, d), w')
    /\ nnames d = 0%nat
    /\ cells_of d = [None]
    /\ data d = None
    /\ events w' = events w
    /\ count is_syscall (events w') = count is_syscall (events w)
    /\ w' = snd (alloc w).
Proof.
  intros Hd. unfold dir_read. rewrite Hd, Z.eqb_refl.
  unfold build_names, alloc. simpl.
  eexists _, _. split; [reflexivity |]. simpl.
  splits; reflexivity.
Qed.

(** C7.  A readable directory read with the restart cursor [start] yields
    exactly the entries that are not "." or "..", that the current
    comparator does not order before [start], that in only-mode it does not
    order after [start] either, and that are not excluded, in the order of
    enumeration.  In particular, when the comparator orders "a" before "m"
    before "z" and excludes nothing, enumerating "a", "m", "z" from "m"
    yields the table of "m" and "z", and in only-mode the table of "m"
    alone. *)
Theorem restart_cursor (parentdirfd : Z) (dir : file_data) (fd : Z)
    (stream : DIR) (e : Z) (start : string) (only : bool) (w : world) :
  comparisons_safe E w ->
  desc dir <> NONEXISTENT E ->
  opens_as E parentdirfd dir fd ->
  os_fdopendir E fd = (Some stream, e) ->
  dir_errno stream = 0 ->
  exists dir' d w',
    dir_read E parentdirfd dir (Some start) only w = (Ret (true, dir', d), w')
    /\ cells_of d
       = table (filter (kept E (locale_specific_sorting w) (Some start) only)
                       (dir_entries stream))
    /\ nnames d
       = List.length (filter (kept E (locale_specific_sorting w) (Some start) only)
                             (dir_entries stream))
    /\ (dir_entries stream = ["a"; "m"; "z"]%string ->
        start = "m"%string ->
        names_cmp E (locale_specific_sorting w) "a" "m" < 0 ->
        names_cmp E (locale_specific_sorting w) "m" "m" = 0 ->
        0 < names_cmp E (locale_specific_sorting w) "z" "m" ->
        (forall n, excluded_file_name E n = false) ->
        cells_of d
        = table (if only then ["m"%string] else ["m"; "z"]%string)).
Proof.
  intros Hsafe Hne Hopen Hdir Herr.
  destruct (dir_read_names parentdirfd dir fd (Some start) only stream e w
              (or_intror Hsafe) Hne Hopen Hdir) as (dir' & d & w' & Hrun & Hn).
  rewrite Herr in Hrun. simpl in Hrun.
  destruct (Hn Herr) as [Hc Hl].
  exists dir', d, w'. splits; auto.
  intros Hents -> Ha Hm Hz Hex.
  rewrite Hc, Hents. f_equal.
  unfold filter, kept. rewrite !Hex. simpl.
  rewrite Hm. simpl.
  assert (Ha' : (names_cmp E (locale_specific_sorting w) "a" "m" <? 0) = true)
    by (apply Z.ltb_lt; exact Ha).
  assert (Hz1 : (names_cmp E (locale_specific_sorting w) "z" "m" <? 0) = false)
    by (apply Z.ltb_ge; lia).
  assert (Hz2 : (names_cmp E (locale_specific_sorting w) "z" "m" =? 0) = false)
    by (apply Z.eqb_neq; lia).
  rewrite Ha', Hz1, Hz2. simpl.
  destruct only; reflexivity.
Qed.

End Reader.

Lemma restart_cursor_witness :
  (exists dir' d w',
     dir_read (Sample.posix false None Sample.fs_amz) (-100)
       (Sample.unopened "L" 10) (Some "m"%string) false Sample.w0
     = (Ret (true, dir', d), w')
     /\ cells_of d = table ["m"; "z"]%string)
  /\ (exists dir' d w',
        dir_read (Sample.posix false None Sample.fs_amz) (-100)
          (Sample.unopened "L" 10) (Some "m"%string) true Sample.w0
        = (Ret (true, dir', d), w')
        /\ cells_of d = table ["m"%string]).
Proof.
  assert (Hsafe : comparisons_safe (Sample.posix false None Sample.fs_amz) Sample.w0)
    by (right; reflexivity).
  assert (Hopen : opens_as (Sample.posix false None Sample.fs_amz) (-100)
                    (Sample.unopened "L" 10) 3).
  { right. splits; [reflexivity | discriminate | reflexivity]. }
  split.
  - destruct (restart_cursor (Sample.posix false None Sample.fs_amz) (-100)
                (Sample.unopened "L" 10) 3 (mkDIR ["a"; "m"; "z"]%string 0) 0
                "m" false Sample.w0 Hsafe)
      as (dir' & d & w' & Hrun & _ & _ & Hex);
      [discriminate | exact Hopen | reflexivity | reflexivity |].
    exists dir', d, w'. split; [exact Hrun |].
    apply Hex; reflexivity.
  - destruct (restart_cursor (Sample.posix false None Sample.fs_amz) (-100)
                (Sample.unopened "L" 10) 3 (mkDIR ["a"; "m"; "z"]%string 0) 0
                "m" true Sample.w0 Hsafe)
      as (dir' & d & w' & Hrun & _ & _ & Hex);
      [discriminate | exact Hopen | reflexivity | reflexivity |].
    exists dir', d, w'. split; [exact Hrun |].
    apply Hex; reflexivity.
Defined.

Lemma dir_read_nonexistent_witness :
  exists d w',
    dir_read (Sample.posix false None []) (-100) (Sample.nonexistent "L"%string)
      None false Sample.w0
    = (Ret (true, Sample.nonexistent "L"%string, d), w')
    /\ nnames d = 0%nat
    /\ cells_of d = [None]
    /\ data d = None
    /\ events w' = events Sample.w0
    /\ count is_syscall (events w') = count is_syscall (events Sample.w0)
    /\ w' = snd (alloc Sample.w0).
Proof.
  apply (dir_read_nonexistent (Sample.posix false None []) (-100)
           (Sample.nonexistent "L"%string) None false Sample.w0).
  reflexivity.
Defined.

(** ** Pairing Merge: one turn of the loop *)

Section Merge.

Variable E : env.

Lemma compared_world_safe name1 name2 w :
  comparisons_safe E w -> comparisons_safe E (compared_world E name1 name2 w).
Proof.
  intros [H | H]; [left; exact H | right].
  destruct (compared_world_fields E name1 name2 w) as [F _].
  rewrite F; exact H.
Qed.

Lemma compared_world_off name1 name2 w :
  locale_specific_sorting w = false -> compared_world E name1 name2 w = w.
Proof. unfold compared_world; intros ->; reflexivity. Qed.

Lemma compared_refl w : comparisons_safe E w -> compared E w w.
Proof.
  intros H. unfold compared. splits; auto.
  exists []. rewrite app_nil_r. split; reflexivity.
Qed.

Lemma compared_trans w w1 w2 : compared E w w1 -> compared E w1 w2 -> compared E w w2.
Proof.
  intros (A1 & A2 & A3 & A4 & A5 & A6 & A7 & e1 & A8 & A9)
         (B1 & B2 & B3 & B4 & B5 & B6 & B7 & e2 & B8 & B9).
  unfold compared. splits; try congruence.
  - intros H. rewrite B7 by congruence. auto.
  - exists (e1 ++ e2). rewrite B8, A8, app_assoc, forallb_app, A9, B9.
    split; reflexivity.
Qed.

Lemma compared_step name1 name2 w :
  comparisons_safe E w -> compared E w (compared_world E name1 name2 w).
Proof.
  intros H.
  destruct (compared_world_fields E name1 name2 w)
    as (F1 & F2 & F3 & F4 & F5 & evs & F6 & _ & F7 & _).
  unfold compared. splits; auto.
  - apply compared_world_safe; exact H.
  - apply compared_world_off.
  - exists evs; split; assumption.
Qed.

Lemma scan_lesser_ok greater_name q :
  forall k w,
  comparisons_safe E w ->
  exists w1,
    scan_lesser E greater_name k (table q) w
    = (Ret (option_map (fun i => (k + i)%nat)
              (find_exact E (locale_specific_sorting w) greater_name q)), w1)
    /\ compared E w w1.
Proof.
  induction q as [| x q IH]; intros k w Hsafe; simpl.
  - exists w. split; [reflexivity | apply compared_refl; exact Hsafe].
  - unfold bind.
    rewrite compare_names_ok by (apply safe_collation; exact Hsafe).
    destruct (names_cmp E (locale_specific_sorting w) x greater_name =? 0).
    + destruct (0 <=? file_name_cmp x greater_name).
      * exists (compared_world E x greater_name w). split.
        -- destruct (file_name_cmp x greater_name =? 0); simpl;
             [rewrite Nat.add_0_r |]; reflexivity.
        -- apply compared_step; exact Hsafe.
      * destruct (IH (S k) (compared_world E x greater_name w)
                    (compared_world_safe _ _ _ Hsafe)) as (w1 & Hrun & Hc).
        exists w1. split.
        -- unfold table in Hrun. rewrite Hrun.
           destruct (compared_world_fields E x greater_name w) as [F _].
           rewrite F.
           destruct (find_exact E (locale_specific_sorting w) greater_name q);
             simpl; [rewrite Nat.add_succ_r |]; reflexivity.
        -- eapply compared_trans; [apply compared_step; exact Hsafe | exact Hc].
    + exists (compared_world E x greater_name w). split; [reflexivity |].
      apply compared_step; exact Hsafe.
Qed.

Lemma rotate_table a la i g :
  (i < List.length la)%nat ->
  rotate (table (a :: la)) (S i) g = table (g :: a :: remove_nth i la).
Proof.
  intros Hi. unfold rotate, table, remove_nth.
  rewrite !map_cons, map_app, <- !app_comm_cons, firstn_cons, skipn_cons.
  rewrite firstn_app, skipn_app, firstn_map, skipn_map, length_map.
  replace (i - List.length la)%nat with O by lia.
  replace (S i - List.length la)%nat with O by lia.
  rewrite firstn_0, skipn_O, app_nil_r, <- !app_comm_cons, <- app_assoc.
  reflexivity.
Qed.

Lemma find_exact_bound s g q i :
  find_exact E s g q = Some i -> (i < List.length q)%nat.
Proof.
  revert i. induction q as [| x q IH]; intros i; simpl; [discriminate |].
  destruct (names_cmp E s x g =? 0); [| discriminate].
  destruct (0 <=? file_name_cmp x g).
  - destruct (file_name_cmp x g =? 0); [| discriminate].
    intros [= <-]. lia.
  - destruct (find_exact E s g q) as [j |]; simpl; [| discriminate].
    intros [= <-]. specialize (IH j eq_refl). lia.
Qed.

Lemma prefer_exact_ok nameorder a la b rb w :
  comparisons_safe E w ->
  exists w1,
    prefer_exact E nameorder (table (a :: la)) (table (b :: rb)) w
    = (Ret (let '(l1, r1) :=
              if (nameorder =? 0) && ignore_file_name_case E
              then exact_first E (locale_specific_sorting w) a la b rb
              else (a :: la, b :: rb) in
            (table l1, table r1)), w1)
    /\ compared E w w1.
Proof.
  intros Hsafe. unfold prefer_exact, exact_first.
  destruct ((nameorder =? 0) && ignore_file_name_case E) eqn:Hc.
  2:{ exists w. split; [reflexivity | apply compared_refl; exact Hsafe]. }
  apply andb_prop in Hc. destruct Hc as [_ Hi]. rewrite Hi.
  change (table (a :: la)) with (Some a :: table la).
  change (table (b :: rb)) with (Some b :: table rb).
  cbv iota beta.
  destruct (file_name_cmp a b =? 0); cbn [negb]; cbv iota.
  { exists w. split; [reflexivity | apply compared_refl; exact Hsafe]. }
  destruct (file_name_cmp a b <? 0).
  - unfold bind. cbn [tl].
    destruct (scan_lesser_ok b la 1%nat w Hsafe) as (w1 & Hrun & Hcmp).
    rewrite Hrun. exists w1. split; [| exact Hcmp].
    destruct (find_exact E (locale_specific_sorting w) b la) as [i |] eqn:Hf;
      simpl; [| reflexivity].
    change (Some a :: table la) with (table (a :: la)).
    rewrite rotate_table by (eapply find_exact_bound; exact Hf).
    reflexivity.
  - unfold bind. cbn [tl].
    destruct (scan_lesser_ok a rb 1%nat w Hsafe) as (w1 & Hrun & Hcmp).
    rewrite Hrun. exists w1. split; [| exact Hcmp].
    destruct (find_exact E (locale_specific_sorting w) a rb) as [i |] eqn:Hf;
      simpl; [| reflexivity].
    change (Some b :: table rb) with (table (b :: rb)).
    rewrite rotate_table by (eapply find_exact_bound; exact Hf).
    reflexivity.
Qed.

Lemma exact_first_heads s a la b rb :
  exists x l1 y r1, exact_first E s a la b rb = (x :: l1, y :: r1).
Proof.
  unfold exact_first.
  destruct (ignore_file_name_case E); [| eauto].
  destruct (file_name_cmp a b =? 0); [eauto |].
  destruct (file_name_cmp a b <? 0).
  - destruct (find_exact E s b la); eauto.
  - destruct (find_exact E s a rb); eauto.
Qed.

Lemma merge_loop_done fuel h cmp v dl rt w :
  merge_loop E fuel h cmp (mkframe (table []) (table []) v dl rt) w
  = (Ret tt, mkframe (table []) (table []) v dl rt, w).
Proof. destruct fuel; reflexivity. Qed.

(** One turn of the loop, when no comparison can fail: the comparisons
    leave a world [w1], and the pair of [next_pair] goes to the handler. *)
Lemma merge_loop_step h cmp l r p l' r' w :
  comparisons_safe E w ->
  next_pair E (locale_specific_sorting w) l r = Some (p, l', r') ->
  exists w1,
    compared E w w1
    /\ forall f v dl rt,
         merge_loop E (S f) h cmp (mkframe (table l) (table r) v dl rt) w
         = deliver E h cmp f p l' r' v dl rt w1.
Proof.
  intros Hsafe Hnext.
  destruct l as [| a la], r as [| b rb]; simpl in Hnext.
  - discriminate.
  - injection Hnext as <- <- <-.
    exists w. split; [apply compared_refl; exact Hsafe |].
    intros. reflexivity.
  - injection Hnext as <- <- <-.
    exists w. split; [apply compared_refl; exact Hsafe |].
    intros. reflexivity.
  - destruct (prefer_exact_ok (names_cmp E (locale_specific_sorting w) a b)
                a la b rb (compared_world E a b w)
                (compared_world_safe _ _ _ Hsafe)) as (w1 & Hpref & Hcmp).
    exists w1. split.
    { eapply compared_trans; [apply compared_step; exact Hsafe | exact Hcmp]. }
    intros f v dl rt.
    change (table (a :: la)) with (Some a :: table la) in *.
    change (table (b :: rb)) with (Some b :: table rb) in *.
    cbn [merge_loop at_end names0 names1].
    unfold compare_heads. cbn [names0 names1 hd name_order].
    unfold bind at 1. unfold bind at 1.
    rewrite compare_names_ok by (apply safe_collation; exact Hsafe).
    rewrite Hpref. clear Hpref.
    destruct (compared_world_fields E a b w) as [Fs _]. rewrite Fs.
    set (c := names_cmp E (locale_specific_sorting w) a b) in *.
    destruct (c <? 0) eqn:Hlt.
    + injection Hnext as <- <- <-.
      assert (H0 : (c =? 0) = false) by (apply Z.eqb_neq; apply Z.ltb_lt in Hlt; lia).
      assert (H1 : (0 <? c) = false) by (apply Z.ltb_ge; apply Z.ltb_lt in Hlt; lia).
      rewrite H0. cbn [andb]. cbv iota beta. unfold ret at 1.
      unfold handed. rewrite H1, Hlt. unfold deliver, with_value.
      cbn [hd tl fst snd val delivered returned names0 names1].
      reflexivity.
    + destruct (0 <? c) eqn:Hgt.
      * injection Hnext as <- <- <-.
        assert (H0 : (c =? 0) = false) by (apply Z.eqb_neq; apply Z.ltb_lt in Hgt; lia).
        rewrite H0. cbn [andb]. cbv iota beta. unfold ret at 1.
        unfold handed. rewrite Hgt, Hlt. unfold deliver, with_value.
        cbn [hd tl fst snd val delivered returned names0 names1].
        reflexivity.
      * assert (H0 : (c =? 0) = true)
          by (apply Z.eqb_eq; apply Z.ltb_ge in Hlt; apply Z.ltb_ge in Hgt; lia).
        rewrite H0. cbn [andb].
        assert (Hsame :
          (if ignore_file_name_case E
           then exact_first E (locale_specific_sorting w) a la b rb
           else (a :: la, b :: rb))
          = exact_first E (locale_specific_sorting w) a la b rb).
        { unfold exact_first. destruct (ignore_file_name_case E); reflexivity. }
        rewrite Hsame. clear Hsame.
        destruct (exact_first_heads (locale_specific_sorting w) a la b rb)
          as (x & l1 & y & r1 & Hex).
        rewrite Hex in Hnext |- *.
        injection Hnext as <- <- <-.
        unfold ret at 1. unfold handed. rewrite Hgt, Hlt.
        unfold deliver, with_value.
        cbn [hd tl fst snd val delivered returned names0 names1 hd_error table map app].
        reflexivity.
Qed.

End Merge.

(** ** Byte-wise comparison of C strings *)

Lemma uchar_inj c d : Libc.uchar c = Libc.uchar d -> c = d.
Proof.
  unfold Libc.uchar. intros H. apply N2Z.inj in H.
  rewrite <- (ascii_N_embedding c), <- (ascii_N_embedding d), H. reflexivity.
Qed.

Lemma uchar_nonneg c : 0 <= Libc.uchar c.
Proof. unfold Libc.uchar. apply N2Z.is_nonneg. Qed.

Lemma strcmp_refl a : Libc.strcmp a a = 0.
Proof. induction a as [| c a IH]; simpl; [| rewrite Z.eqb_refl]; auto. Qed.

Lemma strcmp_eq a :
  forall b, C_string a -> C_string b -> Libc.strcmp a b = 0 -> a = b.
Proof.
  induction a as [| c a IH]; intros [| d b] Ha Hb H; simpl in *.
  - reflexivity.
  - destruct Hb as [Hd _]. lia.
  - destruct Ha as [Hc _]. lia.
  - destruct (Z.eqb_spec (Libc.uchar c) (Libc.uchar d)) as [Hcd | Hcd].
    + f_equal; [apply uchar_inj; exact Hcd |].
      apply IH; [apply Ha | apply Hb | exact H].
    + lia.
Qed.

(** ** Reordering within runs *)

Section Runs.

Variable eqv : string -> string -> Prop.

Lemma run_permuted_refl l : run_permuted eqv l l.
Proof. induction l; constructor; assumption. Qed.

Lemma run_permuted_app_head pre l l' :
  run_permuted eqv l l' -> run_permuted eqv (pre ++ l) (pre ++ l').
Proof. intros H. induction pre; simpl; [exact H | constructor; exact IHpre]. Qed.

Lemma run_permuted_Permutation l l' :
  run_permuted eqv l l' -> Permutation l l'.
Proof.
  induction 1.
  - constructor.
  - constructor; assumption.
  - apply perm_swap.
  - eapply perm_trans; eassumption.
Qed.

End Runs.

Lemma lefts_app ps qs : lefts (ps ++ qs) = lefts ps ++ lefts qs.
Proof. unfold lefts. apply flat_map_app. Qed.

Lemma rights_app ps qs : rights (ps ++ qs) = rights ps ++ rights qs.
Proof. unfold rights. apply flat_map_app. Qed.

Lemma lone_names_app ps qs : lone_names (ps ++ qs) = lone_names ps ++ lone_names qs.
Proof. unfold lone_names. apply flat_map_app. Qed.

Lemma max_step v v1 : (if v <? v1 then v1 else v) = Z.max v v1.
Proof. destruct (Z.ltb_spec v v1); lia. Qed.

(** ** Pairing Merge: the turn on names *)

Section Turn.

Variable E : env.

Lemma find_exact_run s g q i :
  Forall C_string q -> C_string g ->
  find_exact E s g q = Some i ->
  run_permuted (comparator_equal E) q (g :: remove_nth i q)
  /\ Forall (fun x => names_cmp E s x g = 0) (firstn (S i) q).
Proof.
  intros Hq Hg. revert i.
  induction q as [| x q IH]; intros i; simpl; [discriminate |].
  destruct (Z.eqb_spec (names_cmp E s x g) 0) as [Hx |]; [| discriminate].
  destruct (0 <=? file_name_cmp x g).
  - destruct (Z.eqb_spec (file_name_cmp x g) 0) as [Hraw |]; [| discriminate].
    intros [= <-].
    assert (x = g).
    { apply strcmp_eq; [| exact Hg | exact Hraw].
      inversion Hq; assumption. }
    subst x. unfold remove_nth. simpl. split.
    + apply run_permuted_refl.
    + constructor; [exact Hx | constructor].
  - destruct (find_exact E s g q) as [j |] eqn:Hf; simpl; [| discriminate].
    intros [= <-].
    inversion Hq as [| ? ? Hcx Hq']; subst.
    destruct (IH Hq' j eq_refl) as [IH1 IH2].
    split.
    + eapply rp_trans.
      * apply rp_skip. exact IH1.
      * unfold remove_nth. cbn [firstn skipn app].
        apply rp_swap. exists s. left. exact Hx.
    + constructor; [exact Hx | exact IH2].
Qed.

Lemma remove_nth_C_string i q :
  Forall C_string q -> Forall C_string (remove_nth i q).
Proof.
  intros H. unfold remove_nth. apply Forall_app. split.
  - rewrite <- (firstn_skipn i q) in H. apply Forall_app in H. apply H.
  - rewrite <- (firstn_skipn (S i) q) in H. apply Forall_app in H. apply H.
Qed.

Lemma remove_nth_length i q :
  (i < List.length q)%nat -> S (List.length (remove_nth i q)) = List.length q.
Proof.
  intros H. unfold remove_nth.
  rewrite length_app, length_firstn, length_skipn. lia.
Qed.

(** The tie-break keeps the names and their number; it reorders within
    the run of names that compare equal. *)
Lemma exact_first_run s a la b rb l1 r1 :
  names_cmp E s a b = 0 ->
  Forall C_string (a :: la) -> Forall C_string (b :: rb) ->
  exact_first E s a la b rb = (l1, r1) ->
  run_permuted (comparator_equal E) (a :: la) l1
  /\ run_permuted (comparator_equal E) (b :: rb) r1
  /\ Forall C_string l1 /\ Forall C_string r1
  /\ List.length l1 = S (List.length la)
  /\ List.length r1 = S (List.length rb)
  /\ (ignore_file_name_case E = false -> l1 = a :: la /\ r1 = b :: rb).
Proof.
  intros Hab Hl Hr. unfold exact_first.
  assert (Hkeep :
    (a :: la, b :: rb) = (l1, r1) ->
    run_permuted (comparator_equal E) (a :: la) l1
    /\ run_permuted (comparator_equal E) (b :: rb) r1
    /\ Forall C_string l1 /\ Forall C_string r1
    /\ List.length l1 = S (List.length la)
    /\ List.length r1 = S (List.length rb)
    /\ (ignore_file_name_case E = false -> l1 = a :: la /\ r1 = b :: rb)).
  { intros [= <- <-]. splits; auto; apply run_permuted_refl. }
  destruct (ignore_file_name_case E) eqn:Hi; [| exact Hkeep].
  destruct (file_name_cmp a b =? 0); [exact Hkeep |].
  inversion Hl as [| ? ? Ha Hla]; inversion Hr as [| ? ? Hb Hrb]; subst.
  destruct (file_name_cmp a b <? 0).
  - destruct (find_exact E s b la) as [i |] eqn:Hf; [| exact Hkeep].
    intros [= <- <-].
    destruct (find_exact_run s b la i Hla Hb Hf) as [Hrun _].
    pose proof (find_exact_bound E s b la i Hf) as Hlen.
    splits; try discriminate.
    + eapply rp_trans; [apply rp_skip; exact Hrun |].
      apply rp_swap. exists s. left. exact Hab.
    + apply run_permuted_refl.
    + constructor; [exact Hb |]. constructor; [exact Ha |].
      apply remove_nth_C_string; exact Hla.
    + exact Hr.
    + simpl. rewrite remove_nth_length by exact Hlen. reflexivity.
    + reflexivity.
  - destruct (find_exact E s a rb) as [i |] eqn:Hf; [| exact Hkeep].
    intros [= <- <-].
    destruct (find_exact_run s a rb i Hrb Ha Hf) as [Hrun _].
    pose proof (find_exact_bound E s a rb i Hf) as Hlen.
    assert (Hba : comparator_equal E b a) by (exists s; right; exact Hab).
    splits; try discriminate.
    + apply run_permuted_refl.
    + eapply rp_trans; [apply rp_skip; exact Hrun |].
      apply rp_swap. exact Hba.
    + exact Hl.
    + constructor; [exact Ha |]. constructor; [exact Hb |].
      apply remove_nth_C_string; exact Hrb.
    + reflexivity.
    + simpl. rewrite remove_nth_length by exact Hlen. reflexivity.
Qed.

Lemma exact_first_length s a la b rb l1 r1 :
  exact_first E s a la b rb = (l1, r1) ->
  List.length l1 = S (List.length la)
  /\ List.length r1 = S (List.length rb)
  /\ (ignore_file_name_case E = false -> l1 = a :: la /\ r1 = b :: rb).
Proof.
  unfold exact_first.
  assert (Hkeep :
    (a :: la, b :: rb) = (l1, r1) ->
    List.length l1 = S (List.length la)
    /\ List.length r1 = S (List.length rb)
    /\ (ignore_file_name_case E = false -> l1 = a :: la /\ r1 = b :: rb)).
  { intros [= <- <-]. splits; auto. }
  destruct (ignore_file_name_case E) eqn:Hi; [| exact Hkeep].
  destruct (file_name_cmp a b =? 0); [exact Hkeep |].
  destruct (file_name_cmp a b <? 0).
  - destruct (find_exact E s b la) as [i |] eqn:Hf; [| exact Hkeep].
    intros [= <- <-].
    pose proof (find_exact_bound E s b la i Hf) as Hlen.
    splits; try discriminate; try reflexivity.
    simpl. rewrite remove_nth_length by exact Hlen. reflexivity.
  - destruct (find_exact E s a rb) as [i |] eqn:Hf; [| exact Hkeep].
    intros [= <- <-].
    pose proof (find_exact_bound E s a rb i Hf) as Hlen.
    splits; try discriminate; try reflexivity.
    simpl. rewrite remove_nth_length by exact Hlen. reflexivity.
Qed.

(** A turn hands over at least one name and keeps the rest. *)
Lemma next_pair_length s l r p l' r' :
  next_pair E s l r = Some (p, l', r') ->
  (S (List.length l' + List.length r') <= List.length l + List.length r)%nat
  /\ p <> (None, None)
  /\ (ignore_file_name_case E = false ->
      lefts [p] ++ l' = l /\ rights [p] ++ r' = r).
Proof.
  destruct l as [| a la], r as [| b rb]; simpl; try discriminate.
  - intros [= <- <- <-]. simpl. splits; auto; discriminate.
  - intros [= <- <- <-]. simpl. splits; auto; try discriminate; lia.
  - destruct (names_cmp E s a b <? 0) eqn:Hlt.
    { intros [= <- <- <-]. simpl. splits; auto; try discriminate; lia. }
    destruct (0 <? names_cmp E s a b) eqn:Hgt.
    { intros [= <- <- <-]. simpl. splits; auto; try discriminate; lia. }
    destruct (exact_first E s a la b rb) as [l1 r1] eqn:Hex.
    destruct (exact_first_length s a la b rb l1 r1 Hex) as (L1 & L2 & Hno).
    destruct l1 as [| x l1]; [discriminate |].
    destruct r1 as [| y r1]; [discriminate |].
    intros [= <- <- <-]. simpl in *.
    splits; auto; try discriminate; try lia.
Qed.

(** A turn reorders names within a run of equal names only. *)
Lemma next_pair_run s l r p l' r' :
  Forall C_string l -> Forall C_string r ->
  next_pair E s l r = Some (p, l', r') ->
  run_permuted (comparator_equal E) l (lefts [p] ++ l')
  /\ run_permuted (comparator_equal E) r (rights [p] ++ r')
  /\ Forall C_string l' /\ Forall C_string r'.
Proof.
  intros Hl Hr.
  destruct l as [| a la], r as [| b rb]; simpl; try discriminate.
  - intros [= <- <- <-]. simpl.
    inversion Hr; subst.
    splits; auto; try apply run_permuted_refl.
  - intros [= <- <- <-]. simpl.
    inversion Hl; subst.
    splits; auto; try apply run_permuted_refl.
  - destruct (names_cmp E s a b <? 0) eqn:Hlt.
    { intros [= <- <- <-]. simpl. inversion Hl; subst.
      splits; auto; try apply run_permuted_refl. }
    destruct (0 <? names_cmp E s a b) eqn:Hgt.
    { intros [= <- <- <-]. simpl. inversion Hr; subst.
      splits; auto; try apply run_permuted_refl. }
    assert (Hab : names_cmp E s a b = 0).
    { apply Z.ltb_ge in Hlt. apply Z.ltb_ge in Hgt. lia. }
    destruct (exact_first E s a la b rb) as [l1 r1] eqn:Hex.
    destruct (exact_first_run s a la b rb l1 r1 Hab Hl Hr Hex)
      as (R1 & R2 & C1 & C2 & L1 & L2 & Hno).
    destruct l1 as [| x l1]; [discriminate |].
    destruct r1 as [| y r1]; [discriminate |].
    intros [= <- <- <-]. simpl in *.
    inversion C1; inversion C2; subst.
    splits; auto.
Qed.

Lemma next_pair_some s l r :
  (0 < List.length l + List.length r)%nat ->
  exists p l' r', next_pair E s l r = Some (p, l', r').
Proof.
  intros H. destruct l as [| a la], r as [| b rb]; simpl in *.
  - lia.
  - eauto.
  - eauto.
  - destruct (names_cmp E s a b <? 0); [eauto |].
    destruct (0 <? names_cmp E s a b); [eauto |].
    destruct (exact_first E s a la b rb); eauto.
Qed.

Lemma safe_emit e w :
  comparisons_safe E w -> comparisons_safe E (emit e w).
Proof. intros H; exact H. Qed.

(** The loop on two tables when no comparison can fail and the handler
    returns: it ends with both cursors on their null cell, having handed
    over every name. *)
Lemma merge_loop_total h cmp :
  total E h ->
  forall fuel l r v dl rt w,
  comparisons_safe E w ->
  (List.length l + List.length r <= fuel)%nat ->
  exists fr w' ps vs,
    merge_loop E fuel h cmp (mkframe (table l) (table r) v dl rt) w
    = (Ret tt, fr, w')
    /\ names0 fr = [None] /\ names1 fr = [None]
    /\ delivered fr = dl ++ ps
    /\ returned fr = rt ++ vs
    /\ List.length vs = List.length ps
    /\ val fr = fold_left Z.max vs v
    /\ (Forall C_string l -> Forall C_string r ->
        run_permuted (comparator_equal E) l (lefts ps)
        /\ run_permuted (comparator_equal E) r (rights ps))
    /\ (List.length ps <= List.length l + List.length r)%nat
    /\ Forall (fun p => p <> (None, None)) ps
    /\ (ignore_file_name_case E = false -> lefts ps = l /\ rights ps = r)
    /\ comparisons_safe E w'
    /\ (sorting_kept h ->
        ps = merge_pairs E fuel (locale_specific_sorting w) l r
        /\ locale_specific_sorting w' = locale_specific_sorting w).
Proof.
  intros Htotal.
  induction fuel as [| f IH]; intros l r v dl rt w Hsafe Hfuel.
  - destruct l, r; simpl in Hfuel; try lia.
    rewrite merge_loop_done.
    eexists _, w, [], []. split; [reflexivity |]. simpl.
    rewrite !app_nil_r. splits; auto; repeat constructor.
  - destruct (Nat.eq_dec (List.length l + List.length r) 0) as [Hz | Hnz].
    { destruct l, r; simpl in Hz; try lia.
      rewrite merge_loop_done.
      eexists _, w, [], []. split; [reflexivity |]. simpl.
      rewrite !app_nil_r. splits; auto; repeat constructor. }
    destruct (next_pair_some (locale_specific_sorting w) l r) as (p & l' & r' & Hnext);
      [lia |].
    destruct (next_pair_length _ l r p l' r' Hnext) as (Hlen & Hp & Hno).
    destruct (merge_loop_step E h cmp l r p l' r' w Hsafe Hnext)
      as (w1 & Hcmp & Hstep).
    rewrite Hstep. unfold deliver.
    destruct Hcmp as (Hsafe1 & Hflag1 & _).
    destruct (Htotal cmp (fst p) (snd p) (emit (Ev_handle (fst p) (snd p)) w1)
                (safe_emit _ _ Hsafe1)) as (v1 & w2 & Hh & Hsafe2).
    rewrite Hh.
    destruct (IH l' r' (if v <? v1 then v1 else v) (dl ++ [p]) (rt ++ [v1]) w2
                Hsafe2) as (fr & w' & ps & vs & Hrun & G);
      [lia |].
    destruct G as (G1 & G2 & G3 & G4 & G5 & G6 & G7 & G9 & G10 & G11 & G12 & G13).
    exists fr, w', (p :: ps), (v1 :: vs).
    split; [exact Hrun |].
    rewrite G3, G4, <- !app_assoc.
    rewrite max_step in G6.
    change (p :: ps) with ([p] ++ ps). rewrite lefts_app, rights_app.
    splits; auto.
    + simpl. lia.
    + intros Hl Hr.
      destruct (next_pair_run _ l r p l' r' Hl Hr Hnext) as (R1 & R2 & C1 & C2).
      destruct (G7 C1 C2) as [G7a G7b].
      split.
      * eapply rp_trans; [exact R1 |].
        apply run_permuted_app_head. exact G7a.
      * eapply rp_trans; [exact R2 |].
        apply run_permuted_app_head. exact G7b.
    + simpl. lia.
    + constructor; assumption.
    + intros Hi. destruct (Hno Hi) as [H1 H2]. destruct (G11 Hi) as [H3 H4].
      rewrite H3, H4. split; assumption.
    + intros Hk. destruct (G13 Hk) as [H1 H2].
      pose proof (Hk cmp (fst p) (snd p) (emit (Ev_handle (fst p) (snd p)) w1)) as Hk1.
      rewrite Hh in Hk1. simpl in Hk1.
      assert (Hw2 : locale_specific_sorting w2 = locale_specific_sorting w)
        by (rewrite Hk1; exact Hflag1).
      rewrite Hw2 in H1, H2.
      split; [| exact H2].
      simpl. rewrite Hnext. simpl. rewrite <- H1. reflexivity.
Qed.

(** The loop calls the handler on each pair it records, in that order,
    and records what the handler returned. *)
Lemma merge_loop_calls h cmp :
  total E h ->
  forall fuel l r v dl rt w fr w',
  comparisons_safe E w ->
  (List.length l + List.length r <= fuel)%nat ->
  merge_loop E fuel h cmp (mkframe (table l) (table r) v dl rt) w
  = (Ret tt, fr, w') ->
  exists ps vs,
    delivered fr = dl ++ ps
    /\ returned fr = rt ++ vs
    /\ handler_calls E h cmp w ps vs w'.
Proof.
  intros Htotal.
  assert (Hdone : forall f v dl rt w fr w',
            merge_loop E f h cmp (mkframe (table []) (table []) v dl rt) w
            = (Ret tt, fr, w') ->
            exists ps vs,
              delivered fr = dl ++ ps /\ returned fr = rt ++ vs
              /\ handler_calls E h cmp w ps vs w').
  { intros f v dl rt w fr w' Hrun. rewrite merge_loop_done in Hrun.
    injection Hrun as <- <-. exists [], []. simpl. rewrite !app_nil_r.
    splits; auto. constructor. }
  induction fuel as [| f IH]; intros l r v dl rt w fr w' Hsafe Hfuel Hrun.
  - destruct l, r; simpl in Hfuel; try lia. eapply Hdone. exact Hrun.
  - destruct (Nat.eq_dec (List.length l + List.length r) 0) as [Hz | Hnz].
    { destruct l, r; simpl in Hz; try lia. eapply Hdone. exact Hrun. }
    destruct (next_pair_some (locale_specific_sorting w) l r) as (p & l' & r' & Hnext);
      [lia |].
    destruct (next_pair_length _ l r p l' r' Hnext) as (Hlen & _).
    destruct (merge_loop_step E h cmp l r p l' r' w Hsafe Hnext)
      as (w1 & Hcmp & Hstep).
    rewrite Hstep in Hrun. unfold deliver in Hrun.
    pose proof Hcmp as (Hsafe1 & _).
    destruct (Htotal cmp (fst p) (snd p) (emit (Ev_handle (fst p) (snd p)) w1)
                (safe_emit _ _ Hsafe1)) as (v1 & w2 & Hh & Hsafe2).
    rewrite Hh in Hrun.
    destruct (IH l' r' (if v <? v1 then v1 else v) (dl ++ [p]) (rt ++ [v1]) w2
                fr w' Hsafe2) as (ps & vs & Hd & Hr & Hcalls);
      [lia | exact Hrun |].
    exists (p :: ps), (v1 :: vs).
    rewrite Hd, Hr, <- !app_assoc. splits; auto.
    econstructor; eassumption.
Qed.

Lemma keeps_sorting_total h : keeps_sorting h -> total E h.
Proof.
  intros Hk cmp a b w Hsafe.
  destruct (Hk cmp a b w) as (v & w' & Hrun & Hflag).
  exists v, w'. split; [exact Hrun |].
  destruct Hsafe as [H | H]; [left; exact H | right; congruence].
Qed.

Lemma keeps_sorting_kept h : keeps_sorting h -> sorting_kept h.
Proof.
  intros Hk cmp a b w.
  destruct (Hk cmp a b w) as (v & w' & Hrun & Hflag).
  rewrite Hrun. exact Hflag.
Qed.

(** The merge of two sorted tables without a common name, on names. *)
Lemma merge_pairs_disjoint s :
  forall fuel l r,
  (List.length l + List.length r <= fuel)%nat ->
  Sorted (name_le E s) l -> Sorted (name_le E s) r ->
  (forall a b, In a l -> In b r -> names_cmp E s a b <> 0) ->
  (forall a b, In a l -> In b r ->
     0 < names_cmp E s a b -> names_cmp E s b a <= 0) ->
  List.length (merge_pairs E fuel s l r) = (List.length l + List.length r)%nat
  /\ Forall (fun p => lone_name p <> None) (merge_pairs E fuel s l r)
  /\ Sorted (name_le E s) (lone_names (merge_pairs E fuel s l r))
  /\ (forall z, HdRel (name_le E s) z l -> HdRel (name_le E s) z r ->
        HdRel (name_le E s) z (lone_names (merge_pairs E fuel s l r)))
  /\ Permutation (lone_names (merge_pairs E fuel s l r)) (l ++ r)
  /\ lefts (merge_pairs E fuel s l r) = l
  /\ rights (merge_pairs E fuel s l r) = r.
Proof.
  induction fuel as [| f IH]; intros l r Hfuel Sl Sr Hdis Hanti.
  - destruct l, r; simpl in Hfuel; try lia. simpl.
    splits; auto; constructor.
  - destruct l as [| a la], r as [| b rb].
    + simpl. splits; auto; constructor.
    + (* the left side is exhausted: the right side drains *)
      cbn [merge_pairs next_pair].
      destruct (IH [] rb) as (I1 & I2 & I3 & I4 & I5 & I6 & I7).
      { simpl in *; lia. }
      { constructor. }
      { inversion Sr; assumption. }
      { intros ? ? []. }
      { intros ? ? []. }
      change (lone_names ((None, Some b) :: ?ps)) with (b :: lone_names ps).
      splits.
      * simpl. rewrite I1. reflexivity.
      * constructor; [discriminate | exact I2].
      * constructor; [exact I3 |].
        apply I4; [constructor | inversion Sr; assumption].
      * intros z _ Hz. inversion Hz; subst. constructor. assumption.
      * simpl. constructor. exact I5.
      * exact I6.
      * change (rights ((None, Some b) :: ?ps)) with (b :: rights ps).
        rewrite I7. reflexivity.
    + (* the right side is exhausted: the left side drains *)
      cbn [merge_pairs next_pair].
      destruct (IH la []) as (I1 & I2 & I3 & I4 & I5 & I6 & I7).
      { simpl in *; lia. }
      { inversion Sl; assumption. }
      { constructor. }
      { intros ? ? _ []. }
      { intros ? ? _ []. }
      change (lone_names ((Some a, None) :: ?ps)) with (a :: lone_names ps).
      splits.
      * simpl. rewrite I1. simpl. reflexivity.
      * constructor; [discriminate | exact I2].
      * constructor; [exact I3 |].
        apply I4; [inversion Sl; assumption | constructor].
      * intros z Hz _. inversion Hz; subst. constructor. assumption.
      * simpl. constructor. exact I5.
      * change (lefts ((Some a, None) :: ?ps)) with (a :: lefts ps).
        rewrite I6. reflexivity.
      * exact I7.
    + cbn [merge_pairs next_pair].
      destruct (names_cmp E s a b <? 0) eqn:Hlt.
      * (* the left name comes first *)
        destruct (IH la (b :: rb)) as (I1 & I2 & I3 & I4 & I5 & I6 & I7).
        { simpl in *; lia. }
        { inversion Sl; assumption. }
        { exact Sr. }
        { intros x y Hx Hy. apply Hdis; [right; exact Hx | exact Hy]. }
        { intros x y Hx Hy. apply Hanti; [right; exact Hx | exact Hy]. }
        change (lone_names ((Some a, None) :: ?ps)) with (a :: lone_names ps).
        splits.
        -- simpl. rewrite I1. simpl. reflexivity.
        -- constructor; [discriminate | exact I2].
        -- constructor; [exact I3 |].
           apply I4; [inversion Sl; assumption |].
           constructor. unfold name_le. apply Z.ltb_lt in Hlt. lia.
        -- intros z Hz _. inversion Hz; subst. constructor. assumption.
        -- simpl. constructor. exact I5.
        -- change (lefts ((Some a, None) :: ?ps)) with (a :: lefts ps).
           rewrite I6. reflexivity.
        -- exact I7.
      * destruct (0 <? names_cmp E s a b) eqn:Hgt.
        -- (* the right name comes first *)
           destruct (IH (a :: la) rb) as (I1 & I2 & I3 & I4 & I5 & I6 & I7).
           { simpl in *; lia. }
           { exact Sl. }
           { inversion Sr; assumption. }
           { intros x y Hx Hy. apply Hdis; [exact Hx | right; exact Hy]. }
           { intros x y Hx Hy. apply Hanti; [exact Hx | right; exact Hy]. }
           change (lone_names ((None, Some b) :: ?ps)) with (b :: lone_names ps).
           splits.
           ++ simpl. rewrite I1. simpl. lia.
           ++ constructor; [discriminate | exact I2].
           ++ constructor; [exact I3 |].
              apply I4; [| inversion Sr; assumption].
              constructor. unfold name_le.
              apply Hanti; [left; reflexivity | left; reflexivity |].
              apply Z.ltb_lt in Hgt. exact Hgt.
           ++ intros z _ Hz. inversion Hz; subst. constructor. assumption.
           ++ eapply perm_trans; [| apply Permutation_middle].
              simpl. constructor. exact I5.
           ++ exact I6.
           ++ change (rights ((None, Some b) :: ?ps)) with (b :: rights ps).
              rewrite I7. reflexivity.
        -- exfalso. apply (Hdis a b); [left; reflexivity | left; reflexivity |].
           apply Z.ltb_ge in Hlt. apply Z.ltb_ge in Hgt. lia.
Qed.

(** C10.  Whatever the two tables hold and whether or not case is
    folded, as long as the locale subsystem reports no error (or collation
    is off) and the handler returns, the merge ends with both cursors on
    their terminating null cell after at most |left|+|right| handler
    calls; the left names of the delivered pairs are the names of the left
    table, each exactly once, and likewise on the right; the order of
    delivery differs from the order of the table only by moves of a name
    past names the comparator calls equal to it, and not at all when case
    is not folded.  The delivered pairs are the calls of the handler: it
    is called on each of them in turn, with nothing but comparisons
    between two calls, and the values recorded are what the calls
    returned. *)
Theorem merge_delivers_each_name_once (h : handler) (cmp : comparison)
    (l r : list string) (v : Z) (w : world) (fuel : nat) :
  total E h ->
  comparisons_safe E w ->
  Forall C_string l -> Forall C_string r ->
  (List.length l + List.length r <= fuel)%nat ->
  exists fr w',
    merge_loop E fuel h cmp (mkframe (table l) (table r) v [] []) w
    = (Ret tt, fr, w')
    /\ names0 fr = [None] /\ names1 fr = [None]
    /\ Permutation (lefts (delivered fr)) l
    /\ Permutation (rights (delivered fr)) r
    /\ run_permuted (comparator_equal E) l (lefts (delivered fr))
    /\ run_permuted (comparator_equal E) r (rights (delivered fr))
    /\ (ignore_file_name_case E = false ->
        lefts (delivered fr) = l /\ rights (delivered fr) = r)
    /\ Forall (fun p => p <> (None, None)) (delivered fr)
    /\ List.length (returned fr) = List.length (delivered fr)
    /\ (List.length (delivered fr) <= List.length l + List.length r)%nat
    /\ handler_calls E h cmp w (delivered fr) (returned fr) w'.
Proof.
  intros Ht Hsafe Hl Hr Hfuel.
  destruct (merge_loop_total h cmp Ht fuel l r v [] [] w Hsafe Hfuel)
    as (fr & w' & ps & vs & Hrun & G1 & G2 & G3 & G4 & G5 & G6 & G7
        & G9 & G10 & G11 & _).
  destruct (merge_loop_calls h cmp Ht fuel l r v [] [] w fr w' Hsafe Hfuel Hrun)
    as (ps' & vs' & Hd & Hr' & Hcalls).
  simpl in G3, G4, Hd, Hr'. subst.
  destruct (G7 Hl Hr) as [G7a G7b].
  exists fr, w'.
  splits; auto.
  - apply Permutation_sym. eapply run_permuted_Permutation. exact G7a.
  - apply Permutation_sym. eapply run_permuted_Permutation. exact G7b.
Qed.

(** C5.  When the two tables are sorted by the active comparator, no name
    of one compares equal to a name of the other, and the handler returns
    without touching the comparator, the merge calls the handler exactly
    |left|+|right| times, every delivered pair has exactly one side null,
    and the names come in the comparator's order, each side in the order of
    its table.  The delivered pairs are the calls of the handler, made in
    this order, and the values recorded are what the calls returned. *)
Theorem merge_of_disjoint_tables (h : handler) (cmp : comparison)
    (l r : list string) (v : Z) (w : world) (fuel : nat) :
  keeps_sorting h ->
  comparisons_safe E w ->
  (List.length l + List.length r <= fuel)%nat ->
  Sorted (name_le E (locale_specific_sorting w)) l ->
  Sorted (name_le E (locale_specific_sorting w)) r ->
  (forall a b, In a l -> In b r ->
     names_cmp E (locale_specific_sorting w) a b <> 0) ->
  (forall a b, In a l -> In b r ->
     0 < names_cmp E (locale_specific_sorting w) a b ->
     names_cmp E (locale_specific_sorting w) b a <= 0) ->
  exists fr w',
    merge_loop E fuel h cmp (mkframe (table l) (table r) v [] []) w
    = (Ret tt, fr, w')
    /\ List.length (delivered fr) = (List.length l + List.length r)%nat
    /\ List.length (returned fr) = (List.length l + List.length r)%nat
    /\ Forall (fun p => lone_name p <> None) (delivered fr)
    /\ Sorted (name_le E (locale_specific_sorting w))
              (lone_names (delivered fr))
    /\ Permutation (lone_names (delivered fr)) (l ++ r)
    /\ lefts (delivered fr) = l
    /\ rights (delivered fr) = r
    /\ handler_calls E h cmp w (delivered fr) (returned fr) w'.
Proof.
  intros Hk Hsafe Hfuel Sl Sr Hdis Hanti.
  destruct (merge_loop_total h cmp (keeps_sorting_total h Hk) fuel l r v [] [] w
              Hsafe Hfuel)
    as (fr & w' & ps & vs & Hrun & G1 & G2 & G3 & G4 & G5 & G6 & G7
        & G9 & G10 & G11 & G12 & G13).
  destruct (merge_loop_calls h cmp (keeps_sorting_total h Hk) fuel l r v [] []
              w fr w' Hsafe Hfuel Hrun) as (ps' & vs' & Hd & Hr' & Hcalls).
  simpl in Hd, Hr'. rewrite <- Hd, <- Hr' in Hcalls.
  simpl in G3, G4. subst.
  destruct (G13 (keeps_sorting_kept h Hk)) as [Hps _].
  destruct (merge_pairs_disjoint (locale_specific_sorting w) fuel l r
              Hfuel Sl Sr Hdis Hanti) as (D1 & D2 & D3 & D4 & D5 & D6 & D7).
  rewrite <- Hps in D1, D2, D3, D5, D6, D7.
  exists fr, w'.
  splits; auto.
  congruence.
Qed.

End Turn.

Lemma leaf_keeps_sorting : keeps_sorting Sample.leaf.
Proof. intros cmp a b w. eexists _, w. split; reflexivity. Qed.

Lemma posix_collation_works icase start t :
  collation_works (Sample.posix icase start t).
Proof. intros a b. unfold collate. simpl. destruct icase; reflexivity. Qed.

Lemma merge_delivers_each_name_once_witness :
  exists fr w',
    merge_loop (Sample.posix true None []) 3 Sample.leaf Sample.top
      (mkframe (table ["A"; "a"]%string) (table ["a"%string]) 0 [] [])
      Sample.w_after_diff
    = (Ret tt, fr, w')
    /\ names0 fr = [None] /\ names1 fr = [None]
    /\ Permutation (lefts (delivered fr)) ["A"; "a"]%string
    /\ Permutation (rights (delivered fr)) ["a"%string]
    /\ run_permuted (comparator_equal (Sample.posix true None []))
         ["A"; "a"]%string (lefts (delivered fr))
    /\ run_permuted (comparator_equal (Sample.posix true None []))
         ["a"%string] (rights (delivered fr))
    /\ (ignore_file_name_case (Sample.posix true None []) = false ->
        lefts (delivered fr) = ["A"; "a"]%string
        /\ rights (delivered fr) = ["a"%string])
    /\ Forall (fun p => p <> (None, None)) (delivered fr)
    /\ List.length (returned fr) = List.length (delivered fr)
    /\ (List.length (delivered fr) <= 2 + 1)%nat
    /\ handler_calls (Sample.posix true None []) Sample.leaf Sample.top
         Sample.w_after_diff (delivered fr) (returned fr) w'.
Proof.
  apply (merge_delivers_each_name_once (Sample.posix true None [])
           Sample.leaf Sample.top ["A"; "a"]%string ["a"%string] 0
           Sample.w_after_diff 3).
  - apply keeps_sorting_total. exact leaf_keeps_sorting.
  - left. apply posix_collation_works.
  - repeat constructor; discriminate.
  - repeat constructor; discriminate.
  - simpl. lia.
Defined.

Lemma merge_of_disjoint_tables_witness :
  exists fr w',
    merge_loop (Sample.posix false None []) 4 Sample.leaf Sample.top
      (mkframe (table ["a"; "c"]%string) (table ["b"; "d"]%string) 0 [] [])
      Sample.w_after_diff
    = (Ret tt, fr, w')
    /\ List.length (delivered fr) = (2 + 2)%nat
    /\ List.length (returned fr) = (2 + 2)%nat
    /\ Forall (fun p => lone_name p <> None) (delivered fr)
    /\ Sorted (name_le (Sample.posix false None []) true)
              (lone_names (delivered fr))
    /\ Permutation (lone_names (delivered fr)) (["a"; "c"]%string ++ ["b"; "d"]%string)
    /\ lefts (delivered fr) = ["a"; "c"]%string
    /\ rights (delivered fr) = ["b"; "d"]%string
    /\ handler_calls (Sample.posix false None []) Sample.leaf Sample.top
         Sample.w_after_diff (delivered fr) (returned fr) w'.
Proof.
  apply (merge_of_disjoint_tables (Sample.posix false None [])
           Sample.leaf Sample.top ["a"; "c"]%string ["b"; "d"]%string 0
           Sample.w_after_diff 4).
  - exact leaf_keeps_sorting.
  - left. apply posix_collation_works.
  - simpl. lia.
  - repeat constructor; discriminate.
  - repeat constructor; discriminate.
  - intros a b [<- | [<- | []]] [<- | [<- | []]]; vm_compute; discriminate.
  - intros a b [<- | [<- | []]] [<- | [<- | []]]; vm_compute; intros H;
      discriminate.
Defined.

(** ** Single-Name Finder *)

Section Finder.

Variable E : env.

Lemma find_match_table file_ run :
  forall m,
  find_match file_ (table run) m
  = Ret (match find (fun q => file_name_cmp q file_ =? 0) run with
         | Some q => q
         | None => match m with Some x => x | None => hd file_ run end
         end).
Proof.
  induction run as [| q run IH]; intros m; simpl.
  - destruct m; reflexivity.
  - destruct (file_name_cmp q file_ =? 0); [reflexivity |].
    unfold table in IH. rewrite IH.
    destruct (find (fun q0 => file_name_cmp q0 file_ =? 0) run); [reflexivity |].
    destruct m; reflexivity.
Qed.

Lemma filter_keeps {A} (p : A -> bool) l :
  Forall (fun x => p x = true) l -> filter p l = l.
Proof.
  induction 1 as [| x l Hx _ IH]; simpl; [reflexivity |].
  rewrite Hx, IH. reflexivity.
Qed.

Lemma heap_free b w :
  heap (free (Some b) w) = filter (fun x => negb (Nat.eqb x b)) (heap w).
Proof. reflexivity. Qed.

Lemma heap_release d w :
  heap (release d w)
  = filter (fun x => negb (existsb (Nat.eqb x) (dirdata_blocks d))) (heap w).
Proof.
  unfold release, dirdata_blocks.
  destruct (names_block d) as [nb |], (data d) as [blk |]; simpl.
  - induction (heap w) as [| x l IH]; simpl; [reflexivity |].
    destruct (Nat.eqb x nb); simpl; [exact IH |].
    destruct (Nat.eqb x blk); simpl; [exact IH | rewrite IH; reflexivity].
  - induction (heap w) as [| x l IH]; simpl; [reflexivity |].
    destruct (Nat.eqb x nb); simpl; [exact IH | rewrite IH; reflexivity].
  - induction (heap w) as [| x l IH]; simpl; [reflexivity |].
    destruct (Nat.eqb x blk); simpl; [exact IH | rewrite IH; reflexivity].
  - symmetry. apply filter_keeps. apply Forall_forall. reflexivity.
Qed.

Lemma filter_drops {A} (p : A -> bool) l :
  Forall (fun x => p x = false) l -> filter p l = [].
Proof.
  induction 1 as [| x l Hx _ IH]; simpl; [reflexivity |].
  rewrite Hx, IH. reflexivity.
Qed.

Lemma existsb_eqb_in x l : In x l -> existsb (Nat.eqb x) l = true.
Proof.
  intros H. apply existsb_exists. exists x. split; [exact H | apply Nat.eqb_refl].
Qed.

Lemma existsb_eqb_out x l :
  (forall y, In y l -> x <> y) -> existsb (Nat.eqb x) l = false.
Proof.
  intros H. destruct (existsb (Nat.eqb x) l) eqn:Hex; [| reflexivity].
  apply existsb_exists in Hex. destruct Hex as (y & Hy & Heq).
  apply Nat.eqb_eq in Heq. exfalso. exact (H y Hy Heq).
Qed.

Lemma table_names l :
  flat_map (fun c : option string => match c with
                                     | Some q => [q]
                                     | None => []
                                     end) (table l) = l.
Proof.
  unfold table. rewrite flat_map_app. simpl. rewrite app_nil_r.
  induction l as [| x l IH]; simpl; [| rewrite IH]; reflexivity.
Qed.

(** Releasing the table right after the allocation of the result leaves
    the result block on top of the heap as it was before the read. *)
Lemma release_after_read d w w1 :
  heap_ok w ->
  heap w1 = dirdata_blocks d ++ heap w ->
  Forall (fun b => (next_block w <= b < next_block w1)%nat) (dirdata_blocks d) ->
  heap (release d (snd (alloc w1))) = next_block w1 :: heap w.
Proof.
  intros Hok Hheap Hblocks.
  rewrite heap_release. unfold alloc. simpl. rewrite Hheap.
  rewrite Forall_forall in Hblocks.
  rewrite existsb_eqb_out by (intros y Hy; specialize (Hblocks y Hy); lia).
  simpl. f_equal. rewrite filter_app.
  rewrite filter_drops, filter_keeps; [reflexivity | |].
  - unfold heap_ok in Hok. rewrite Forall_forall in Hok |- *.
    intros x Hx. rewrite existsb_eqb_out; [reflexivity |].
    intros y Hy. specialize (Hblocks y Hy). specialize (Hok x Hx). lia.
  - apply Forall_forall. intros x Hx.
    rewrite existsb_eqb_in by exact Hx. reflexivity.
Qed.

(** The finder, with the comparator as [locale_specific_sorting] sets it
    at the call.  Without case-folding the finder joins the directory name
    with the target verbatim and logs nothing: it does not touch the file
    system.  With case-folding (and a comparator that cannot fail), reading
    a readable directory with the target as cursor in only-mode leaves the
    run of entries that compare equal to the target; the finder joins the
    directory name with the entry of the run that is a byte-wise match, if
    there is one, and with the first entry of the run otherwise (with the
    target itself when the run is empty).  In all these cases the blocks of
    the table are freed before the return: the heap is the old heap plus
    the block of the result. *)
Theorem find_dir_file_pathname_spec (dir : file_data) (file_ : string)
    (w : world) :
  heap_ok w ->
  (ignore_file_name_case E = false ->
   find_dir_file_pathname E dir file_ w
   = (Ret (file_name_concat E (name dir) file_, next_block w, dir),
      snd (alloc w))
   /\ events (snd (alloc w)) = events w
   /\ heap (snd (alloc w)) = next_block w :: heap w)
  /\ (ignore_file_name_case E = true ->
      comparisons_safe E w ->
      (exists path blk dir' w',
         find_dir_file_pathname E dir file_ w = (Ret (path, blk, dir'), w')
         /\ heap w' = blk :: heap w)
      /\ (forall fd stream e,
            desc dir <> NONEXISTENT E ->
            opens_as E (AT_FDCWD E) dir fd ->
            os_fdopendir E fd = (Some stream, e) ->
            dir_errno stream = 0 ->
            exists blk dir' w',
              find_dir_file_pathname E dir file_ w
              = (Ret (file_name_concat E (name dir)
                        (best_match file_
                           (filter (kept E (locale_specific_sorting w)
                                      (Some file_) true)
                                   (dir_entries stream))),
                      blk, dir'), w')
              /\ heap w' = blk :: heap w)).
Proof.
  intros Hok. split.
  - intros Hi. unfold find_dir_file_pathname. rewrite Hi.
    unfold alloc, empty_dirdata. simpl. splits; reflexivity.
  - intros Hi Hsafe.
    assert (Hgen :
      exists ok dir' d w1,
        dir_read E (AT_FDCWD E) dir (Some file_) true w = (Ret (ok, dir', d), w1)
        /\ heap w1 = dirdata_blocks d ++ heap w
        /\ Forall (fun b => (next_block w <= b < next_block w1)%nat)
                  (dirdata_blocks d)
        /\ (ok = true -> exists l, cells_of d = table l)).
    { destruct (dir_read_returns E (AT_FDCWD E) dir (Some file_) true w
                  (or_intror Hsafe))
        as (ok & dir' & d & w1 & evs & Hrun & _ & _ & _ & _ & _ & _ & _
            & Hh & _ & Ht & _).
      destruct (Hh Hok) as [H1 H2].
      exists ok, dir', d, w1. splits; auto.
      intros Hokt. destruct (Ht Hokt) as (l & Hl & _). exists l. exact Hl. }
    destruct Hgen as (ok & dir' & d & w1 & Hrun & Hheap & Hblocks & Htab).
    assert (Hall :
      find_dir_file_pathname E dir file_ w
      = (Ret (file_name_concat E (name dir)
                (if ok then best_match file_
                              (flat_map (fun c => match c with
                                                  | Some q => [q]
                                                  | None => []
                                                  end) (cells_of d))
                 else file_),
              next_block w1, dir'),
         release d (snd (alloc w1)))).
    { unfold find_dir_file_pathname. rewrite Hi. unfold bind. rewrite Hrun.
      destruct ok.
      - destruct (Htab eq_refl) as (l & Hl). rewrite Hl.
        rewrite find_match_table, table_names.
        unfold best_match, release, alloc. reflexivity.
      - unfold release, alloc. reflexivity. }
    split.
    + eexists _, _, _, _. split; [exact Hall |].
      apply release_after_read; assumption.
    + intros fd stream e Hne Hopen Hdir Herr.
      destruct (dir_read_names E (AT_FDCWD E) dir fd (Some file_) true stream e w
                  (or_intror Hsafe) Hne Hopen Hdir)
        as (dir2 & d2 & w2 & Hrun2 & Hn).
      rewrite Hrun in Hrun2. rewrite Herr in Hrun2. simpl in Hrun2.
      injection Hrun2 as -> -> -> ->.
      destruct (Hn Herr) as [Hc _].
      rewrite Hc, table_names in Hall.
      eexists _, _, _. split; [exact Hall |].
      apply release_after_read; assumption.
Qed.

End Finder.

Lemma find_dir_file_pathname_spec_witness :
  (exists blk dir' w',
     find_dir_file_pathname (Sample.posix true None Sample.fs_readme)
       (Sample.unopened "L" 10) "readme" Sample.w_after_diff
     = (Ret ("L/README"%string, blk, dir'), w')
     /\ heap w' = blk :: heap Sample.w_after_diff)
  /\ (exists blk dir' w',
        find_dir_file_pathname (Sample.posix true None Sample.fs_readme)
          (Sample.unopened "L" 10) "Readme" Sample.w_after_diff
        = (Ret ("L/Readme"%string, blk, dir'), w')
        /\ heap w' = blk :: heap Sample.w_after_diff)
  /\ find_dir_file_pathname (Sample.posix false None Sample.fs_readme)
       (Sample.unopened "L" 10) "readme" Sample.w0
     = (Ret ("L/readme"%string, 0%nat, Sample.unopened "L" 10),
        snd (alloc Sample.w0)).
Proof.
  assert (Hok : heap_ok Sample.w_after_diff) by constructor.
  assert (Hsafe : comparisons_safe (Sample.posix true None Sample.fs_readme)
                    Sample.w_after_diff)
    by (left; apply posix_collation_works).
  assert (Hopen : opens_as (Sample.posix true None Sample.fs_readme) (-100)
                    (Sample.unopened "L" 10) 3).
  { right. splits; [reflexivity | discriminate | reflexivity]. }
  splits.
  - destruct (find_dir_file_pathname_spec (Sample.posix true None Sample.fs_readme)
                (Sample.unopened "L" 10) "readme" Sample.w_after_diff Hok)
      as [_ H].
    destruct (H eq_refl Hsafe) as [_ H'].
    apply (H' 3 (mkDIR ["."; ".."; "README"; "Readme"; "other"]%string 0) 0);
      [discriminate | exact Hopen | reflexivity | reflexivity].
  - destruct (find_dir_file_pathname_spec (Sample.posix true None Sample.fs_readme)
                (Sample.unopened "L" 10) "Readme" Sample.w_after_diff Hok)
      as [_ H].
    destruct (H eq_refl Hsafe) as [_ H'].
    apply (H' 3 (mkDIR ["."; ".."; "README"; "Readme"; "other"]%string 0) 0);
      [discriminate | exact Hopen | reflexivity | reflexivity].
  - destruct (find_dir_file_pathname_spec (Sample.posix false None Sample.fs_readme)
                (Sample.unopened "L" 10) "readme" Sample.w0)
      as [H _]; [constructor |].
    apply (H eq_refl).
Defined.

(** ** The discipline of the comparator *)

Section Class.

Variable P : event -> bool.

Lemma disciplined_refl w : disciplined_in P w false w.
Proof.
  unfold disciplined_in. splits; auto.
  exists []. rewrite app_nil_r. splits; auto.
Qed.

Lemma disciplined_trans w w1 w2 j :
  disciplined_in P w false w1 -> disciplined_in P w1 j w2 ->
  disciplined_in P w j w2.
Proof.
  intros (A1 & A2 & e1 & A3 & A4 & A5) (B1 & B2 & e2 & B3 & B4).
  unfold disciplined_in. splits; try congruence.
  exists (e1 ++ e2). split; [rewrite B3, A3, app_assoc; reflexivity |].
  destruct j.
  - destruct B4 as (B4 & pre & e & a & b & B5 & B6).
    split; [congruence |].
    exists (e1 ++ pre), e, a, b.
    rewrite B5, app_assoc, forallb_app, A4, B6. split; reflexivity.
  - destruct B4 as (B4 & B5).
    rewrite forallb_app, A4, B4. split; [reflexivity |].
    intros Hoff. rewrite forallb_app, (A5 Hoff), B5; [reflexivity | congruence].
Qed.

Lemma obeys_ret {A} (a : A) : obeys_in P (ret a).
Proof. intros w. apply disciplined_refl. Qed.

Lemma obeys_bind {A B} (m : M A) (k : A -> M B) :
  obeys_in P m -> (forall a, obeys_in P (k a)) -> obeys_in P (bind m k).
Proof.
  intros Hm Hk w. specialize (Hm w). unfold bind.
  destruct (m w) as [[a | | |] w1]; simpl in *; try exact Hm.
  eapply disciplined_trans; [exact Hm | apply Hk].
Qed.

Lemma obeys_undefined {A} : obeys_in P (fun w => (@Undefined A, w)).
Proof. intros w. apply disciplined_refl. Qed.

Lemma obeys_if {A} (b : bool) (m1 m2 : M A) :
  obeys_in P m1 -> obeys_in P m2 -> obeys_in P (if b then m1 else m2).
Proof. destruct b; auto. Qed.

Lemma obeys_silent {A} (m : M A) :
  (forall w, locale_specific_sorting (snd (m w)) = locale_specific_sorting w
             /\ failed_locale_specific_sorting (snd (m w))
                = failed_locale_specific_sorting w
             /\ events (snd (m w)) = events w
             /\ is_jump (fst (m w)) = false) ->
  obeys_in P m.
Proof.
  intros H w. destruct (H w) as (H1 & H2 & H3 & H4). rewrite H4.
  unfold disciplined_in. splits; auto.
  exists []. rewrite app_nil_r. splits; auto.
Qed.

(** One event of the class that is not a collation call. *)
Lemma disciplined_emit e w w' :
  P e = true -> is_collation e = false ->
  locale_specific_sorting w' = locale_specific_sorting w ->
  failed_locale_specific_sorting w' = failed_locale_specific_sorting w ->
  events w' = events w ++ [e] ->
  disciplined_in P w false w'.
Proof.
  intros HP Hc H1 H2 H3. unfold disciplined_in. splits; auto.
  exists [e]. unfold calm_in. simpl. rewrite HP, Hc. splits; auto.
Qed.

Variable E : env.

Hypothesis HPc : forall f a b, P (Ev_collate f a b) = true.

Lemma obeys_compare_names_in name1 name2 :
  obeys_in P (compare_names E name1 name2).
Proof.
  intros w. unfold compare_names.
  destruct (locale_specific_sorting w) eqn:Hs; [| apply disciplined_refl].
  unfold bind, compare_collated.
  destruct (if ignore_file_name_case E then strcasecoll E name1 name2
            else strcoll E name1 name2) as [r e].
  destruct (e =? 0).
  - destruct (negb (r =? 0) || ignore_file_name_case E); simpl;
      (unfold disciplined_in; simpl; splits; auto;
       eexists; split; [reflexivity |]; simpl; rewrite HPc;
       split; [reflexivity | congruence]).
  - simpl. unfold disciplined_in; simpl. splits; auto.
    eexists. split; [rewrite <- app_assoc; reflexivity |].
    split; [exact Hs |].
    eexists [_], e, name1, name2. simpl. rewrite HPc. split; reflexivity.
Qed.

Lemma obeys_compare_names_for_qsort_in c1 c2 :
  obeys_in P (compare_names_for_qsort E c1 c2).
Proof.
  destruct c1 as [name1 |], c2 as [name2 |]; try apply obeys_undefined.
  intros w. unfold compare_names_for_qsort.
  destruct (locale_specific_sorting w) eqn:Hs; [| apply disciplined_refl].
  unfold bind, compare_collated.
  destruct (if ignore_file_name_case E then strcasecoll E name1 name2
            else strcoll E name1 name2) as [r e].
  destruct (e =? 0).
  - destruct (negb (r =? 0)); simpl;
      (unfold disciplined_in; simpl; splits; auto;
       eexists; split; [reflexivity |]; simpl; rewrite HPc;
       split; [reflexivity | congruence]).
  - simpl. unfold disciplined_in; simpl. splits; auto.
    eexists. split; [rewrite <- app_assoc; reflexivity |].
    split; [exact Hs |].
    eexists [_], e, name1, name2. simpl. rewrite HPc. split; reflexivity.
Qed.

Lemma obeys_qsort_insert_in x l : obeys_in P (qsort_insert E x l).
Proof.
  induction l as [| y l IH]; simpl; [apply obeys_ret |].
  apply obeys_bind; [apply obeys_compare_names_for_qsort_in |].
  intros c. apply obeys_if; [apply obeys_ret |].
  apply obeys_bind; [exact IH | intros; apply obeys_ret].
Qed.

Lemma obeys_qsort_cells_in l : obeys_in P (qsort_cells E l).
Proof.
  induction l as [| x l IH]; simpl; [apply obeys_ret |].
  apply obeys_bind; [exact IH | intros; apply obeys_qsort_insert_in].
Qed.

Lemma obeys_qsort_in cells n : obeys_in P (qsort E cells n).
Proof.
  unfold qsort. apply obeys_if; [| apply obeys_undefined].
  apply obeys_bind; [apply obeys_qsort_cells_in | intros; apply obeys_ret].
Qed.

Lemma obeys_scan_lesser_in g p : forall k, obeys_in P (scan_lesser E g k p).
Proof.
  induction p as [| [q |] rest IH]; intros k; simpl.
  - apply obeys_undefined.
  - apply obeys_bind; [apply obeys_compare_names_in |].
    intros e. apply obeys_if; [| apply obeys_ret].
    apply obeys_if; [apply obeys_ret | apply IH].
  - apply obeys_ret.
Qed.

Lemma obeys_prefer_exact_in nameorder n0 n1 :
  obeys_in P (prefer_exact E nameorder n0 n1).
Proof.
  unfold prefer_exact. apply obeys_if; [| apply obeys_ret].
  destruct n0 as [| [a |] ?]; try apply obeys_undefined.
  destruct n1 as [| [b |] ?]; try apply obeys_undefined.
  apply obeys_if; [| apply obeys_ret].
  apply obeys_if.
  - apply obeys_bind; [apply obeys_scan_lesser_in |].
    intros [k |]; apply obeys_ret.
  - apply obeys_bind; [apply obeys_scan_lesser_in |].
    intros [k |]; apply obeys_ret.
Qed.

Lemma obeys_name_order_in c0 c1 : obeys_in P (name_order E c0 c1).
Proof.
  destruct c0 as [a |], c1 as [b |]; simpl; try apply obeys_ret.
  apply obeys_compare_names_in.
Qed.

Hypothesis HPs : forall c, P (Ev_sys c) = true.

Lemma obeys_readdir_in fd : obeys_in P (readdir fd).
Proof.
  intros w. unfold readdir. simpl.
  eapply disciplined_emit; [apply HPs | | | |]; reflexivity.
Qed.

Lemma obeys_read_entry_in startfile startfile_only d_name r :
  obeys_in P (read_entry E startfile startfile_only d_name r).
Proof.
  unfold read_entry. apply obeys_if; [apply obeys_ret |].
  apply obeys_bind.
  { destruct startfile as [sf |]; [| apply obeys_ret].
    apply obeys_bind; [apply obeys_compare_names_in | intros; apply obeys_ret]. }
  intros skip. apply obeys_if; [apply obeys_ret |].
  apply obeys_if; [apply obeys_ret |].
  apply obeys_bind; [| intros; apply obeys_ret].
  apply obeys_if; [| apply obeys_ret].
  apply obeys_bind; [| intros; apply obeys_ret].
  apply obeys_silent. intros w. unfold xpalloc. simpl. auto.
Qed.

Lemma obeys_read_entries_in fd startfile startfile_only entries final_errno :
  forall r,
  obeys_in P (read_entries E fd startfile startfile_only entries final_errno r).
Proof.
  induction entries as [| d_name rest IH]; intros r; simpl.
  - apply obeys_bind; [apply obeys_readdir_in |].
    intros _. apply obeys_silent. intros w. simpl. auto.
  - apply obeys_bind; [apply obeys_readdir_in |].
    intros _. apply obeys_bind; [apply obeys_read_entry_in | apply IH].
Qed.

Lemma obeys_build_names_in dir' blk l : obeys_in P (build_names dir' blk l).
Proof. apply obeys_silent. intros w. unfold build_names. simpl. auto. Qed.

Lemma obeys_enumerate_in dirfd dir1 startfile startfile_only :
  obeys_in P (enumerate E dirfd dir1 startfile startfile_only).
Proof.
  intros w. unfold enumerate.
  destruct (os_fdopendir E dirfd) as [[stream |] e].
  - set (w1 := emit (Ev_sys (Sys_fdopendir dirfd)) w).
    destruct (alloc w1) as [blk w2] eqn:Ha.
    assert (H1 : disciplined_in P w false w2).
    { unfold alloc in Ha. injection Ha as <- <-.
      eapply disciplined_emit; [apply HPs | | | |]; reflexivity. }
    eapply disciplined_trans; [exact H1 |].
    refine (obeys_bind _ _ _ _ w2).
    + apply obeys_read_entries_in.
    + intros r w3.
      destruct (negb (errno w3 =? 0)); [apply disciplined_refl |].
      apply obeys_build_names_in.
  - simpl. eapply disciplined_emit; [apply HPs | | | |]; reflexivity.
Qed.

Lemma obeys_open_directory_in parentdirfd dir :
  obeys_in P (open_directory E parentdirfd dir).
Proof.
  unfold open_directory. apply obeys_if; [| apply obeys_ret].
  intros w.
  destruct (os_openat E parentdirfd
              (if parentdirfd <? 0 then name dir else last_component E (name dir))
              (Z.lor (O_dir_flags E)
                 (if no_dereference_symlinks E then O_NOFOLLOW E else 0)))
    as [fd e].
  destruct (fd <? 0); simpl;
    (eapply disciplined_emit; [apply HPs | | | |]; reflexivity).
Qed.

Lemma obeys_dir_read_in parentdirfd dir startfile startfile_only :
  obeys_in P (dir_read E parentdirfd dir startfile startfile_only).
Proof.
  unfold dir_read. apply obeys_if; [apply obeys_build_names_in |].
  apply obeys_bind; [apply obeys_open_directory_in |].
  intros [[dirfd dir1] |]; [apply obeys_enumerate_in | apply obeys_ret].
Qed.

End Class.

Arguments disciplined_refl {P} w.
Arguments disciplined_trans {P} w w1 w2 j _ _.
Arguments obeys_ret {P A} a.
Arguments obeys_bind {P A B} m k _ _.
Arguments obeys_undefined {P A}.
Arguments obeys_if {P A} b m1 m2 _ _.

Section Discipline.

Variable E : env.

Lemma obeys_qsort cells n : obeys (qsort E cells n).
Proof. apply obeys_qsort_in. reflexivity. Qed.

Lemma obeys_prefer_exact nameorder n0 n1 :
  obeys (prefer_exact E nameorder n0 n1).
Proof. apply obeys_prefer_exact_in. reflexivity. Qed.

Lemma obeys_name_order c0 c1 : obeys (name_order E c0 c1).
Proof. apply obeys_name_order_in. reflexivity. Qed.

Lemma obeys_dir_read parentdirfd dir startfile startfile_only :
  obeys (dir_read E parentdirfd dir startfile startfile_only).
Proof. apply obeys_dir_read_in; reflexivity. Qed.


End Discipline.

(** ** What the log can hold *)

Lemma step_event_kinds e :
  is_step_event e = true ->
  is_failure_report e = false /\ is_perror e = false
  /\ is_loop_report e = false.
Proof. destruct e as [| | | []]; simpl; auto; discriminate. Qed.

Lemma calm_event_kinds e :
  is_calm_event e = true ->
  is_step_event e = true /\ is_collation e = false.
Proof.
  unfold calm_in. intros H. apply andb_prop in H.
  destruct H as [H1 H2]. split; [exact H1 |].
  destruct (is_collation e); [discriminate | reflexivity].
Qed.

Lemma forallb_count_zero p q (l : list event) :
  (forall e, p e = true -> q e = false) ->
  forallb p l = true -> count q l = 0%nat.
Proof.
  intros Hpq. induction l as [| e l IH]; simpl; [reflexivity |].
  intros H. apply andb_prop in H. destruct H as [He H].
  unfold count in *. simpl. rewrite (Hpq e He). apply IH. exact H.
Qed.

Lemma forallb_weaken p q (l : list event) :
  (forall e, p e = true -> q e = true) ->
  forallb p l = true -> forallb q l = true.
Proof.
  intros Hpq. induction l as [| e l IH]; simpl; [reflexivity |].
  intros H. apply andb_prop in H. destruct H as [He H].
  rewrite (Hpq e He), (IH H). reflexivity.
Qed.

Lemma extends_refl Q w : extends Q w w.
Proof. exists []. rewrite app_nil_r. split; reflexivity. Qed.

Lemma extends_trans Q w w1 w2 :
  extends Q w w1 -> extends Q w1 w2 -> extends Q w w2.
Proof.
  intros (e1 & A1 & A2) (e2 & B1 & B2). exists (e1 ++ e2).
  rewrite B1, A1, app_assoc, forallb_app, A2, B2. split; reflexivity.
Qed.

Lemma disciplined_extends Q w j w' :
  accepts_own_events Q -> disciplined w j w' -> extends Q w w'.
Proof.
  intros HQ (_ & _ & evs & H1 & H2). exists evs. split; [exact H1 |].
  destruct j.
  - destruct H2 as (_ & pre & e & a & b & -> & H3).
    rewrite forallb_app. simpl.
    rewrite (forallb_weaken is_step_event Q pre);
      [| intros; apply HQ; auto | exact H3].
    rewrite HQ by (right; left; reflexivity). reflexivity.
  - destruct H2 as [H2 _].
    apply (forallb_weaken is_step_event Q); [intros; apply HQ; auto | exact H2].
Qed.

(** ** The merge with a handler that stays out of the comparator *)

Section Quiet.

Variable E : env.

Lemma obeys_compare_heads fr : obeys (compare_heads E fr).
Proof.
  unfold compare_heads.
  apply obeys_bind; [apply obeys_name_order |].
  intros c. apply obeys_bind; [apply obeys_prefer_exact |].
  intros nn. apply obeys_ret.
Qed.

Lemma syscalls_are_steps evs :
  forallb is_syscall evs = true ->
  forallb is_step_event evs = true /\ forallb is_calm_event evs = true
  /\ count is_delivery evs = 0%nat.
Proof.
  induction evs as [| e evs IH]; simpl; [auto |].
  intros H. apply andb_prop in H. destruct H as [He H].
  destruct (IH H) as (I1 & I2 & I3).
  unfold calm_in, is_step_event, count in *. simpl.
  rewrite He, I1, I2. simpl. destruct e; try discriminate. simpl. auto.
Qed.

Lemma count_app p l1 l2 : count p (l1 ++ l2) = (count p l1 + count p l2)%nat.
Proof. unfold count. rewrite filter_app, length_app. reflexivity. Qed.

(** The loop under a quiet handler: it keeps the discipline, and a jump
    that comes before any delivery leaves the frame as it was. *)
Lemma merge_loop_quiet h cmp :
  quiet h ->
  forall fuel fr w,
  exists o fr' w' evs,
    merge_loop E fuel h cmp fr w = (o, fr', w')
    /\ locale_specific_sorting w' = locale_specific_sorting w
    /\ failed_locale_specific_sorting w' = failed_locale_specific_sorting w
    /\ events w' = events w ++ evs
    /\ if is_jump o
       then locale_specific_sorting w = true
            /\ exists pre e a b,
                 evs = pre ++ [Ev_diag (Cannot_compare e a b)]
                 /\ forallb is_step_event pre = true
                 /\ (count is_delivery pre = 0%nat -> fr' = fr)
       else forallb is_step_event evs = true
            /\ (locale_specific_sorting w = false ->
                forallb is_calm_event evs = true).
Proof.
  intros Hq.
  assert (Hstay : forall (o : outcome unit) (fr : frame) (w : world),
            is_jump o = false ->
            exists o' fr' w' evs,
              (o, fr, w) = (o', fr', w')
              /\ locale_specific_sorting w' = locale_specific_sorting w
              /\ failed_locale_specific_sorting w' = failed_locale_specific_sorting w
              /\ events w' = events w ++ evs
              /\ if is_jump o'
                 then locale_specific_sorting w = true
                      /\ exists pre e a b,
                           evs = pre ++ [Ev_diag (Cannot_compare e a b)]
                           /\ forallb is_step_event pre = true
                           /\ (count is_delivery pre = 0%nat -> fr' = fr)
                 else forallb is_step_event evs = true
                      /\ (locale_specific_sorting w = false ->
                          forallb is_calm_event evs = true)).
  { intros o fr w Ho. exists o, fr, w, []. rewrite Ho, app_nil_r.
    splits; auto. }
  induction fuel as [| f IH]; intros fr w; cbn [merge_loop].
  - destruct (at_end fr) as [[|] |]; apply Hstay; reflexivity.
  - destruct (at_end fr) as [[|] |]; try (apply Hstay; reflexivity).
    pose proof (obeys_compare_heads fr w) as Hc.
    destruct (compare_heads E fr w) as [[[nameorder [n0 n1]] | | |] w1];
      simpl in Hc; destruct Hc as (C1 & C2 & evc & C3 & C4).
    + (* the comparisons returned: the handler is called *)
      destruct (handed fr nameorder n0 n1) as [args fr1].
      destruct (Hq cmp (fst args) (snd args)
                  (emit (Ev_handle (fst args) (snd args)) w1))
        as (v1 & evh & w2 & Hh & H1 & H2 & H3 & H4).
      rewrite Hh. simpl in H1, H2, H3.
      destruct (syscalls_are_steps evh H4) as (S1 & S2 & S3).
      destruct C4 as [C4 C5].
      destruct (IH (with_value fr1 v1) w2)
        as (o & fr' & w' & evs & Hrun & I1 & I2 & I3 & I4).
      exists o, fr', w', (evc ++ Ev_handle (fst args) (snd args) :: evh ++ evs).
      split; [exact Hrun |].
      split; [congruence |]. split; [congruence |].
      split.
      { rewrite I3, H3, C3, <- !app_assoc. reflexivity. }
      destruct (is_jump o).
      * destruct I4 as (I4 & pre & e & a & b & I5 & I6 & _).
        split; [congruence |].
        exists (evc ++ Ev_handle (fst args) (snd args) :: evh ++ pre), e, a, b.
        splits.
        -- rewrite I5, <- !app_assoc. simpl. rewrite <- app_assoc. reflexivity.
        -- rewrite forallb_app, C4. simpl. rewrite forallb_app, S1, I6.
           reflexivity.
        -- rewrite count_app. unfold count at 2. simpl. lia.
      * destruct I4 as [I4 I5]. split.
        -- rewrite forallb_app, C4. simpl. rewrite forallb_app, S1, I4.
           reflexivity.
        -- intros Hoff. rewrite forallb_app, (C5 Hoff). simpl.
           rewrite forallb_app, S2, I5; [reflexivity | congruence].
    + (* a comparison failed *)
      destruct C4 as (C4 & pre & e & a & b & C5 & C6).
      exists Longjmp, fr, w1, evc. simpl. splits; auto.
      exists pre, e, a, b. splits; auto.
    + exists Undefined, fr, w1, evc. simpl. splits; auto; apply C4.
    + exists Fuel, fr, w1, evc. simpl. splits; auto; apply C4.
Qed.

(** [qsort] on a whole table: what comes back is a table of as many
    names. *)
Lemma qsort_insert_shape x l :
  forall w s w',
  qsort_insert E (Some x) (map Some l) w = (Ret s, w') ->
  exists l', s = map Some l' /\ List.length l' = S (List.length l)
             /\ Permutation l' (x :: l).
Proof.
  induction l as [| y l IH]; intros w s w'; simpl.
  - intros [= <- <-]. exists [x]. splits; auto.
  - intros H. apply bind_inv in H. destruct H as (c & w1 & _ & H).
    destruct (c <=? 0).
    + injection H as <- <-. exists (x :: y :: l). splits; auto.
    + apply bind_inv in H. destruct H as (r & w2 & Hr & H).
      injection H as <- <-.
      destruct (IH _ _ _ Hr) as (l' & -> & Hlen & Hp).
      exists (y :: l'). splits; simpl; auto.
      eapply perm_trans; [apply perm_skip; exact Hp | apply perm_swap].
Qed.

Lemma qsort_cells_shape l :
  forall w s w',
  qsort_cells E (map Some l) w = (Ret s, w') ->
  exists l', s = map Some l' /\ List.length l' = List.length l
             /\ Permutation l' l.
Proof.
  induction l as [| x l IH]; intros w s w'; simpl.
  - intros [= <- <-]. exists []. splits; auto.
  - intros H. apply bind_inv in H. destruct H as (s1 & w1 & Hs1 & H).
    destruct (IH _ _ _ Hs1) as (l1 & -> & Hlen & Hp).
    destruct (qsort_insert_shape x l1 _ _ _ H) as (l' & -> & Hlen' & Hp').
    exists l'. splits; auto; try lia.
    eapply perm_trans; [exact Hp' | apply perm_skip; exact Hp].
Qed.

Lemma table_split l :
  firstn (List.length l) (table l) = map Some l
  /\ skipn (List.length l) (table l) = [None]
  /\ (List.length l <=? List.length (table l))%nat = true.
Proof.
  unfold table. splits.
  - rewrite firstn_app, length_map, Nat.sub_diag. simpl.
    rewrite app_nil_r. rewrite <- (length_map Some l) at 1. apply firstn_all.
  - rewrite skipn_app, length_map, Nat.sub_diag. simpl.
    rewrite <- (length_map Some l) at 1. rewrite skipn_all. reflexivity.
  - apply Nat.leb_le. rewrite length_app, length_map. lia.
Qed.

Lemma qsort_shape l w s w' :
  qsort E (table l) (List.length l) w = (Ret s, w') ->
  exists l', s = table l' /\ List.length l' = List.length l
             /\ Permutation l' l.
Proof.
  unfold qsort. destruct (table_split l) as (T1 & T2 & T3).
  rewrite T1, T2, T3.
  intros H. apply bind_inv in H. destruct H as (s1 & w1 & Hs1 & H).
  injection H as <- <-.
  destruct (qsort_cells_shape l _ _ _ Hs1) as (l' & -> & Hlen & Hp).
  exists l'. splits; auto.
Qed.

(** When no comparison can fail, [qsort] returns. *)
Lemma qsort_insert_safe x l :
  forall w, comparisons_safe E w ->
  exists s w', qsort_insert E (Some x) (map Some l) w = (Ret s, w')
               /\ comparisons_safe E w'.
Proof.
  induction l as [| y l IH]; intros w Hsafe; cbn [qsort_insert map].
  - eexists _, w. split; [reflexivity | exact Hsafe].
  - unfold bind.
    assert (Hc : exists c w1,
               compare_names_for_qsort E (Some x) (Some y) w = (Ret c, w1)
               /\ comparisons_safe E w1).
    { unfold compare_names_for_qsort.
      destruct (locale_specific_sorting w) eqn:Hs.
      - unfold bind.
        destruct (safe_collation E x y w Hsafe) as [Hoff | Herr]; [congruence |].
        rewrite (compare_collated_ok E x y w Herr).
        destruct Hsafe as [Hw | Hoff]; [| congruence].
        destruct (negb (fst (collate E x y) =? 0));
          eexists _, _; (split; [reflexivity | left; exact Hw]).
      - eexists _, w. split; [reflexivity | exact Hsafe]. }
    destruct Hc as (c & w1 & Hc & Hsafe1). rewrite Hc.
    destruct (c <=? 0).
    + eexists _, w1. split; [reflexivity | exact Hsafe1].
    + destruct (IH w1 Hsafe1) as (s & w2 & Hs & Hsafe2). rewrite Hs.
      eexists _, w2. split; [reflexivity | exact Hsafe2].
Qed.

Lemma qsort_cells_safe l :
  forall w, comparisons_safe E w ->
  exists s w', qsort_cells E (map Some l) w = (Ret s, w')
               /\ comparisons_safe E w'.
Proof.
  induction l as [| x l IH]; intros w Hsafe; simpl.
  - eexists _, w. split; [reflexivity | exact Hsafe].
  - unfold bind. destruct (IH w Hsafe) as (s & w1 & Hs & Hsafe1). rewrite Hs.
    destruct (qsort_cells_shape l _ _ _ Hs) as (l1 & -> & _).
    apply qsort_insert_safe. exact Hsafe1.
Qed.

Lemma qsort_safe l w :
  comparisons_safe E w ->
  exists l' w',
    qsort E (table l) (List.length l) w = (Ret (table l'), w')
    /\ List.length l' = List.length l
    /\ Permutation l' l
    /\ comparisons_safe E w'.
Proof.
  intros Hsafe.
  assert (H : exists s w', qsort E (table l) (List.length l) w = (Ret s, w')
                           /\ comparisons_safe E w').
  { unfold qsort. destruct (table_split l) as (T1 & T2 & T3).
    rewrite T1, T2, T3. unfold bind.
    destruct (qsort_cells_safe l w Hsafe) as (s & w1 & Hs & Hsafe1).
    rewrite Hs. eexists _, w1. split; [reflexivity | exact Hsafe1]. }
  destruct H as (s & w' & Hrun & Hsafe').
  destruct (qsort_shape l w s w' Hrun) as (l' & -> & Hlen & Hp).
  exists l', w'. splits; auto.
Qed.

Lemma quiet_total h : quiet h -> total E h.
Proof.
  intros Hq cmp a b w Hsafe.
  destruct (Hq cmp a b w) as (v & evs & w' & Hrun & H1 & _).
  exists v, w'. split; [exact Hrun |].
  destruct Hsafe as [H | H]; [left; exact H | right; congruence].
Qed.

(** Sorting and merging two whole tables when no comparison can fail. *)
Lemma sort_and_merge_safe h cmp stamp fuel l0 l1 v dl rt w :
  total E h ->
  comparisons_safe E w ->
  (1 <= fuel)%nat ->
  exists fr' w' s0 s1 w2 ps vs,
    sort_and_merge E fuel stamp h cmp (List.length l0) (List.length l1)
      (mkframe (table l0) (table l1) v dl rt) w
    = (Ret tt, fr', w')
    /\ Permutation s0 l0 /\ Permutation s1 l1
    /\ merge_loop E (List.length (table s0) + List.length (table s1)) h cmp
         (mkframe (table s0) (table s1) v dl rt) w2
       = (Ret tt, fr', w')
    /\ delivered fr' = dl ++ ps
    /\ returned fr' = rt ++ vs
    /\ List.length vs = List.length ps
    /\ val fr' = fold_left Z.max vs v
    /\ (List.length ps <= List.length l0 + List.length l1)%nat
    /\ comparisons_safe E w'.
Proof.
  intros Ht Hsafe Hfuel.
  destruct fuel as [| f]; [lia |].
  destruct (qsort_safe l0 w Hsafe) as (s0 & w1 & Hq0 & Hlen0 & Hp0 & Hsafe1).
  destruct (qsort_safe l1 w1 Hsafe1) as (s1 & w2 & Hq1 & Hlen1 & Hp1 & Hsafe2).
  destruct (merge_loop_total E h cmp Ht
              (List.length (table s0) + List.length (table s1))
              s0 s1 v dl rt w2 Hsafe2)
    as (fr' & w' & ps & vs & Hrun & G1 & G2 & G3 & G4 & G5 & G6 & _ & G9 & _ & _
        & G12 & _).
  { unfold table. rewrite !length_app, !length_map. simpl. lia. }
  exists fr', w', s0, s1, w2, ps, vs.
  cbn [sort_and_merge names0 names1 val delivered returned].
  rewrite Hq0. cbn [names1]. rewrite Hq1. rewrite Hrun.
  splits; auto; try lia.
Qed.

(** With collation off and a quiet handler nothing jumps: one pass, no
    collation call, no failure report. *)
Lemma sort_and_merge_off h cmp stamp :
  quiet h ->
  forall fuel nn0 nn1 fr w,
  locale_specific_sorting w = false ->
  exists o fr' w' evs,
    sort_and_merge E fuel stamp h cmp nn0 nn1 fr w = (o, fr', w')
    /\ events w' = events w ++ evs
    /\ forallb is_calm_event evs = true
    /\ locale_specific_sorting w' = false
    /\ failed_locale_specific_sorting w' = failed_locale_specific_sorting w
    /\ is_jump o = false.
Proof.
  intros Hq fuel nn0 nn1 fr w Hoff.
  destruct fuel as [| f].
  { exists Fuel, fr, w, []. rewrite app_nil_r. splits; auto. }
  cbn [sort_and_merge].
  pose proof (obeys_qsort E (names0 fr) nn0 w) as H0.
  destruct (qsort E (names0 fr) nn0 w) as [[s0 | | |] w1]; simpl in H0;
    destruct H0 as (A1 & A2 & ev0 & A3 & A4).
  2:{ destruct A4 as [A4 _]. congruence. }
  2:{ exists Undefined, fr, w1, ev0. destruct A4 as [_ A4].
      splits; auto; congruence. }
  2:{ exists Fuel, fr, w1, ev0. destruct A4 as [_ A4].
      splits; auto; congruence. }
  destruct A4 as [_ A4]. cbn [names1].
  assert (Hoff1 : locale_specific_sorting w1 = false) by congruence.
  pose proof (obeys_qsort E (names1 fr) nn1 w1) as H1.
  destruct (qsort E (names1 fr) nn1 w1) as [[s1 | | |] w2]; simpl in H1;
    destruct H1 as (B1 & B2 & ev1 & B3 & B4).
  2:{ destruct B4 as [B4 _]. congruence. }
  2:{ eexists Undefined, _, w2, (ev0 ++ ev1). destruct B4 as [_ B4].
      split; [reflexivity |].
      rewrite B3, A3, app_assoc, forallb_app, (A4 Hoff), (B4 Hoff1).
      splits; auto; congruence. }
  2:{ eexists Fuel, _, w2, (ev0 ++ ev1). destruct B4 as [_ B4].
      split; [reflexivity |].
      rewrite B3, A3, app_assoc, forallb_app, (A4 Hoff), (B4 Hoff1).
      splits; auto; congruence. }
  destruct B4 as [_ B4].
  assert (Hoff2 : locale_specific_sorting w2 = false) by congruence.
  match goal with
  | |- context [merge_loop E ?n h cmp ?fr2 w2] =>
      destruct (merge_loop_quiet h cmp Hq n fr2 w2)
        as (o & fr3 & w3 & ev2 & Hrun & C1 & C2 & C3 & C4)
  end.
  rewrite Hrun.
  destruct o; simpl in C4.
  - exists (Ret a), fr3, w3, (ev0 ++ ev1 ++ ev2). destruct C4 as [_ C4].
    split; [reflexivity |].
    rewrite C3, B3, A3, <- !app_assoc, !forallb_app, (A4 Hoff), (B4 Hoff1),
      (C4 Hoff2).
    splits; auto; congruence.
  - destruct C4 as [C4 _]. congruence.
  - exists Undefined, fr3, w3, (ev0 ++ ev1 ++ ev2). destruct C4 as [_ C4].
    split; [reflexivity |].
    rewrite C3, B3, A3, <- !app_assoc, !forallb_app, (A4 Hoff), (B4 Hoff1),
      (C4 Hoff2).
    splits; auto; congruence.
  - exists Fuel, fr3, w3, (ev0 ++ ev1 ++ ev2). destruct C4 as [_ C4].
    split; [reflexivity |].
    rewrite C3, B3, A3, <- !app_assoc, !forallb_app, (A4 Hoff), (B4 Hoff1),
      (C4 Hoff2).
    splits; auto; congruence.
Qed.

Lemma count_zero_app p l1 l2 :
  count p (l1 ++ l2) = 0%nat -> count p l1 = 0%nat /\ count p l2 = 0%nat.
Proof. rewrite count_app. lia. Qed.

(** From the [setjmp] on, with a quiet handler and the jump buffer set by
    this activation: either nothing fails, or exactly one failure is
    reported, collation is off from then on and is not called again; and
    when the failure comes before any pair was delivered, the second pass
    runs to the end. *)
Lemma sort_and_merge_quiet h cmp stamp :
  quiet h ->
  forall fuel l0 l1 v w,
  (2 <= fuel)%nat ->
  failed_locale_specific_sorting w = Some stamp ->
  exists o fr' w' evs,
    sort_and_merge E fuel stamp h cmp (List.length l0) (List.length l1)
      (mkframe (table l0) (table l1) v [] []) w
    = (o, fr', w')
    /\ events w' = events w ++ evs
    /\ ((forallb is_step_event evs = true
         /\ locale_specific_sorting w' = locale_specific_sorting w)
        \/ (locale_specific_sorting w = true
            /\ locale_specific_sorting w' = false
            /\ exists pre e a b post,
                 evs = pre ++ Ev_diag (Cannot_compare e a b) :: post
                 /\ forallb is_step_event pre = true
                 /\ forallb is_calm_event post = true
                 /\ (count is_delivery pre = 0%nat -> o = Ret tt))).
Proof.
  intros Hq fuel l0 l1 v w Hfuel Hjmp.
  destruct fuel as [| f]; [lia |].
  (* what happens when a jump arrives back at the [setjmp] *)
  assert (Hres : forall frj wj pre e a b,
            events wj = events w ++ pre ++ [Ev_diag (Cannot_compare e a b)] ->
            forallb is_step_event pre = true ->
            locale_specific_sorting w = true ->
            (count is_delivery pre = 0%nat ->
             exists l0' l1',
               frj = mkframe (table l0') (table l1') v [] []
               /\ List.length l0' = List.length l0
               /\ List.length l1' = List.length l1) ->
            exists o fr' w' evs,
              sort_and_merge E f stamp h cmp (List.length l0) (List.length l1)
                frj (set_sorting false wj) = (o, fr', w')
              /\ events w' = events w ++ evs
              /\ ((forallb is_step_event evs = true
                   /\ locale_specific_sorting w' = locale_specific_sorting w)
                  \/ (locale_specific_sorting w = true
                      /\ locale_specific_sorting w' = false
                      /\ exists pre e a b post,
                           evs = pre ++ Ev_diag (Cannot_compare e a b) :: post
                           /\ forallb is_step_event pre = true
                           /\ forallb is_calm_event post = true
                           /\ (count is_delivery pre = 0%nat -> o = Ret tt)))).
  { intros frj wj pre e a b Hev Hpre Hon Hshape.
    destruct (sort_and_merge_off h cmp stamp Hq f (List.length l0)
                (List.length l1) frj (set_sorting false wj) eq_refl)
      as (o & fr' & w' & evs & Hrun & R1 & R2 & R3 & R4 & R5).
    exists o, fr', w', (pre ++ Ev_diag (Cannot_compare e a b) :: evs).
    split; [exact Hrun |].
    split.
    { rewrite R1. simpl. rewrite Hev, <- !app_assoc. reflexivity. }
    right. splits; auto.
    exists pre, e, a, b, evs. splits; auto.
    intros Hnone. destruct (Hshape Hnone) as (l0' & l1' & -> & Hl0 & Hl1).
    destruct (sort_and_merge_safe h cmp stamp f l0' l1' v [] []
                (set_sorting false wj) (quiet_total h Hq))
      as (fr2 & w2 & _ & _ & _ & _ & _ & Hrun2 & _).
    { right. reflexivity. }
    { lia. }
    rewrite Hl0, Hl1 in Hrun2. rewrite Hrun in Hrun2.
    injection Hrun2 as -> _ _. reflexivity. }
  assert (Hcaught : forall wj,
            failed_locale_specific_sorting wj = failed_locale_specific_sorting w ->
            match failed_locale_specific_sorting wj with
            | Some k => Nat.eqb k stamp
            | None => false
            end = true).
  { intros wj ->. rewrite Hjmp. apply Nat.eqb_refl. }
  cbn [sort_and_merge names0 names1 val delivered returned].
  pose proof (obeys_qsort E (table l0) (List.length l0) w) as H0.
  destruct (qsort E (table l0) (List.length l0) w) as [[s0 | | |] w1] eqn:Hq0;
    simpl in H0; destruct H0 as (A1 & A2 & ev0 & A3 & A4).
  2:{ (* the first sort jumps *)
      destruct A4 as (A4 & pre & e & a & b & A5 & A6).
      rewrite (Hcaught w1 A2).
      apply (Hres _ w1 pre e a b); auto.
      - rewrite A3, A5. reflexivity.
      - intros _. exists l0, l1. splits; reflexivity. }
  2:{ eexists Undefined, _, w1, ev0. split; [reflexivity |].
      split; [exact A3 |]. left. split; [apply A4 | exact A1]. }
  2:{ eexists Fuel, _, w1, ev0. split; [reflexivity |].
      split; [exact A3 |]. left. split; [apply A4 | exact A1]. }
  destruct A4 as [A4 _].
  destruct (qsort_shape l0 w s0 w1 Hq0) as (l0' & -> & Hl0 & _).
  pose proof (obeys_qsort E (table l1) (List.length l1) w1) as H1.
  destruct (qsort E (table l1) (List.length l1) w1) as [[s1 | | |] w2] eqn:Hq1;
    simpl in H1; destruct H1 as (B1 & B2 & ev1 & B3 & B4).
  2:{ (* the second sort jumps *)
      destruct B4 as (B4 & pre & e & a & b & B5 & B6).
      rewrite (Hcaught w2) by congruence.
      apply (Hres _ w2 (ev0 ++ pre) e a b); auto.
      - rewrite B3, A3, B5, <- !app_assoc. reflexivity.
      - rewrite forallb_app, A4, B6. reflexivity.
      - congruence.
      - intros _. exists l0', l1. splits; auto. }
  2:{ eexists Undefined, _, w2, (ev0 ++ ev1). split; [reflexivity |].
      split; [rewrite B3, A3, app_assoc; reflexivity |].
      left. destruct B4 as [B4 _].
      rewrite forallb_app, A4, B4. split; [reflexivity | congruence]. }
  2:{ eexists Fuel, _, w2, (ev0 ++ ev1). split; [reflexivity |].
      split; [rewrite B3, A3, app_assoc; reflexivity |].
      left. destruct B4 as [B4 _].
      rewrite forallb_app, A4, B4. split; [reflexivity | congruence]. }
  destruct B4 as [B4 _].
  destruct (qsort_shape l1 w1 s1 w2 Hq1) as (l1' & -> & Hl1 & _).
  match goal with
  | |- context [merge_loop E ?n h cmp ?fr2 w2] =>
      destruct (merge_loop_quiet h cmp Hq n fr2 w2)
        as (o & fr3 & w3 & ev2 & Hrun & C1 & C2 & C3 & C4)
  end.
  rewrite Hrun.
  assert (Hstay : forallb is_step_event ev2 = true ->
            exists (o' : outcome unit) (fr' : frame) (w' : world) evs,
              (o, fr3, w3) = (o', fr', w')
              /\ events w' = events w ++ evs
              /\ ((forallb is_step_event evs = true
                   /\ locale_specific_sorting w' = locale_specific_sorting w)
                  \/ (locale_specific_sorting w = true
                      /\ locale_specific_sorting w' = false
                      /\ exists pre e a b post,
                           evs = pre ++ Ev_diag (Cannot_compare e a b) :: post
                           /\ forallb is_step_event pre = true
                           /\ forallb is_calm_event post = true
                           /\ (count is_delivery pre = 0%nat -> o' = Ret tt)))).
  { intros Hs. exists o, fr3, w3, (ev0 ++ ev1 ++ ev2).
    split; [reflexivity |].
    split; [rewrite C3, B3, A3, <- !app_assoc; reflexivity |].
    left. rewrite !forallb_app, A4, B4, Hs. split; [reflexivity | congruence]. }
  destruct o; simpl in C4.
  - apply Hstay. apply C4.
  - (* the merge jumps *)
    destruct C4 as (C4 & pre & e & a & b & C5 & C6 & C7).
    rewrite (Hcaught w3) by congruence.
    apply (Hres fr3 w3 (ev0 ++ ev1 ++ pre) e a b); auto.
    + rewrite C3, B3, A3, C5, <- !app_assoc. reflexivity.
    + rewrite !forallb_app, A4, B4, C6. reflexivity.
    + congruence.
    + intros Hnone.
      apply count_zero_app in Hnone. destruct Hnone as [_ Hnone].
      apply count_zero_app in Hnone. destruct Hnone as [_ Hnone].
      rewrite (C7 Hnone). exists l0', l1'. splits; auto.
  - apply Hstay. apply C4.
  - apply Hstay. apply C4.
Qed.

End Quiet.

(** ** [diff_dirs] as a whole *)

Section Whole.

Variable E : env.

Lemma file_set_file cmp i f j :
  file (set_file cmp i f) j
  = match i, j with
    | O, O => f
    | S _, S _ => f
    | _, _ => file cmp j
    end.
Proof. destruct cmp, i, j; reflexivity. Qed.

Lemma parent_set_file cmp i f : parent (set_file cmp i f) = parent cmp.
Proof. destruct cmp, i; reflexivity. Qed.

(** [diff_dirs] past the guard, once the two reads have returned. *)
Lemma diff_dirs_reads h cmp w ok0 f0 d0 w1 ok1 f1 d1 w2 :
  loop_guard E cmp = false ->
  dir_read E (parent_desc E cmp 0) (file cmp 0) (cursor_of E cmp) false
    (snd (new_activation w)) = (Ret (ok0, f0, d0), w1) ->
  dir_read E (parent_desc E cmp 1) (file cmp 1) (cursor_of E cmp) false
    (after_read ok0 f0 w1) = (Ret (ok1, f1, d1), w2) ->
  diff_dirs E h cmp w
  = after_reads E h (set_file (set_file cmp 0 f0) 1 f1) (activations w)
      (ok0 && ok1) d0 d1 (after_read ok1 f1 w2).
Proof.
  intros Hg H0 H1. unfold diff_dirs.
  unfold loop_guard in Hg. rewrite Hg.
  unfold new_activation in *. simpl in H0. cbv zeta.
  unfold bind at 1. unfold read_side at 1. unfold bind at 1.
  unfold cursor_of in H0, H1. rewrite H0.
  assert (Hside0 :
    (if ok0 then ret (set_file cmp 0 f0, d0, EXIT_SUCCESS)
     else fun w' => (Ret (set_file cmp 0 f0, d0, EXIT_TROUBLE),
                     emit (Ev_diag (Perror (name f0) (errno w'))) w')) w1
    = (Ret (set_file cmp 0 f0, d0, if ok0 then EXIT_SUCCESS else EXIT_TROUBLE),
       after_read ok0 f0 w1)).
  { unfold after_read. destruct ok0; reflexivity. }
  rewrite Hside0. clear Hside0.
  unfold bind at 1. unfold read_side at 1. unfold bind at 1.
  unfold parent_desc at 1. rewrite parent_set_file.
  change (match parent cmp with
          | Some p => desc (file p 1)
          | None => noparent_desc E 1
          end) with (parent_desc E cmp 1).
  rewrite file_set_file. simpl. rewrite H1.
  unfold after_reads, after_read, release.
  destruct ok0, ok1; simpl; reflexivity.
Qed.

Lemma max_status_snoc vs v1 :
  max_status (vs ++ [v1]) = Z.max (max_status vs) v1.
Proof. unfold max_status. rewrite fold_left_app. reflexivity. Qed.

Section AnyHandler.

Variable Q : event -> bool.
Variable h : handler.
Hypothesis HQ : accepts_own_events Q.
Hypothesis Hh : forall cmp a b w, extends Q w (snd (h cmp a b w)).

Lemma extends_emit e w : Q e = true -> extends Q w (emit e w).
Proof. intros He. exists [e]. simpl. rewrite He. split; reflexivity. Qed.

(** The loop with any handler: it logs its own events and the handler's,
    and [val] stays the largest value the handler has returned. *)
Lemma merge_loop_any cmp :
  forall fuel fr w,
  extends Q w (snd (merge_loop E fuel h cmp fr w))
  /\ (val fr = max_status (returned fr) ->
      val (snd (fst (merge_loop E fuel h cmp fr w)))
      = max_status (returned (snd (fst (merge_loop E fuel h cmp fr w))))).
Proof.
  induction fuel as [| f IH]; intros fr w; cbn [merge_loop].
  - destruct (at_end fr) as [[|] |]; simpl; (split; [apply extends_refl | auto]).
  - destruct (at_end fr) as [[|] |]; simpl;
      try (split; [apply extends_refl | auto]).
    pose proof (obeys_compare_heads E fr w) as Hc.
    destruct (compare_heads E fr w) as [[[nameorder [n0 n1]] | | |] w1];
      simpl in Hc; apply (disciplined_extends Q _ _ _ HQ) in Hc; simpl;
      try (split; [exact Hc | auto]).
    unfold handed.
    set (arg0 := if 0 <? nameorder then None else hd None n0).
    set (arg1 := if nameorder <? 0 then None else hd None n1).
    cbn [fst snd].
    pose proof (Hh cmp arg0 arg1 (emit (Ev_handle arg0 arg1) w1)) as Hcall.
    assert (Hw2 : extends Q w (snd (h cmp arg0 arg1 (emit (Ev_handle arg0 arg1) w1)))).
    { eapply extends_trans; [exact Hc |].
      eapply extends_trans; [| exact Hcall].
      apply extends_emit. apply HQ. left. reflexivity. }
    destruct (h cmp arg0 arg1 (emit (Ev_handle arg0 arg1) w1)) as [[v1 | | |] w2];
      simpl in *; try (split; [exact Hw2 | auto]).
    match goal with
    | |- context [merge_loop E f h cmp ?fr2 w2] =>
        destruct (IH fr2 w2) as [I1 I2]
    end.
    split; [eapply extends_trans; [exact Hw2 | exact I1] |].
    intros Hv. apply I2. unfold with_value. simpl.
    rewrite max_status_snoc, max_step, Hv. reflexivity.
Qed.

Lemma qsort_extends cells n w : extends Q w (snd (qsort E cells n w)).
Proof. eapply disciplined_extends; [exact HQ | apply obeys_qsort]. Qed.

Lemma sort_and_merge_any cmp stamp nn0 nn1 :
  forall fuel fr w,
  extends Q w (snd (sort_and_merge E fuel stamp h cmp nn0 nn1 fr w))
  /\ (val fr = max_status (returned fr) ->
      val (snd (fst (sort_and_merge E fuel stamp h cmp nn0 nn1 fr w)))
      = max_status
          (returned (snd (fst (sort_and_merge E fuel stamp h cmp nn0 nn1 fr w))))).
Proof.
  induction fuel as [| f IH]; intros fr w; cbn [sort_and_merge].
  - simpl. split; [apply extends_refl | auto].
  - assert (Hres : forall fr' w',
              extends Q w w' ->
              (val fr = max_status (returned fr) ->
               val fr' = max_status (returned fr')) ->
              extends Q w
                (snd (if match failed_locale_specific_sorting w' with
                         | Some k => Nat.eqb k stamp
                         | None => false
                         end
                      then sort_and_merge E f stamp h cmp nn0 nn1 fr'
                             (set_sorting false w')
                      else (Longjmp, fr', w')))
              /\ (val fr = max_status (returned fr) ->
                  val (snd (fst (if match failed_locale_specific_sorting w' with
                                    | Some k => Nat.eqb k stamp
                                    | None => false
                                    end
                                 then sort_and_merge E f stamp h cmp nn0 nn1 fr'
                                        (set_sorting false w')
                                 else (Longjmp, fr', w'))))
                  = max_status
                      (returned
                         (snd (fst (if match failed_locale_specific_sorting w' with
                                       | Some k => Nat.eqb k stamp
                                       | None => false
                                       end
                                    then sort_and_merge E f stamp h cmp nn0 nn1 fr'
                                           (set_sorting false w')
                                    else (Longjmp, fr', w'))))))).
    { intros fr' w' Hext Hval.
      destruct (match failed_locale_specific_sorting w' with
                | Some k => Nat.eqb k stamp
                | None => false
                end).
      - destruct (IH fr' (set_sorting false w')) as [I1 I2].
        split; [eapply extends_trans; [exact Hext | exact I1] |].
        intros Hv. apply I2. apply Hval. exact Hv.
      - simpl. split; [exact Hext | exact Hval]. }
    pose proof (qsort_extends (names0 fr) nn0 w) as H0.
    destruct (qsort E (names0 fr) nn0 w) as [[s0 | | |] w1]; simpl in H0;
      try (simpl; split; [exact H0 | auto]).
    2:{ apply Hres; auto. }
    cbn [names1].
    pose proof (qsort_extends (names1 fr) nn1 w1) as H1.
    destruct (qsort E (names1 fr) nn1 w1) as [[s1 | | |] w2]; simpl in H1;
      try (simpl; split; [eapply extends_trans; [exact H0 | exact H1] | auto]).
    2:{ apply Hres; [eapply extends_trans; [exact H0 | exact H1] | auto]. }
    match goal with
    | |- context [merge_loop E ?n h cmp ?fr2 w2] =>
        destruct (merge_loop_any cmp n fr2 w2) as [M1 M2];
        destruct (merge_loop E n h cmp fr2 w2) as [[o fr3] w3]
    end.
    simpl in M1, M2.
    assert (Hw3 : extends Q w w3).
    { eapply extends_trans; [exact H0 |].
      eapply extends_trans; [exact H1 | exact M1]. }
    destruct o; try (simpl; split; [exact Hw3 | exact M2]).
    apply Hres; auto.
Qed.

Lemma extends_bind {A B} (m : M A) (k : A -> M B) :
  (forall w, extends Q w (snd (m w))) ->
  (forall a w, extends Q w (snd (k a w))) ->
  forall w, extends Q w (snd (bind m k w)).
Proof.
  intros Hm Hk w. unfold bind. specialize (Hm w).
  destruct (m w) as [[a | | |] w1]; simpl in *; try exact Hm.
  eapply extends_trans; [exact Hm | apply Hk].
Qed.

Lemma extends_free b w w' : extends Q w w' -> extends Q w (free b w').
Proof. intros H. destruct b; exact H. Qed.

Lemma read_side_extends cmp i v w :
  extends Q w (snd (read_side E cmp i v w)).
Proof.
  unfold read_side. apply extends_bind.
  - intros w0. eapply disciplined_extends; [exact HQ | apply obeys_dir_read].
  - intros [[ok f] d] w0. destruct ok; simpl; [apply extends_refl |].
    apply extends_emit. apply HQ. right. right. reflexivity.
Qed.

(** Past the guard, [diff_dirs] logs its own events and the handler's. *)
Lemma diff_dirs_extends cmp w :
  loop_guard E cmp = false ->
  extends Q w (snd (diff_dirs E h cmp w)).
Proof.
  intros Hg. unfold diff_dirs. unfold loop_guard in Hg. rewrite Hg.
  unfold new_activation. cbv zeta iota beta.
  match goal with
  | |- extends Q w (snd (?m ?w0)) =>
      assert (H0 : extends Q w w0)
        by (exists []; simpl; rewrite app_nil_r; split; reflexivity);
      eapply extends_trans; [exact H0 |]
  end.
  apply extends_bind; [apply read_side_extends |].
  intros [[cmp0 dirdata0] v0].
  apply extends_bind; [apply read_side_extends |].
  intros [[cmp1 dirdata1] v1] w2.
  destruct (v1 =? EXIT_SUCCESS).
  - match goal with
    | |- context [sort_and_merge E ?fuel ?stamp h cmp1 ?n0 ?n1 ?fr ?w3] =>
        destruct (sort_and_merge_any cmp1 stamp n0 n1 fuel fr w3) as [S1 _];
        destruct (sort_and_merge E fuel stamp h cmp1 n0 n1 fr w3)
          as [[[u | | |] fr'] w4]
    end; simpl in S1 |- *; try exact S1.
    repeat apply extends_free. exact S1.
  - simpl. repeat apply extends_free. apply extends_refl.
Qed.

End AnyHandler.

Lemma dir_loop_from_ancestors p target i :
  dir_loop_from p target i = true
  <-> exists q, In q (ancestors p)
                /\ 0 < same_file (fstat (file q i)) target.
Proof.
  revert p.
  fix IH 1. intros [f0 f1 [q |]]; simpl.
  - destruct (Z.ltb_spec 0 (same_file (fstat (file q i)) target)) as [Hs | Hs].
    + split; [| reflexivity]. intros _. exists q. split; [left; reflexivity | exact Hs].
    + rewrite (IH q). split.
      * intros (r & Hr & Hsame). exists r. split; [right; exact Hr | exact Hsame].
      * intros (r & [<- | Hr] & Hsame); [lia |]. exists r. split; assumption.
  - split; [discriminate |]. intros (r & [] & _).
Qed.

(** The guard of [diff_dirs]: when it holds, what the call does; when it
    does not, that the call logs no loop report of its own. *)
Lemma loop_guard_cases (h : handler) (cmp : comparison) (w : world) :
  (loop_guard E cmp = true <->
   (desc (file cmp 0) = NONEXISTENT E
    \/ exists q, In q (ancestors cmp)
                 /\ 0 < same_file (fstat (file q 0)) (fstat (file cmp 0)))
   /\ (desc (file cmp 1) = NONEXISTENT E
       \/ exists q, In q (ancestors cmp)
                    /\ 0 < same_file (fstat (file q 1)) (fstat (file cmp 1))))
  /\ (loop_guard E cmp = true ->
      diff_dirs E h cmp w
      = (Ret (mkresult EXIT_TROUBLE cmp [] []),
         emit (Ev_diag (Recursive_loop
                 (name (file cmp (if desc (file cmp 0) =? NONEXISTENT E
                                  then 1%nat else 0%nat))))) w))
  /\ (loop_guard E cmp = false ->
      (forall cmp' a b w0, extends not_loop_report w0 (snd (h cmp' a b w0))) ->
      extends not_loop_report w (snd (diff_dirs E h cmp w))
      /\ count is_loop_report (events (snd (diff_dirs E h cmp w)))
         = count is_loop_report (events w)).
Proof.
  splits.
  - unfold loop_guard, dir_loop.
    rewrite andb_true_iff, !orb_true_iff, !Z.eqb_eq, !dir_loop_from_ancestors.
    reflexivity.
  - intros Hg. unfold diff_dirs. unfold loop_guard in Hg. rewrite Hg.
    reflexivity.
  - intros Hg Hh.
    assert (Hext : extends not_loop_report w (snd (diff_dirs E h cmp w))).
    { apply diff_dirs_extends; auto.
      intros e [He | [He | He]]; unfold not_loop_report;
        destruct e as [| | | []]; simpl in *; try reflexivity; discriminate. }
    split; [exact Hext |].
    destruct Hext as (evs & H1 & H2). rewrite H1, count_app.
    rewrite (forallb_count_zero not_loop_report is_loop_report evs); [lia | | exact H2].
    intros e. unfold not_loop_report. destruct (is_loop_report e); simpl; congruence.
Qed.

End Whole.

Lemma leaf_extends Q cmp a b w : extends Q w (snd (Sample.leaf cmp a b w)).
Proof. apply extends_refl. Qed.

(** ** The status [diff_dirs] returns *)

Section Status.

Variable E : env.







End Status.


(** ** Collation fallback *)

Lemma count_cons p e l :
  count p (e :: l) = ((if p e then 1 else 0) + count p l)%nat.
Proof. unfold count. simpl. destruct (p e); reflexivity. Qed.

Lemma first_failure_split pre f post :
  count is_failure_report pre = 0%nat ->
  is_failure_report f = true ->
  before_first_failure (pre ++ f :: post) = pre
  /\ after_first_failure (pre ++ f :: post) = post.
Proof.
  intros Hpre Hf. induction pre as [| e pre IH]; simpl.
  - rewrite Hf. split; reflexivity.
  - rewrite count_cons in Hpre.
    destruct (is_failure_report e); [discriminate |].
    destruct (IH Hpre) as [I1 I2]. rewrite I1, I2. split; reflexivity.
Qed.

Lemma no_failure_after evs :
  count is_failure_report evs = 0%nat -> after_first_failure evs = [].
Proof.
  induction evs as [| e evs IH]; simpl; [reflexivity |].
  rewrite count_cons. destruct (is_failure_report e); [discriminate |].
  exact IH.
Qed.

Lemma release_keeps d w :
  events (release d w) = events w
  /\ locale_specific_sorting (release d w) = locale_specific_sorting w.
Proof.
  unfold release. destruct (data d), (names_block d); split; reflexivity.
Qed.

Lemma reading_no_failure evs :
  forallb is_reading_event evs = true ->
  count is_failure_report evs = 0%nat
  /\ count is_perror evs = 0%nat
  /\ count is_delivery evs = 0%nat.
Proof.
  intros H.
  splits; apply (forallb_count_zero is_reading_event); try exact H;
    intros e He; destruct e as [| | | []]; simpl in *; auto; discriminate.
Qed.

Lemma steps_no_failure evs :
  forallb is_step_event evs = true -> count is_failure_report evs = 0%nat.
Proof.
  apply forallb_count_zero. intros e He. apply step_event_kinds. exact He.
Qed.

Lemma calm_no_collation evs :
  forallb is_calm_event evs = true ->
  count is_failure_report evs = 0%nat /\ count is_collation evs = 0%nat.
Proof.
  intros H. split.
  - apply steps_no_failure. revert H. apply forallb_weaken.
    intros e He. apply calm_event_kinds. exact He.
  - revert H. apply forallb_count_zero.
    intros e He. apply calm_event_kinds. exact He.
Qed.

Section Fallback.

Variable E : env.

(** C3.  A call of [diff_dirs] whose handler does not come back into this
    file, with a restart cursor that cannot make a comparison fail while
    the directories are read.  It logs at most one failure report.  After
    the report it makes no collation call: every later comparison of the
    call is by [file_name_cmp] alone.  When there is a report, the call
    leaves [locale_specific_sorting] off, and it returns if the failure came
    before any pair was handed over.  When there is no report, no read
    failed and no loop was reported, the call leaves
    [locale_specific_sorting] on, whatever it was before: each call that
    reaches the merge turns collation on again. *)
Theorem collation_fallback (h : handler) (cmp : comparison) (w : world) :
  quiet h ->
  read_safe E (cursor_of E cmp) w ->
  exists o w' evs,
    diff_dirs E h cmp w = (o, w')
    /\ events w' = events w ++ evs
    /\ (count is_failure_report evs <= 1)%nat
    /\ count is_collation (after_first_failure evs) = 0%nat
    /\ (count is_failure_report evs = 1%nat ->
        locale_specific_sorting w' = false
        /\ (count is_delivery (before_first_failure evs) = 0%nat ->
            exists r, o = Ret r))
    /\ (count is_failure_report evs = 0%nat ->
        count is_perror evs = 0%nat ->
        count is_loop_report evs = 0%nat ->
        locale_specific_sorting w' = true).
Proof.
  intros Hq Hsafe.
  destruct (loop_guard E cmp) eqn:Hg.
  { (* the loop is reported, nothing else is done *)
    unfold diff_dirs. unfold loop_guard in Hg. rewrite Hg.
    eexists _, _, [_]. split; [reflexivity |].
    split; [reflexivity |]. simpl. unfold count. simpl.
    splits; auto; discriminate. }
  destruct (dir_read_returns E (parent_desc E cmp 0) (file cmp 0)
              (cursor_of E cmp) false (snd (new_activation w)))
    as (ok0 & f0 & d0 & w1 & ev0 & H0 & _ & A1 & _ & _ & A2 & A3 & _ & _ & _
        & A4 & _).
  { destruct Hsafe as [Hs | [Hs | Hs]];
      [left; exact Hs | right; left; exact Hs | right; right; exact Hs]. }
  destruct (dir_read_returns E (parent_desc E cmp 1) (file cmp 1)
              (cursor_of E cmp) false (after_read ok0 f0 w1))
    as (ok1 & f1 & d1 & w2 & ev1 & H1 & _ & B1 & _ & _ & B2 & B3 & _ & _ & _
        & B4 & _).
  { destruct Hsafe as [Hs | [Hs | Hs]];
      [left; exact Hs | right; left; exact Hs |].
    right. right. unfold after_read. destruct ok0; simpl; rewrite A1; exact Hs. }
  rewrite (diff_dirs_reads E h cmp w ok0 f0 d0 w1 ok1 f1 d1 w2 Hg H0 H1).
  simpl in A2.
  destruct (reading_no_failure ev0 A3) as (F0 & P0 & D0).
  destruct (reading_no_failure ev1 B3) as (F1 & P1 & D1).
  set (perr0 := if ok0 then [] else [Ev_diag (Perror (name f0) (errno w1))]).
  set (perr1 := if ok1 then [] else [Ev_diag (Perror (name f1) (errno w2))]).
  assert (Hw2 : events (after_read ok1 f1 w2)
                = events w ++ ev0 ++ perr0 ++ ev1 ++ perr1).
  { unfold after_read, perr0, perr1 in *.
    destruct ok1, ok0; simpl in *; rewrite ?B2, ?A2; simpl;
      rewrite <- ?app_assoc; simpl; rewrite ?app_nil_r; reflexivity. }
  unfold after_reads.
  destruct (ok0 && ok1) eqn:Hok.
  2:{ (* a read failed *)
    eexists _, _, (ev0 ++ perr0 ++ ev1 ++ perr1).
    split; [reflexivity |].
    destruct (release_keeps d1 (release d0 (after_read ok1 f1 w2))) as [R1 _].
    destruct (release_keeps d0 (after_read ok1 f1 w2)) as [R2 _].
    split; [rewrite R1, R2; exact Hw2 |].
    assert (Hf : count is_failure_report (ev0 ++ perr0 ++ ev1 ++ perr1) = 0%nat).
    { rewrite !count_app, F0, F1. unfold perr0, perr1.
      destruct ok0, ok1; reflexivity. }
    rewrite (no_failure_after _ Hf), Hf.
    splits; auto; try discriminate.
    intros _ Hp. exfalso. rewrite !count_app, P0, P1 in Hp.
    unfold perr0, perr1 in Hp. destruct ok0, ok1; discriminate. }
  (* both reads succeeded *)
  apply andb_prop in Hok. destruct Hok as [-> ->].
  destruct (A4 eq_refl) as (l0 & Hc0 & Hl0).
  destruct (B4 eq_refl) as (l1 & Hc1 & Hl1).
  rewrite Hc0, Hc1, Hl0, Hl1.
  set (w3 := set_jmp (Some (activations w))
               (set_sorting true (after_read true f1 w2))).
  destruct (sort_and_merge_quiet E h (set_file (set_file cmp 0 f0) 1 f1)
              (activations w) Hq
              (S (S (List.length l0 + List.length l1))) l0 l1 EXIT_SUCCESS w3)
    as (o & fr' & w4 & evm & Hrun & Hev & Hcase); [lia | reflexivity |].
  rewrite Hrun.
  assert (Hevs : forall w5,
            events w5 = events w4 ->
            events w5 = events w ++ (ev0 ++ ev1) ++ evm).
  { intros w5 ->. rewrite Hev. unfold w3. simpl.
    unfold perr0, perr1 in Hw2. simpl in Hw2. rewrite Hw2.
    rewrite <- !app_assoc. reflexivity. }
  assert (Hpre : count is_failure_report (ev0 ++ ev1) = 0%nat)
    by (rewrite count_app, F0, F1; reflexivity).
  assert (Hdel : count is_delivery (ev0 ++ ev1) = 0%nat)
    by (rewrite count_app, D0, D1; reflexivity).
  destruct (release_keeps d1 (release d0 w4)) as [R1 R3].
  destruct (release_keeps d0 w4) as [R2 R4].
  exists (match o with
          | Ret _ => Ret (mkresult (val fr') (set_file (set_file cmp 0 f0) 1 f1)
                            (delivered fr') (returned fr'))
          | Longjmp => Longjmp
          | Undefined => Undefined
          | Fuel => Fuel
          end),
         (match o with Ret _ => release d1 (release d0 w4) | _ => w4 end),
         ((ev0 ++ ev1) ++ evm).
  split; [destruct o; reflexivity |].
  split; [apply Hevs; destruct o; [rewrite R1, R2 |..]; reflexivity |].
  assert (Hflag : forall b,
            locale_specific_sorting w4 = b ->
            locale_specific_sorting
              (match o with Ret _ => release d1 (release d0 w4) | _ => w4 end)
            = b).
  { intros b Hb. destruct o; [rewrite R3, R4 |..]; exact Hb. }
  destruct Hcase as [[Hsteps Hsame] | (Hon & Hoff & pre & e & a & b & post
                                       & Hsplit & Hpre' & Hpost & Hret)].
  - (* no comparison failed *)
    assert (Hf : count is_failure_report ((ev0 ++ ev1) ++ evm) = 0%nat)
      by (rewrite count_app, Hpre, (steps_no_failure _ Hsteps); reflexivity).
    rewrite (no_failure_after _ Hf), Hf.
    splits; auto; try discriminate;
      intros _ _ _; apply Hflag; rewrite Hsame; reflexivity.
  - (* one comparison failed *)
    destruct (calm_no_collation post Hpost) as [Hpf Hpc].
    assert (Hf0 : count is_failure_report ((ev0 ++ ev1) ++ pre) = 0%nat)
      by (rewrite count_app, Hpre, (steps_no_failure _ Hpre'); reflexivity).
    destruct (first_failure_split ((ev0 ++ ev1) ++ pre)
                (Ev_diag (Cannot_compare e a b)) post Hf0 eq_refl)
      as [S1 S2].
    rewrite Hsplit, app_assoc, S1, S2.
    assert (Hf : count is_failure_report
                   (((ev0 ++ ev1) ++ pre) ++ Ev_diag (Cannot_compare e a b) :: post)
                 = 1%nat).
    { rewrite count_app, Hf0, count_cons, Hpf. reflexivity. }
    rewrite Hf. splits; auto; try discriminate.
    intros _. split; [apply Hflag; exact Hoff |].
    intros Hd. rewrite count_app, Hdel in Hd.
    rewrite (Hret Hd). eexists. reflexivity.
Qed.

End Fallback.

Lemma leaf_quiet : quiet Sample.leaf.
Proof.
  intros cmp a b w. eexists _, [], w. rewrite app_nil_r.
  splits; reflexivity.
Qed.

Lemma collation_fallback_witness :
  exists o w' evs,
    diff_dirs (Sample.broken false Sample.fs_nested) Sample.leaf Sample.top
      Sample.w0 = (o, w')
    /\ events w' = events Sample.w0 ++ evs
    /\ (count is_failure_report evs <= 1)%nat
    /\ count is_collation (after_first_failure evs) = 0%nat
    /\ (count is_failure_report evs = 1%nat ->
        locale_specific_sorting w' = false
        /\ (count is_delivery (before_first_failure evs) = 0%nat ->
            exists r, o = Ret r))
    /\ (count is_failure_report evs = 0%nat ->
        count is_perror evs = 0%nat ->
        count is_loop_report evs = 0%nat ->
        locale_specific_sorting w' = true).
Proof.
  apply (collation_fallback (Sample.broken false Sample.fs_nested) Sample.leaf
           Sample.top Sample.w0 leaf_quiet).
  left. reflexivity.
Defined.

(** The claim as worded fails once the handler descends into a matched
    subdirectory: the inner call of [diff_dirs] turns collation on again,
    so that the locale is asked once more after the first failure and a
    second failure is reported within the same top-level call. *)
Lemma collation_fallback_counterexample :
  exists r w',
    diff_dirs (Sample.broken false Sample.fs_nested)
      (Sample.compare_subdirs (Sample.broken false Sample.fs_nested) 1)
      Sample.top Sample.w0 = (Ret r, w')
    /\ count is_failure_report (events w') = 2%nat
    /\ count is_collation (after_first_failure (events w')) = 1%nat.
Proof.
  eexists _, _. split; [vm_compute; reflexivity |].
  split; vm_compute; reflexivity.
Qed.

(** ** Case-fold tie-break *)

(** The pairs of the merge depend on the environment through the
    comparator and the case-folding switch only. *)
Lemma find_exact_ext E1 E2 s :
  (forall a b, names_cmp E1 s a b = names_cmp E2 s a b) ->
  forall g q, find_exact E1 s g q = find_exact E2 s g q.
Proof.
  intros H g q. induction q as [| x q IH]; simpl; [reflexivity |].
  rewrite H, IH. reflexivity.
Qed.

Lemma next_pair_ext E1 E2 s :
  ignore_file_name_case E1 = ignore_file_name_case E2 ->
  (forall a b, names_cmp E1 s a b = names_cmp E2 s a b) ->
  forall l r, next_pair E1 s l r = next_pair E2 s l r.
Proof.
  intros Hi H l r. destruct l as [| a la], r as [| b rb]; simpl; try reflexivity.
  rewrite H. unfold exact_first.
  rewrite Hi, !(find_exact_ext E1 E2 s H). reflexivity.
Qed.

Lemma merge_pairs_ext E1 E2 s :
  ignore_file_name_case E1 = ignore_file_name_case E2 ->
  (forall a b, names_cmp E1 s a b = names_cmp E2 s a b) ->
  forall fuel l r, merge_pairs E1 fuel s l r = merge_pairs E2 fuel s l r.
Proof.
  intros Hi H. induction fuel as [| f IH]; intros l r; simpl; [reflexivity |].
  rewrite (next_pair_ext E1 E2 s Hi H).
  destruct (next_pair E2 s l r) as [[[p l'] r'] |]; [| reflexivity].
  rewrite IH. reflexivity.
Qed.

Section TieBreak.

Variable E : env.

Lemma find_exact_first s g pre x post :
  Forall (fun y => names_cmp E s y g = 0 /\ file_name_cmp y g < 0) pre ->
  names_cmp E s x g = 0 ->
  file_name_cmp x g = 0 ->
  find_exact E s g (pre ++ x :: post) = Some (List.length pre).
Proof.
  intros Hpre Hx Hraw. induction pre as [| y pre IH]; simpl.
  - rewrite Hx, Hraw. reflexivity.
  - inversion Hpre as [| y' pre' [Hc Hr] Hrest]; subst.
    rewrite Hc. simpl.
    destruct (Z.leb_spec 0 (file_name_cmp y g)) as [Hge | _]; [lia |].
    rewrite (IH Hrest). reflexivity.
Qed.

Lemma remove_nth_middle (pre : list string) x post :
  remove_nth (List.length pre) (pre ++ x :: post) = pre ++ post.
Proof.
  unfold remove_nth. induction pre as [| y pre IH]; simpl; [reflexivity |].
  simpl in IH. rewrite IH. reflexivity.
Qed.

(** With case folding, the comparator under collation is the collation
    value. *)
Lemma names_cmp_folded a b :
  ignore_file_name_case E = true ->
  names_cmp E true a b = fst (strcasecoll E a b).
Proof.
  intros Hi. unfold names_cmp, collate. rewrite Hi.
  destruct (ignore_file_name_case E) eqn:Hi'; [| discriminate].
  destruct (fst (strcasecoll E a b) =? 0) eqn:Hd; simpl; [| reflexivity].
  apply Z.eqb_eq in Hd. rewrite Hd. reflexivity.
Qed.

(** C4.  With case folding on and no comparison failing.  Under the
    [strcasecmp] reading of [strcasecoll], with collation on, merging the
    table of "A", "b" with the table of "a", "B" hands over ("A","a") and
    then ("b","B") and nothing else.  In general, at a turn whose current
    names compare equal but differ as byte strings, if the side with the
    lesser name holds further on, within the names that compare equal to
    the greater name and that [file_name_cmp] puts before it, a name that
    is a [file_name_cmp] match of the greater name, then the pair handed
    over is the greater name with itself, and the lesser name stays at the
    head of its table for a later turn. *)
Theorem case_fold_tie_break (h : handler) (cmp : comparison) (w : world) :
  ignore_file_name_case E = true ->
  comparisons_safe E w ->
  (locale_specific_sorting w = true ->
   (forall a b, fst (strcasecoll E a b) = Libc.strcasecmp a b) ->
   total E h -> sorting_kept h ->
   forall v,
   exists fr w',
     merge_loop E 4 h cmp
       (mkframe (table ["A"; "b"]%string) (table ["a"; "B"]%string) v [] []) w
     = (Ret tt, fr, w')
     /\ delivered fr = [(Some "A", Some "a"); (Some "b", Some "B")]%string)
  /\ (forall a pre x post b rb,
        names_cmp E (locale_specific_sorting w) a b = 0 ->
        file_name_cmp a b < 0 ->
        Forall (fun y => names_cmp E (locale_specific_sorting w) y b = 0
                         /\ file_name_cmp y b < 0) pre ->
        names_cmp E (locale_specific_sorting w) x b = 0 ->
        file_name_cmp x b = 0 ->
        exists w1,
          compared E w w1
          /\ forall f v dl rt,
               merge_loop E (S f) h cmp
                 (mkframe (table (a :: pre ++ x :: post)) (table (b :: rb))
                    v dl rt) w
               = deliver E h cmp f (Some b, Some b) (a :: pre ++ post) rb
                   v dl rt w1)
  /\ (forall a la b pre x post,
        names_cmp E (locale_specific_sorting w) a b = 0 ->
        0 < file_name_cmp a b ->
        Forall (fun y => names_cmp E (locale_specific_sorting w) y a = 0
                         /\ file_name_cmp y a < 0) pre ->
        names_cmp E (locale_specific_sorting w) x a = 0 ->
        file_name_cmp x a = 0 ->
        exists w1,
          compared E w w1
          /\ forall f v dl rt,
               merge_loop E (S f) h cmp
                 (mkframe (table (a :: la)) (table (b :: pre ++ x :: post))
                    v dl rt) w
               = deliver E h cmp f (Some a, Some a) la (b :: pre ++ post)
                   v dl rt w1).
Proof.
  intros Hi Hsafe. splits.
  - (* the tables of the example *)
    intros Hon Hcoll Ht Hk v.
    destruct (merge_loop_total E h cmp Ht 4 ["A"; "b"]%string ["a"; "B"]%string
                v [] [] w Hsafe)
      as (fr & w' & ps & vs & Hrun & _ & _ & Hd & _ & _ & _ & _ & _ & _ & _ & _
          & Hps); [simpl; lia |].
    exists fr, w'. split; [exact Hrun |].
    destruct (Hps Hk) as [Hpairs _]. rewrite Hd, Hpairs, Hon.
    rewrite (merge_pairs_ext E (Sample.posix true None []) true).
    + reflexivity.
    + exact Hi.
    + intros a b. rewrite (names_cmp_folded a b Hi), Hcoll.
      unfold names_cmp, collate. simpl.
      destruct (Libc.strcasecmp a b =? 0); reflexivity.
  - (* the match is on the left *)
    intros a pre x post b rb Hab Hlt Hpre Hx Hraw.
    apply merge_loop_step; [exact Hsafe |].
    cbn [next_pair]. rewrite Hab. cbv zeta. cbn [Z.ltb Z.compare]. cbv iota.
    unfold exact_first. rewrite Hi.
    destruct (Z.eqb_spec (file_name_cmp a b) 0) as [Hz | _]; [lia |].
    destruct (Z.ltb_spec (file_name_cmp a b) 0) as [_ | Hge]; [| lia].
    rewrite (find_exact_first _ _ _ _ _ Hpre Hx Hraw), remove_nth_middle.
    reflexivity.
  - (* the match is on the right *)
    intros a la b pre x post Hab Hgt Hpre Hx Hraw.
    apply merge_loop_step; [exact Hsafe |].
    cbn [next_pair]. rewrite Hab. cbv zeta. cbn [Z.ltb Z.compare]. cbv iota.
    unfold exact_first. rewrite Hi.
    destruct (Z.eqb_spec (file_name_cmp a b) 0) as [Hz | _]; [lia |].
    destruct (Z.ltb_spec (file_name_cmp a b) 0) as [Hlt | _]; [lia |].
    rewrite (find_exact_first _ _ _ _ _ Hpre Hx Hraw), remove_nth_middle.
    reflexivity.
Qed.

End TieBreak.

Lemma case_fold_tie_break_witness :
  (exists fr w',
     merge_loop (Sample.posix true None Sample.fs_case) 4 Sample.leaf Sample.top
       (mkframe (table ["A"; "b"]%string) (table ["a"; "B"]%string) 0 [] [])
       Sample.w_after_diff
     = (Ret tt, fr, w')
     /\ delivered fr = [(Some "A", Some "a"); (Some "b", Some "B")]%string)
  /\ (exists w1,
        merge_loop (Sample.posix true None Sample.fs_case) 1 Sample.leaf
          Sample.top
          (mkframe (table ["A"; "a"]%string) (table ["a"]%string) 0 [] [])
          Sample.w_after_diff
        = deliver (Sample.posix true None Sample.fs_case) Sample.leaf
            Sample.top 0 (Some "a", Some "a")%string ["A"]%string [] 0 [] [] w1).
Proof.
  destruct (case_fold_tie_break (Sample.posix true None Sample.fs_case)
              Sample.leaf Sample.top Sample.w_after_diff eq_refl
              (or_introl (posix_collation_works true None Sample.fs_case)))
    as (H1 & H2 & _).
  split.
  - apply (H1 eq_refl (fun a b => eq_refl)
              (keeps_sorting_total _ _ leaf_keeps_sorting)
              (keeps_sorting_kept _ leaf_keeps_sorting)).
  - destruct (H2 "A" [] "a" [] "a" [])%string as (w1 & _ & Hstep).
    + reflexivity.
    + reflexivity.
    + constructor.
    + reflexivity.
    + reflexivity.
    + exists w1. apply Hstep.
Defined.

(** * Further properties of the code *)

(** ** The comparators *)

Section Comparators.

Variable E : env.

(** X1.  [compare_names] with collation off returns the [file_name_cmp]
    answer and touches nothing.  With collation on it fails exactly when
    the locale call leaves [errno] set, whatever [errno] held on entry; it
    then jumps after logging the collation call and one diagnostic that
    carries that [errno] and the two names, leaves that [errno] behind and
    changes neither of the two globals nor the allocator. *)
Theorem compare_names_outcome (name1 name2 : string) (w : world) :
  (locale_specific_sorting w = false ->
   compare_names E name1 name2 w = (Ret (file_name_cmp name1 name2), w))
  /\ (locale_specific_sorting w = true ->
      (fst (compare_names E name1 name2 w) = Longjmp
       <-> snd (collate E name1 name2) <> 0)
      /\ (snd (collate E name1 name2) <> 0 ->
          events (snd (compare_names E name1 name2 w))
          = events w
            ++ [Ev_collate (ignore_file_name_case E) name1 name2;
                Ev_diag (Cannot_compare (snd (collate E name1 name2))
                           name1 name2)]
          /\ errno (snd (compare_names E name1 name2 w))
             = snd (collate E name1 name2)
          /\ locale_specific_sorting (snd (compare_names E name1 name2 w))
             = true
          /\ failed_locale_specific_sorting
               (snd (compare_names E name1 name2 w))
             = failed_locale_specific_sorting w
          /\ heap (snd (compare_names E name1 name2 w)) = heap w)).
Proof.
  split.
  - intros Hoff. unfold compare_names. rewrite Hoff. reflexivity.
  - intros Hon.
    destruct (Z.eq_dec (snd (collate E name1 name2)) 0) as [Hz | Hnz].
    + split.
      * rewrite compare_names_ok by (right; exact Hz). simpl.
        split; [discriminate | intros H; contradiction].
      * intros H; contradiction.
    + assert (Hrun : compare_names E name1 name2 w
                     = (Longjmp,
                        emit (Ev_diag (Cannot_compare
                                (snd (collate E name1 name2)) name1 name2))
                          (set_errno (snd (collate E name1 name2))
                             (emit (Ev_collate (ignore_file_name_case E)
                                      name1 name2)
                                   (set_errno 0 w))))).
      { unfold compare_names. rewrite Hon. unfold bind.
        rewrite (compare_collated_fails E name1 name2 w Hnz). reflexivity. }
      rewrite Hrun. simpl. split.
      * split; [intros _; exact Hnz | reflexivity].
      * intros _. rewrite <- app_assoc. simpl. splits; auto.
Qed.

(** X2.  The order of the sort refines the order of the merge.  When no
    comparison can fail, [compare_names] and [compare_names_for_qsort]
    both return; whenever [compare_names] tells two names apart the sort
    comparator gives the same answer; without case folding the two always
    agree; and the sort comparator answers zero for identical names only,
    so that it separates even the names the merge pairs up. *)
Theorem sort_order_refines_merge_order (name1 name2 : string) (w : world) :
  comparisons_safe E w ->
  exists c c' w1 w2,
    compare_names E name1 name2 w = (Ret c, w1)
    /\ compare_names_for_qsort E (Some name1) (Some name2) w = (Ret c', w2)
    /\ (c <> 0 -> c' = c)
    /\ (ignore_file_name_case E = false -> c' = c)
    /\ (c' = 0 -> c = 0)
    /\ (c' = 0 -> C_string name1 -> C_string name2 -> name1 = name2).
Proof.
  intros Hsafe.
  pose proof (safe_collation E name1 name2 w Hsafe) as Hc.
  rewrite (compare_names_ok E name1 name2 w Hc).
  exists (names_cmp E (locale_specific_sorting w) name1 name2),
         (qsort_cmp E (locale_specific_sorting w) name1 name2).
  assert (Hq : exists w2,
             compare_names_for_qsort E (Some name1) (Some name2) w
             = (Ret (qsort_cmp E (locale_specific_sorting w) name1 name2), w2)).
  { unfold compare_names_for_qsort, qsort_cmp.
    destruct (locale_specific_sorting w) eqn:Hs.
    - destruct Hc as [Hc | Hc]; [discriminate |].
      unfold bind. rewrite (compare_collated_ok E _ _ _ Hc).
      destruct (negb (fst (collate E name1 name2) =? 0));
        eexists; reflexivity.
    - eexists; reflexivity. }
  destruct Hq as (w2 & Hq). eexists _, w2.
  split; [reflexivity |]. split; [exact Hq |].
  unfold names_cmp, qsort_cmp.
  destruct (locale_specific_sorting w).
  - destruct (Z.eqb_spec (fst (collate E name1 name2)) 0) as [Hd | Hd]; simpl.
    + destruct (ignore_file_name_case E); splits; auto; try lia;
        try discriminate;
        intros H0 H1 H2; apply strcmp_eq; assumption.
    + splits; auto; try lia; intros; lia.
  - splits; auto. intros H0 H1 H2. apply strcmp_eq; assumption.
Qed.

End Comparators.

Lemma compare_names_outcome_witness :
  compare_names (Sample.broken false []) "a" "b" Sample.w0
  = (Ret (file_name_cmp "a" "b"), Sample.w0)
  /\ events (snd (compare_names (Sample.broken false []) "a" "b"
                    Sample.w_after_diff))
     = [Ev_collate false "a" "b"; Ev_diag (Cannot_compare 84 "a" "b")]%string.
Proof.
  destruct (compare_names_outcome (Sample.broken false []) "a" "b" Sample.w0)
    as [H0 _].
  destruct (compare_names_outcome (Sample.broken false []) "a" "b"
              Sample.w_after_diff) as [_ H1].
  split; [apply H0; reflexivity |].
  destruct (H1 eq_refl) as [_ H2]. apply H2. discriminate.
Defined.

Lemma sort_order_refines_merge_order_witness :
  exists c c' w1 w2,
    compare_names (Sample.posix true None []) "A" "a" Sample.w_after_diff
    = (Ret c, w1)
    /\ compare_names_for_qsort (Sample.posix true None []) (Some "A"%string)
         (Some "a"%string) Sample.w_after_diff = (Ret c', w2)
    /\ (c <> 0 -> c' = c)
    /\ (ignore_file_name_case (Sample.posix true None []) = false -> c' = c)
    /\ (c' = 0 -> c = 0)
    /\ (c' = 0 -> C_string "A" -> C_string "a" -> "A"%string = "a"%string).
Proof.
  apply (sort_order_refines_merge_order (Sample.posix true None []) "A" "a"
           Sample.w_after_diff).
  left. apply posix_collation_works.
Defined.

(** ** ISDIGIT *)

(** X3.  For every [int] or [unsigned int] argument, negative ones
    included, [ISDIGIT] holds exactly for the codes of '0' to '9': the
    wrap-around of the unsigned subtraction sends everything below '0' far
    above 9. *)
Theorem ISDIGIT_exact (width c : Z) :
  8 <= width ->
  - 2 ^ (width - 1) <= c < 2 ^ width ->
  ISDIGIT width c = true <-> 48 <= c <= 57.
Proof.
  intros Hw Hc. unfold ISDIGIT, to_unsigned.
  assert (Hpow : 2 ^ width = 2 * 2 ^ (width - 1)).
  { replace width with (Z.succ (width - 1)) at 1 by lia.
    apply Z.pow_succ_r. lia. }
  assert (Hbig : 2 ^ 7 <= 2 ^ (width - 1))
    by (apply Z.pow_le_mono_r; lia).
  change (2 ^ 7) with 128 in Hbig.
  set (M := 2 ^ width) in *. set (H := 2 ^ (width - 1)) in *.
  rewrite (Z.mod_small 9 M) by lia.
  destruct (Z_lt_le_dec c 0) as [Hneg | Hpos].
  - (* a negative [int] *)
    assert (H1 : c mod M = c + M).
    { symmetry. apply (Z.mod_unique c M (-1) (c + M)); lia. }
    rewrite H1. rewrite (Z.mod_small (c + M - 48) M) by lia.
    rewrite Z.leb_le. lia.
  - rewrite (Z.mod_small c M) by lia.
    destruct (Z_lt_le_dec c 48) as [Hlow | Hhigh].
    + assert (H1 : (c - 48) mod M = c - 48 + M).
      { symmetry. apply (Z.mod_unique (c - 48) M (-1) (c - 48 + M)); lia. }
      rewrite H1, Z.leb_le. lia.
    + rewrite (Z.mod_small (c - 48) M) by lia.
      rewrite Z.leb_le. lia.
Qed.

Lemma ISDIGIT_exact_witness :
  (ISDIGIT 32 53 = true <-> 48 <= 53 <= 57)
  /\ (ISDIGIT 32 (-208) = true <-> 48 <= -208 <= 57).
Proof.
  split.
  - apply (ISDIGIT_exact 32 53); [lia | vm_compute; split; [discriminate | reflexivity]].
  - apply (ISDIGIT_exact 32 (-208)); [lia | vm_compute; split; [discriminate | reflexivity]].
Defined.

(** ** More on the directory reader *)

Lemma uchar_dot c : Libc.uchar c = 46 <-> c = "."%char.
Proof.
  split; [| intros ->; reflexivity].
  intros H. apply uchar_inj. rewrite H. reflexivity.
Qed.

(** The character test of [dir_read] singles out the two names it is
    after. *)
Lemma is_dot_or_dotdot_names n :
  C_string n ->
  is_dot_or_dotdot n = true <-> n = "."%string \/ n = ".."%string.
Proof.
  unfold is_dot_or_dotdot, byte_at.
  destruct n as [| c1 [| c2 [| c3 n]]]; simpl.
  - intros _. split; [discriminate | intros [H | H]; discriminate].
  - intros _. rewrite andb_true_r, Z.eqb_eq, uchar_dot.
    split; [intros ->; left; reflexivity |].
    intros [H | H]; [injection H as ->; reflexivity | discriminate].
  - intros (_ & H2 & _).
    apply Z.eqb_neq in H2. rewrite H2, andb_true_r. simpl.
    rewrite andb_true_iff, !Z.eqb_eq, !uchar_dot.
    split; [intros [-> ->]; right; reflexivity |].
    intros [H | H]; [discriminate | injection H as -> ->; split; reflexivity].
  - intros (_ & H2 & H3 & _).
    apply Z.eqb_neq in H2. apply Z.eqb_neq in H3. rewrite H2, H3.
    rewrite andb_false_r. simpl. rewrite andb_false_r.
    split; [discriminate | intros [H | H]; discriminate].
Qed.

Section ReaderMore.

Variable E : env.

(** X4.  The table a readable directory yields holds only names the
    stream handed out, never "." or "..", never an excluded name, and no
    name twice unless the stream repeats it; without a restart cursor it
    holds every other entry. *)
Theorem dir_read_table (parentdirfd : Z) (dir : file_data) (fd : Z)
    (stream : DIR) (e : Z) (startfile : option string) (only : bool)
    (w : world) :
  read_safe E startfile w ->
  desc dir <> NONEXISTENT E ->
  opens_as E parentdirfd dir fd ->
  os_fdopendir E fd = (Some stream, e) ->
  dir_errno stream = 0 ->
  Forall C_string (dir_entries stream) ->
  exists dir' d l w',
    dir_read E parentdirfd dir startfile only w = (Ret (true, dir', d), w')
    /\ cells_of d = table l
    /\ nnames d = List.length l
    /\ (forall n, In n l ->
          In n (dir_entries stream)
          /\ n <> "."%string /\ n <> ".."%string
          /\ excluded_file_name E n = false)
    /\ (startfile = None ->
        forall n, In n (dir_entries stream) ->
          n <> "."%string -> n <> ".."%string ->
          excluded_file_name E n = false -> In n l)
    /\ (NoDup (dir_entries stream) -> NoDup l).
Proof.
  intros Hsafe Hne Hopen Hdir Herr Hcs.
  destruct (dir_read_names E parentdirfd dir fd startfile only stream e w
              Hsafe Hne Hopen Hdir) as (dir' & d & w' & Hrun & Hn).
  rewrite Herr in Hrun. simpl in Hrun.
  destruct (Hn Herr) as [Hc Hl].
  exists dir', d,
    (filter (kept E (locale_specific_sorting w) startfile only)
       (dir_entries stream)), w'.
  split; [exact Hrun |].
  split; [exact Hc |]. split; [exact Hl |].
  rewrite Forall_forall in Hcs.
  splits.
  - intros n Hin. apply filter_In in Hin. destruct Hin as [Hin Hk].
    unfold kept in Hk.
    apply andb_prop in Hk. destruct Hk as [Hk Hex].
    apply andb_prop in Hk. destruct Hk as [Hdot _].
    pose proof (is_dot_or_dotdot_names n (Hcs n Hin)) as Hd.
    destruct (is_dot_or_dotdot n); [discriminate |].
    splits.
    + exact Hin.
    + intros Heq. assert (false = true) by (apply Hd; left; exact Heq).
      discriminate.
    + intros Heq. assert (false = true) by (apply Hd; right; exact Heq).
      discriminate.
    + destruct (excluded_file_name E n); [discriminate | reflexivity].
  - intros -> n Hin Hd1 Hd2 Hex. apply filter_In. split; [exact Hin |].
    unfold kept. rewrite Hex.
    pose proof (is_dot_or_dotdot_names n (Hcs n Hin)) as Hd.
    destruct (is_dot_or_dotdot n); [| reflexivity].
    destruct Hd as [Hd _]. destruct (Hd eq_refl); contradiction.
  - apply NoDup_filter.
Qed.

Lemma read_entries_errno fd startfile only entries final_errno :
  forall r w r' w',
  read_entries E fd startfile only entries final_errno r w = (Ret r', w') ->
  errno w' = final_errno.
Proof.
  induction entries as [| d_name rest IH]; intros r w r' w' H; simpl in H.
  - unfold bind, readdir in H. injection H as _ <-. reflexivity.
  - apply bind_inv in H. destruct H as (u & w1 & _ & H).
    apply bind_inv in H. destruct H as (r1 & w2 & _ & H).
    eapply IH. exact H.
Qed.

(** X5.  What [dir_read] does to [*dir] and [*dirdata], however the read
    goes.  It never changes the name or the [stat] data; a side known not
    to exist is left alone and read successfully; a descriptor that was
    open already is kept; after a successful read of an existing side the
    descriptor is open, it is the one the stored stream was made from,
    and the stream ended without error; after a failed read the table
    pointer is null and no name is counted. *)
Theorem dir_read_updates (parentdirfd : Z) (dir : file_data)
    (startfile : option string) (only : bool) (w : world)
    (ok : bool) (dir' : file_data) (d : dirdata) (w' : world) :
  dir_read E parentdirfd dir startfile only w = (Ret (ok, dir', d), w') ->
  name dir' = name dir
  /\ fstat dir' = fstat dir
  /\ (desc dir = NONEXISTENT E -> dir' = dir /\ ok = true)
  /\ (0 <= desc dir -> desc dir' = desc dir)
  /\ (ok = true -> desc dir <> NONEXISTENT E ->
      0 <= desc dir'
      /\ exists stream e,
           os_fdopendir E (desc dir') = (Some stream, e)
           /\ dirstream dir' = Some stream
           /\ dir_errno stream = 0)
  /\ (ok = false -> names d = None /\ nnames d = 0%nat).
Proof.
  unfold dir_read.
  destruct (Z.eqb_spec (desc dir) (NONEXISTENT E)) as [Hn | Hn].
  { unfold build_names, alloc. intros [= <- <- <- _].
    splits; auto; try discriminate; try (intros; contradiction); try (intros; lia). }
  intros H. apply bind_inv in H. destruct H as (opened & w1 & Hopen & H).
  assert (Hd : match opened with
               | Some (dirfd, dir1) =>
                   name dir1 = name dir /\ fstat dir1 = fstat dir
                   /\ desc dir1 = dirfd /\ 0 <= dirfd
                   /\ (0 <= desc dir -> dirfd = desc dir)
               | None => desc dir < 0
               end).
  { unfold open_directory in Hopen.
    destruct (Z.ltb_spec (desc dir) 0) as [Hlt | Hge].
    - destruct (os_openat E parentdirfd
                  (if parentdirfd <? 0 then name dir else last_component E (name dir))
                  (Z.lor (O_dir_flags E)
                     (if no_dereference_symlinks E then O_NOFOLLOW E else 0)))
        as [fd e].
      destruct (Z.ltb_spec fd 0) as [Hfd | Hfd]; injection Hopen as <- _; simpl.
      + exact Hlt.
      + splits; auto. lia.
    - injection Hopen as <- _. splits; auto. }
  destruct opened as [[dirfd dir1] |].
  2:{ injection H as <- <- <- _. simpl.
      splits; auto; try discriminate; try lia; try (intros; contradiction); try (intros; lia). }
  destruct Hd as (D1 & D2 & D3 & D4 & D5).
  unfold enumerate in H.
  destruct (os_fdopendir E dirfd) as [[stream |] e] eqn:Hdir.
  2:{ injection H as <- <- <- _. simpl.
      splits; auto; try discriminate; try (intros; contradiction); try (intros; lia). }
  destruct (alloc (emit (Ev_sys (Sys_fdopendir dirfd)) w1)) as [blk w2].
  apply bind_inv in H. destruct H as (r & w3 & Hread & H).
  pose proof (read_entries_errno _ _ _ _ _ _ _ _ _ Hread) as Herr.
  destruct (Z.eqb_spec (errno w3) 0) as [Hz | Hnz]; simpl in H.
  - unfold build_names, alloc in H. injection H as <- <- <- _. simpl.
    splits; auto; try discriminate; try lia; try (intros; contradiction); try (intros; lia).
    intros _ _. split; [lia |].
    exists stream, e. rewrite D3. splits; auto. congruence.
  - injection H as <- <- <- _. simpl.
    splits; auto; try discriminate; try lia; try (intros; contradiction); try (intros; lia).
Qed.

Lemma filter_out_blocks (B H : list nat) :
  (forall x, In x H -> ~ In x B) ->
  filter (fun x => negb (existsb (Nat.eqb x) B)) (B ++ H) = H.
Proof.
  intros Hdis. rewrite filter_app.
  rewrite filter_drops, filter_keeps; [reflexivity | |].
  - apply Forall_forall. intros x Hx.
    rewrite existsb_eqb_out; [reflexivity |].
    intros y Hy ->. exact (Hdis y Hx Hy).
  - apply Forall_forall. intros x Hx.
    rewrite existsb_eqb_in by exact Hx. reflexivity.
Qed.

(** X6.  Allocation and release balance.  On a well-formed heap, and with
    a restart cursor that cannot make a comparison fail, [dir_read]
    returns, and freeing [names] and [data] as its callers do gives back
    the heap as it was before the call: nothing leaks when the read
    succeeds, when it fails half way, or when the name buffer had to be
    regrown. *)
Theorem dir_read_release (parentdirfd : Z) (dir : file_data)
    (startfile : option string) (only : bool) (w : world) :
  heap_ok w ->
  read_safe E startfile w ->
  exists ok dir' d w',
    dir_read E parentdirfd dir startfile only w = (Ret (ok, dir', d), w')
    /\ heap w' = dirdata_blocks d ++ heap w
    /\ heap (release d w') = heap w.
Proof.
  intros Hok Hsafe.
  destruct (dir_read_returns E parentdirfd dir startfile only w Hsafe)
    as (ok & dir' & d & w' & evs & Hrun & _ & _ & _ & _ & _ & _ & _ & Hh & _).
  destruct (Hh Hok) as [H1 H2].
  exists ok, dir', d, w'. split; [exact Hrun |]. split; [exact H1 |].
  rewrite heap_release, H1. apply filter_out_blocks.
  intros x Hx Hb. unfold heap_ok in Hok.
  rewrite Forall_forall in Hok, H2.
  specialize (Hok x Hx). specialize (H2 x Hb). lia.
Qed.

Lemma packed_size_snoc l n :
  packed_size (l ++ [n]) = packed_size l + (Libc.strlen n + 1).
Proof.
  unfold packed_size. induction l as [| x l IH]; simpl; [lia |].
  rewrite IH. lia.
Qed.

Lemma read_entry_buffer startfile only d_name r w r' w' :
  read_entry E startfile only d_name r w = (Ret r', w') ->
  buffer_ok r -> buffer_ok r'.
Proof.
  unfold read_entry. intros H Hb.
  destruct (is_dot_or_dotdot d_name).
  { injection H as <- _. exact Hb. }
  apply bind_inv in H. destruct H as (skip & w1 & _ & H).
  destruct skip.
  { injection H as <- _. exact Hb. }
  destruct (excluded_file_name E d_name).
  { injection H as <- _. exact Hb. }
  apply bind_inv in H. destruct H as (r1 & w2 & Hgrow & H).
  injection H as <- _.
  destruct Hb as (B1 & B2 & B3).
  assert (Hlen : 0 <= Libc.strlen d_name)
    by (unfold Libc.strlen; apply Nat2Z.is_nonneg).
  destruct (Z.ltb_spec (data_alloc r - data_used r) (Libc.strlen d_name + 1))
    as [Hshort | Hroom].
  - apply bind_inv in Hgrow. destruct Hgrow as (ba & w3 & Hx & Hret).
    injection Hret as <- _.
    unfold xpalloc in Hx.
    destruct (alloc (free (Some (rd_data r)) w)) as [b w4] eqn:Ha.
    injection Hx as <- _.
    unfold buffer_ok. simpl. rewrite packed_size_snoc.
    splits; lia.
  - injection Hgrow as <- _.
    unfold buffer_ok. simpl. rewrite packed_size_snoc. splits; lia.
Qed.

(** X7.  The name buffer is never overrun.  Starting from the empty
    buffer of 512 bytes, whenever the reading loop returns, the bytes used
    are exactly the names kept so far, each with its terminating zero
    byte, and they fit the buffer as [xpalloc] has grown it. *)
Theorem read_entries_buffer (fd : Z) (startfile : option string)
    (only : bool) (entries : list string) (final_errno : Z) (blk : nat)
    (w : world) (r' : reader) (w' : world) :
  read_entries E fd startfile only entries final_errno
    (mkreader blk 512 0 []) w = (Ret r', w') ->
  data_used r' = packed_size (rd_names r')
  /\ 0 <= data_used r' <= data_alloc r'
  /\ 512 <= data_alloc r'.
Proof.
  assert (Hgen : forall l r w0 r0 w1,
            read_entries E fd startfile only l final_errno r w0 = (Ret r0, w1) ->
            buffer_ok r -> buffer_ok r0).
  { induction l as [| d_name rest IH]; intros r w0 r0 w1 H Hb; simpl in H.
    - unfold bind, readdir in H. injection H as <- _. exact Hb.
    - apply bind_inv in H. destruct H as (u & w2 & _ & H).
      apply bind_inv in H. destruct H as (r1 & w3 & Hone & H).
      eapply IH; [exact H |].
      eapply read_entry_buffer; [exact Hone | exact Hb]. }
  intros H. apply (Hgen _ _ _ _ _ H).
  unfold buffer_ok. simpl. splits; lia.
Qed.

End ReaderMore.

Lemma dir_read_table_witness :
  exists dir' d l w',
    dir_read (Sample.posix false None Sample.fs_disjoint) (-100)
      (Sample.unopened "L" 10) None false Sample.w0
    = (Ret (true, dir', d), w')
    /\ cells_of d = table l
    /\ nnames d = List.length l
    /\ (forall n, In n l -> n <> "."%string /\ n <> ".."%string)
    /\ In "a"%string l.
Proof.
  destruct (dir_read_table (Sample.posix false None Sample.fs_disjoint) (-100)
              (Sample.unopened "L" 10) 3
              (mkDIR ["."; ".."; "c"; "a"]%string 0) 0 None false Sample.w0)
    as (dir' & d & l & w' & Hrun & Hc & Hl & Hin & Hall & _).
  - left. reflexivity.
  - discriminate.
  - right. splits; [reflexivity | discriminate | reflexivity].
  - reflexivity.
  - reflexivity.
  - repeat (constructor; [vm_compute; repeat split; discriminate |]).
    constructor.
  - exists dir', d, l, w'. splits; auto.
    + intros n Hn. destruct (Hin n Hn) as (_ & H1 & H2 & _). split; assumption.
    + apply (Hall eq_refl); [simpl; auto | discriminate | discriminate |
                             reflexivity].
Defined.

Lemma dir_read_updates_witness :
  exists ok dir' d w',
    dir_read (Sample.posix false None Sample.fs_disjoint) (-100)
      (Sample.unopened "L" 10) None false Sample.w0
    = (Ret (ok, dir', d), w')
    /\ name dir' = "L"%string
    /\ fstat dir' = Sample.dir_stat 10.
Proof.
  destruct (dir_read (Sample.posix false None Sample.fs_disjoint) (-100)
              (Sample.unopened "L" 10) None false Sample.w0)
    as [[[[ok dir'] d] | | |] w'] eqn:H;
    try (vm_compute in H; discriminate).
  exists ok, dir', d, w'. split; [reflexivity |].
  destruct (dir_read_updates _ _ _ _ _ _ _ _ _ _ H) as (H1 & H2 & _).
  split; assumption.
Defined.

Lemma dir_read_release_witness :
  exists ok dir' d w',
    dir_read (Sample.posix false None Sample.fs_unreadable) (-100)
      (Sample.unopened "L" 10) None false Sample.w0
    = (Ret (ok, dir', d), w')
    /\ heap w' = dirdata_blocks d ++ heap Sample.w0
    /\ heap (release d w') = heap Sample.w0.
Proof.
  apply (dir_read_release (Sample.posix false None Sample.fs_unreadable) (-100)
           (Sample.unopened "L" 10) None false Sample.w0).
  - constructor.
  - left. reflexivity.
Defined.

Lemma read_entries_buffer_witness :
  exists r' w',
    read_entries (Sample.posix false None []) 3 None false
      ["a"; "bc"]%string 0 (mkreader 0 512 0 []) Sample.w0 = (Ret r', w')
    /\ data_used r' = packed_size (rd_names r')
    /\ 0 <= data_used r' <= data_alloc r'
    /\ 512 <= data_alloc r'.
Proof.
  destruct (read_entries (Sample.posix false None []) 3 None false
              ["a"; "bc"]%string 0 (mkreader 0 512 0 []) Sample.w0)
    as [[r' | | |] w'] eqn:H; try (vm_compute in H; discriminate).
  exists r', w'. split; [reflexivity |].
  apply (read_entries_buffer _ _ _ _ _ _ _ _ _ _ H).
Defined.

(** ** The allocator across [diff_dirs] *)

Lemma heap_kept_ret {A} (a : A) : heap_kept (ret a).
Proof. intros w. split; reflexivity. Qed.

Lemma heap_kept_undefined {A} : heap_kept (fun w => (@Undefined A, w)).
Proof. intros w. split; reflexivity. Qed.

Lemma heap_kept_bind {A B} (m : M A) (k : A -> M B) :
  heap_kept m -> (forall a, heap_kept (k a)) -> heap_kept (bind m k).
Proof.
  intros Hm Hk w. specialize (Hm w). unfold bind.
  destruct (m w) as [[a | | |] w1]; simpl in *; try exact Hm.
  destruct (Hk a w1) as [H1 H2]. destruct Hm as [H3 H4].
  split; congruence.
Qed.

Lemma heap_kept_if {A} (b : bool) (m1 m2 : M A) :
  heap_kept m1 -> heap_kept m2 -> heap_kept (if b then m1 else m2).
Proof. destruct b; auto. Qed.

Section Allocator.

Variable E : env.

Lemma heap_kept_compare_collated name1 name2 :
  heap_kept (compare_collated E name1 name2).
Proof.
  intros w. unfold compare_collated.
  destruct (if ignore_file_name_case E then strcasecoll E name1 name2
            else strcoll E name1 name2) as [r e].
  destruct (e =? 0); split; reflexivity.
Qed.

Lemma heap_kept_compare_names name1 name2 :
  heap_kept (compare_names E name1 name2).
Proof.
  intros w. unfold compare_names.
  destruct (locale_specific_sorting w); [| split; reflexivity].
  apply heap_kept_bind; [apply heap_kept_compare_collated |].
  intros diff. apply heap_kept_if; apply heap_kept_ret.
Qed.

Lemma heap_kept_compare_names_for_qsort c1 c2 :
  heap_kept (compare_names_for_qsort E c1 c2).
Proof.
  destruct c1 as [name1 |], c2 as [name2 |]; try apply heap_kept_undefined.
  intros w. unfold compare_names_for_qsort.
  destruct (locale_specific_sorting w); [| split; reflexivity].
  apply heap_kept_bind; [apply heap_kept_compare_collated |].
  intros diff. apply heap_kept_if; apply heap_kept_ret.
Qed.

Lemma heap_kept_qsort cells n : heap_kept (qsort E cells n).
Proof.
  assert (Hins : forall x l, heap_kept (qsort_insert E x l)).
  { intros x l. induction l as [| y l IH]; simpl; [apply heap_kept_ret |].
    apply heap_kept_bind; [apply heap_kept_compare_names_for_qsort |].
    intros c. apply heap_kept_if; [apply heap_kept_ret |].
    apply heap_kept_bind; [exact IH | intros; apply heap_kept_ret]. }
  assert (Hcells : forall l, heap_kept (qsort_cells E l)).
  { induction l as [| x l IH]; simpl; [apply heap_kept_ret |].
    apply heap_kept_bind; [exact IH | intros; apply Hins]. }
  unfold qsort. apply heap_kept_if; [| apply heap_kept_undefined].
  apply heap_kept_bind; [apply Hcells | intros; apply heap_kept_ret].
Qed.

Lemma heap_kept_scan_lesser g p : forall k, heap_kept (scan_lesser E g k p).
Proof.
  induction p as [| [q |] rest IH]; intros k; simpl.
  - apply heap_kept_undefined.
  - apply heap_kept_bind; [apply heap_kept_compare_names |].
    intros e. apply heap_kept_if; [| apply heap_kept_ret].
    apply heap_kept_if; [apply heap_kept_ret | apply IH].
  - apply heap_kept_ret.
Qed.

Lemma heap_kept_compare_heads fr : heap_kept (compare_heads E fr).
Proof.
  unfold compare_heads.
  apply heap_kept_bind.
  { destruct (hd None (names0 fr)) as [a |], (hd None (names1 fr)) as [b |];
      simpl; try apply heap_kept_ret. apply heap_kept_compare_names. }
  intros nameorder. apply heap_kept_bind; [| intros; apply heap_kept_ret].
  unfold prefer_exact. apply heap_kept_if; [| apply heap_kept_ret].
  destruct (names0 fr) as [| [a |] ?]; try apply heap_kept_undefined.
  destruct (names1 fr) as [| [b |] ?]; try apply heap_kept_undefined.
  apply heap_kept_if; [| apply heap_kept_ret].
  apply heap_kept_if;
    (apply heap_kept_bind; [apply heap_kept_scan_lesser |];
     intros [k |]; apply heap_kept_ret).
Qed.

Lemma merge_loop_heap h cmp :
  keeps_heap h ->
  forall fuel fr w,
  heap (snd (merge_loop E fuel h cmp fr w)) = heap w
  /\ next_block (snd (merge_loop E fuel h cmp fr w)) = next_block w.
Proof.
  intros Hh. induction fuel as [| f IH]; intros fr w; cbn [merge_loop].
  - destruct (at_end fr) as [[|] |]; split; reflexivity.
  - destruct (at_end fr) as [[|] |]; try (split; reflexivity).
    pose proof (heap_kept_compare_heads fr w) as Hc.
    destruct (compare_heads E fr w) as [[[nameorder [n0 n1]] | | |] w1];
      simpl in Hc; try exact Hc.
    unfold handed. cbn [fst snd].
    match goal with
    | |- context [h cmp ?a ?b ?w0] =>
        pose proof (Hh cmp a b w0) as Hcall;
        destruct (h cmp a b w0) as [[v1 | | |] w2]
    end; simpl in Hcall |- *;
      try (destruct Hc, Hcall; split; congruence).
    match goal with
    | |- context [merge_loop E f h cmp ?fr2 w2] =>
        destruct (IH fr2 w2) as [I1 I2]
    end.
    destruct Hc, Hcall. split; congruence.
Qed.

Lemma sort_and_merge_heap h cmp stamp nn0 nn1 :
  keeps_heap h ->
  forall fuel fr w,
  heap (snd (sort_and_merge E fuel stamp h cmp nn0 nn1 fr w)) = heap w
  /\ next_block (snd (sort_and_merge E fuel stamp h cmp nn0 nn1 fr w))
     = next_block w.
Proof.
  intros Hh. induction fuel as [| f IH]; intros fr w; cbn [sort_and_merge].
  - split; reflexivity.
  - cbv zeta.
    assert (Hres : forall fr' w',
              heap w' = heap w /\ next_block w' = next_block w ->
              heap (snd (if match failed_locale_specific_sorting w' with
                            | Some k => Nat.eqb k stamp
                            | None => false
                            end
                         then sort_and_merge E f stamp h cmp nn0 nn1 fr'
                                (set_sorting false w')
                         else (Longjmp, fr', w'))) = heap w
              /\ next_block
                   (snd (if match failed_locale_specific_sorting w' with
                            | Some k => Nat.eqb k stamp
                            | None => false
                            end
                         then sort_and_merge E f stamp h cmp nn0 nn1 fr'
                                (set_sorting false w')
                         else (Longjmp, fr', w'))) = next_block w).
    { intros fr' w' [H1 H2].
      destruct (match failed_locale_specific_sorting w' with
                | Some k => Nat.eqb k stamp
                | None => false
                end); [| simpl; split; assumption].
      destruct (IH fr' (set_sorting false w')) as [I1 I2].
      simpl in I1, I2. split; congruence. }
    pose proof (heap_kept_qsort (names0 fr) nn0 w) as H0.
    destruct (qsort E (names0 fr) nn0 w) as [[s0 | | |] w1]; simpl in H0;
      try exact H0.
    2:{ apply Hres. exact H0. }
    cbn [names1].
    pose proof (heap_kept_qsort (names1 fr) nn1 w1) as H1.
    destruct (qsort E (names1 fr) nn1 w1) as [[s1 | | |] w2]; simpl in H1;
      try (simpl; destruct H0, H1; split; congruence).
    2:{ apply Hres. destruct H0, H1. split; congruence. }
    match goal with
    | |- context [merge_loop E ?n h cmp ?fr2 w2] =>
        pose proof (merge_loop_heap h cmp Hh n fr2 w2) as M;
        destruct (merge_loop E n h cmp fr2 w2) as [[o fr3] w3]
    end.
    simpl in M.
    assert (Hw3 : heap w3 = heap w /\ next_block w3 = next_block w)
      by (destruct H0, H1, M; split; congruence).
    destruct o; try exact Hw3.
    apply Hres. exact Hw3.
Qed.

(** X8.  [diff_dirs] gives back what it allocates.  On a well-formed
    heap, with a restart cursor that cannot make a comparison fail while
    the directories are read and a handler that leaves the allocator as it
    found it, every return of [diff_dirs] leaves the heap as it was at the
    call: after the loop report, after a failed read, and after the merge,
    also when a collation failure made it start over. *)
Theorem diff_dirs_frees (h : handler) (cmp : comparison) (w : world)
    (r : diff_result) (w' : world) :
  heap_ok w ->
  read_safe E (cursor_of E cmp) w ->
  keeps_heap h ->
  diff_dirs E h cmp w = (Ret r, w') ->
  heap w' = heap w.
Proof.
  intros Hok Hsafe Hh.
  destruct (loop_guard E cmp) eqn:Hg.
  { unfold diff_dirs. unfold loop_guard in Hg. rewrite Hg.
    intros [= _ <-]. reflexivity. }
  destruct (dir_read_returns E (parent_desc E cmp 0) (file cmp 0)
              (cursor_of E cmp) false (snd (new_activation w)))
    as (ok0 & f0 & d0 & w1 & ev0 & H0 & _ & A1 & _ & _ & _ & _ & _ & A2 & A3 & _).
  { destruct Hsafe as [Hs | [Hs | Hs]];
      [left; exact Hs | right; left; exact Hs | right; right; exact Hs]. }
  destruct (A2 Hok) as [A4 A5]. simpl in A3, A4, A5.
  assert (Hok1 : heap_ok (after_read ok0 f0 w1)).
  { unfold heap_ok. unfold after_read.
    assert (Hw1 : Forall (fun b => (b < next_block w1)%nat) (heap w1)).
    { rewrite A4. apply Forall_app. split.
      - eapply Forall_impl; [| exact A5]. simpl. intros; lia.
      - eapply Forall_impl; [| exact Hok]. simpl. intros; lia. }
    destruct ok0; exact Hw1. }
  destruct (dir_read_returns E (parent_desc E cmp 1) (file cmp 1)
              (cursor_of E cmp) false (after_read ok0 f0 w1))
    as (ok1 & f1 & d1 & w2 & ev1 & H1 & _ & _ & _ & _ & _ & _ & _ & B2 & B3 & _).
  { destruct Hsafe as [Hs | [Hs | Hs]];
      [left; exact Hs | right; left; exact Hs |].
    right. right. unfold after_read. destruct ok0; simpl; rewrite A1; exact Hs. }
  destruct (B2 Hok1) as [B4 B5].
  assert (Hnb : next_block (after_read ok0 f0 w1) = next_block w1)
    by (unfold after_read; destruct ok0; reflexivity).
  assert (Hhp : heap (after_read ok0 f0 w1) = heap w1)
    by (unfold after_read; destruct ok0; reflexivity).
  rewrite Hnb in B3, B5. rewrite Hhp in B4.
  (* the heap once both tables are released *)
  assert (Hrel : forall w3,
            heap w3 = heap w2 ->
            heap (release d1 (release d0 w3)) = heap w).
  { intros w3 Hw3.
    rewrite !heap_release, Hw3, B4, A4.
    rewrite Forall_forall in A5, B5.
    unfold heap_ok in Hok. rewrite Forall_forall in Hok.
    assert (Hin : filter (fun x => negb (existsb (Nat.eqb x) (dirdata_blocks d0)))
                    (dirdata_blocks d1 ++ dirdata_blocks d0 ++ heap w)
                  = dirdata_blocks d1 ++ heap w).
    { rewrite filter_app. f_equal.
      - apply filter_keeps. apply Forall_forall. intros x Hx.
        rewrite existsb_eqb_out; [reflexivity |].
        intros y Hy ->. specialize (A5 y Hy). specialize (B5 y Hx). lia.
      - apply filter_out_blocks.
        intros x Hx Hb. specialize (Hok x Hx). specialize (A5 x Hb). lia. }
    rewrite Hin. apply filter_out_blocks.
    intros x Hx Hb. specialize (Hok x Hx). specialize (B5 x Hb). lia. }
  rewrite (diff_dirs_reads E h cmp w ok0 f0 d0 w1 ok1 f1 d1 w2 Hg H0 H1).
  unfold after_reads.
  assert (Hw2 : heap (after_read ok1 f1 w2) = heap w2)
    by (unfold after_read; destruct ok1; reflexivity).
  destruct (ok0 && ok1).
  - match goal with
    | |- context [sort_and_merge E ?fu ?st h ?c ?n0 ?n1 ?fr ?w0] =>
        destruct (sort_and_merge_heap h c st n0 n1 Hh fu fr w0) as [S1 _];
        destruct (sort_and_merge E fu st h c n0 n1 fr w0) as [[o fr'] w3]
    end.
    simpl in S1.
    destruct o; try discriminate.
    intros [= _ <-]. apply Hrel. rewrite S1. exact Hw2.
  - intros [= _ <-]. apply Hrel. exact Hw2.
Qed.

End Allocator.

Lemma leaf_keeps_heap : keeps_heap Sample.leaf.
Proof. intros cmp a b w. split; reflexivity. Qed.

Lemma diff_dirs_frees_witness :
  exists r w',
    diff_dirs (Sample.posix false None Sample.fs_disjoint) Sample.leaf
      Sample.top Sample.w0 = (Ret r, w')
    /\ heap w' = heap Sample.w0.
Proof.
  destruct (diff_dirs (Sample.posix false None Sample.fs_disjoint) Sample.leaf
              Sample.top Sample.w0) as [[r | | |] w'] eqn:H;
    try (vm_compute in H; discriminate).
  exists r, w'. split; [reflexivity |].
  apply (diff_dirs_frees (Sample.posix false None Sample.fs_disjoint)
           Sample.leaf Sample.top Sample.w0 r w'); auto.
  - constructor.
  - left. reflexivity.
  - apply leaf_keeps_heap.
Defined.

(** ** From the two listings to the pairs *)

Section Listing.

Variable E : env.

Lemma insert_name_perm s x l : Permutation (insert_name E s x l) (x :: l).
Proof.
  induction l as [| y l IH]; simpl; [reflexivity |].
  destruct (qsort_cmp E s x y <=? 0); [reflexivity |].
  rewrite IH. apply perm_swap.
Qed.

Lemma sort_names_perm s l : Permutation (sort_names E s l) l.
Proof.
  induction l as [| x l IH]; simpl; [reflexivity |].
  rewrite insert_name_perm, IH. reflexivity.
Qed.

Lemma sort_names_length s l : List.length (sort_names E s l) = List.length l.
Proof. apply Permutation_length, sort_names_perm. Qed.

(** With answers that are consistent on the names at hand, as [qsort]
    asks, the table is in ascending order throughout. *)
Lemma consistent_gt s dom a b :
  consistent_on E s dom -> In a dom -> In b dom ->
  0 < qsort_cmp E s a b -> sort_le E s b a.
Proof.
  intros [Hanti _] Ha Hb Hgt. unfold sort_le.
  pose proof (Hanti a b Ha Hb) as H.
  rewrite (Z.sgn_pos (qsort_cmp E s a b)) in H by exact Hgt.
  destruct (Z.sgn_spec (qsort_cmp E s b a)) as [[? ?] | [[? ?] | [? ?]]]; lia.
Qed.

Lemma insert_name_strongly s dom x l :
  consistent_on E s dom -> In x dom -> incl l dom ->
  StronglySorted (sort_le E s) l ->
  StronglySorted (sort_le E s) (insert_name E s x l).
Proof.
  intros Hc Hx. induction l as [| y l IH]; intros Hin Hs; simpl.
  - constructor; constructor.
  - inversion Hs as [| y' l' Hs' Hall]; subst.
    assert (Hy : In y dom) by (apply Hin; left; reflexivity).
    assert (Hl : incl l dom) by (intros z Hz; apply Hin; right; exact Hz).
    destruct (Z.leb_spec (qsort_cmp E s x y) 0) as [Hle | Hgt].
    + constructor; [exact Hs |]. constructor; [exact Hle |].
      rewrite Forall_forall in *. intros z Hz.
      destruct Hc as [_ Htr].
      apply (Htr x y z); auto.
    + constructor; [apply IH; assumption |].
      eapply Permutation_Forall;
        [symmetry; apply insert_name_perm |].
      constructor; [| exact Hall].
      apply (consistent_gt s dom x y); assumption.
Qed.

Lemma sort_names_strongly s dom l :
  consistent_on E s dom -> incl l dom ->
  StronglySorted (sort_le E s) (sort_names E s l).
Proof.
  intros Hc. induction l as [| x l IH]; intros Hin; simpl; [constructor |].
  apply (insert_name_strongly s dom).
  - exact Hc.
  - apply Hin. left. reflexivity.
  - intros z Hz. apply Hin. right.
    eapply Permutation_in; [apply sort_names_perm | exact Hz].
  - apply IH. intros z Hz. apply Hin. right. exact Hz.
Qed.

Lemma sorted_strongly s dom l :
  consistent_on E s dom -> incl l dom ->
  Sorted (sort_le E s) l -> StronglySorted (sort_le E s) l.
Proof.
  intros Hc. induction l as [| a l IH]; intros Hin Hs; [constructor |].
  inversion Hs as [| a' l' Hs' Hhd]; subst.
  assert (Hl : incl l dom) by (intros z Hz; apply Hin; right; exact Hz).
  pose proof (IH Hl Hs') as Hss.
  constructor; [exact Hss |].
  destruct l as [| b l]; [constructor |].
  inversion Hhd; subst. inversion Hss as [| b' l' _ Hall]; subst.
  constructor; [assumption |].
  rewrite Forall_forall in *. intros z Hz. destruct Hc as [_ Htr].
  apply (Htr a b z); auto.
  - apply Hin. left. reflexivity.
  - apply Hin. right. left. reflexivity.
  - apply Hin. right. right. exact Hz.
Qed.

(** Two names the comparison function calls equal are one name: its last
    word is [file_name_cmp]'s. *)
Lemma qsort_cmp_equal s a b :
  C_string a -> C_string b -> qsort_cmp E s a b = 0 -> a = b.
Proof.
  intros Ha Hb. unfold qsort_cmp, file_name_cmp.
  destruct s; [| apply strcmp_eq; assumption].
  cbv zeta.
  destruct (Z.eqb_spec (fst (collate E a b)) 0) as [H0 | H0]; simpl.
  - apply strcmp_eq; assumption.
  - intros H. contradiction.
Qed.

(** So a listing has one sorted arrangement only. *)
Lemma sorted_unique s dom :
  consistent_on E s dom -> Forall C_string dom ->
  forall l1 l2,
  incl l1 dom -> Permutation l1 l2 ->
  StronglySorted (sort_le E s) l1 -> StronglySorted (sort_le E s) l2 ->
  l1 = l2.
Proof.
  intros Hc Hstr. induction l1 as [| a t1 IH]; intros l2 Hin Hp H1 H2.
  - apply Permutation_nil in Hp. symmetry. exact Hp.
  - destruct l2 as [| b t2].
    { apply Permutation_sym, Permutation_nil in Hp. discriminate. }
    inversion H1 as [| a' t1' S1 A1]; subst.
    inversion H2 as [| b' t2' S2 A2]; subst.
    rewrite Forall_forall in A1, A2, Hstr.
    assert (Ha : In a dom) by (apply Hin; left; reflexivity).
    assert (Hb : In b dom).
    { apply Hin. eapply Permutation_in; [symmetry; exact Hp |].
      left. reflexivity. }
    assert (Hab : a = b).
    { assert (L1 : a = b \/ sort_le E s a b).
      { assert (Hb1 : In b (a :: t1))
          by (eapply Permutation_in; [symmetry; exact Hp | left; reflexivity]).
        destruct Hb1 as [-> | Hb1]; [left; reflexivity |].
        right. apply A1. exact Hb1. }
      assert (L2 : a = b \/ sort_le E s b a).
      { assert (Ha2 : In a (b :: t2))
          by (eapply Permutation_in; [exact Hp | left; reflexivity]).
        destruct Ha2 as [-> | Ha2]; [left; reflexivity |].
        right. apply A2. exact Ha2. }
      destruct L1 as [-> | L1]; [reflexivity |].
      destruct L2 as [-> | L2]; [reflexivity |].
      apply (qsort_cmp_equal s); [apply Hstr; exact Ha | apply Hstr; exact Hb |].
      destruct Hc as [Hanti _]. pose proof (Hanti a b Ha Hb) as H.
      unfold sort_le in L1, L2.
      destruct (Z.sgn_spec (qsort_cmp E s a b)) as [[? ?] | [[? ?] | [? ?]]];
      destruct (Z.sgn_spec (qsort_cmp E s b a)) as [[? ?] | [[? ?] | [? ?]]];
      lia. }
    subst b. f_equal.
    apply IH; [| eapply Permutation_cons_inv; exact Hp | exact S1 | exact S2].
    intros z Hz. apply Hin. right. exact Hz.
Qed.

Lemma compare_names_for_qsort_ok name1 name2 w :
  locale_specific_sorting w = false \/ snd (collate E name1 name2) = 0 ->
  compare_names_for_qsort E (Some name1) (Some name2) w
  = (Ret (qsort_cmp E (locale_specific_sorting w) name1 name2),
     compared_world E name1 name2 w).
Proof.
  unfold compare_names_for_qsort, qsort_cmp, compared_world.
  destruct (locale_specific_sorting w) eqn:Hs.
  - intros [H | H]; [discriminate |].
    unfold bind. rewrite (compare_collated_ok E _ _ _ H).
    destruct (negb (fst (collate E name1 name2) =? 0)); reflexivity.
  - intros _. reflexivity.
Qed.

Lemma qsort_insert_pure x l :
  forall w, comparisons_safe E w ->
  exists w',
    qsort_insert E (Some x) (map Some l) w
    = (Ret (map Some (insert_name E (locale_specific_sorting w) x l)), w')
    /\ compared E w w'.
Proof.
  induction l as [| y l IH]; intros w Hsafe; cbn [qsort_insert map insert_name].
  - exists w. split; [reflexivity | apply compared_refl; exact Hsafe].
  - unfold bind at 1.
    rewrite compare_names_for_qsort_ok by (apply safe_collation; exact Hsafe).
    destruct (qsort_cmp E (locale_specific_sorting w) x y <=? 0).
    + eexists. split; [reflexivity | apply compared_step; exact Hsafe].
    + destruct (IH (compared_world E x y w) (compared_world_safe E x y w Hsafe))
        as (w' & Hrun & Hcmp).
      destruct (compared_world_fields E x y w) as [Fs _]. rewrite Fs in Hrun.
      unfold bind. rewrite Hrun. eexists. split; [reflexivity |].
      eapply compared_trans; [apply compared_step; exact Hsafe | exact Hcmp].
Qed.

Lemma qsort_cells_pure l :
  forall w, comparisons_safe E w ->
  exists w',
    qsort_cells E (map Some l) w
    = (Ret (map Some (sort_names E (locale_specific_sorting w) l)), w')
    /\ compared E w w'.
Proof.
  induction l as [| x l IH]; intros w Hsafe; cbn [qsort_cells map sort_names].
  - exists w. split; [reflexivity | apply compared_refl; exact Hsafe].
  - destruct (IH w Hsafe) as (w1 & Hrun & Hcmp).
    unfold bind. rewrite Hrun.
    pose proof Hcmp as (C1 & C2 & _).
    destruct (qsort_insert_pure x (sort_names E (locale_specific_sorting w) l)
                w1 C1) as (w2 & Hins & Hcmp2).
    rewrite C2 in Hins. rewrite Hins. exists w2. split; [reflexivity |].
    eapply compared_trans; [exact Hcmp | exact Hcmp2].
Qed.

Lemma qsort_pure l w :
  comparisons_safe E w ->
  exists w',
    qsort E (table l) (List.length l) w
    = (Ret (table (sort_names E (locale_specific_sorting w) l)), w')
    /\ compared E w w'.
Proof.
  intros Hsafe. unfold qsort.
  destruct (table_split l) as (T1 & T2 & T3).
  rewrite T1, T2, T3. unfold bind.
  destruct (qsort_cells_pure l w Hsafe) as (w1 & Hs & Hcmp).
  rewrite Hs. exists w1. split; [reflexivity | exact Hcmp].
Qed.

(** Sorting and merging two whole tables when no comparison can fail: the
    loop runs on the two sorted tables. *)
Lemma sort_and_merge_sorts h cmp stamp fuel l0 l1 v dl rt w :
  comparisons_safe E w ->
  exists w2,
    sort_and_merge E (S fuel) stamp h cmp (List.length l0) (List.length l1)
      (mkframe (table l0) (table l1) v dl rt) w
    = match merge_loop E (S (List.length l0) + S (List.length l1)) h cmp
              (mkframe (table (sort_names E (locale_specific_sorting w) l0))
                       (table (sort_names E (locale_specific_sorting w) l1))
                       v dl rt) w2 with
      | (Longjmp, fr3, w3) =>
          if match failed_locale_specific_sorting w3 with
             | Some k => Nat.eqb k stamp
             | None => false
             end
          then sort_and_merge E fuel stamp h cmp (List.length l0)
                 (List.length l1) fr3 (set_sorting false w3)
          else (Longjmp, fr3, w3)
      | res => res
      end
    /\ compared E w w2.
Proof.
  intros Hsafe.
  destruct (qsort_pure l0 w Hsafe) as (w1 & Hq0 & Hc1).
  pose proof Hc1 as (S1 & F1 & _).
  destruct (qsort_pure l1 w1 S1) as (w2 & Hq1 & Hc2).
  rewrite F1 in Hq1.
  exists w2. split; [| eapply compared_trans; eassumption].
  cbn [sort_and_merge names0 names1 val delivered returned].
  rewrite Hq0. cbn [names1]. rewrite Hq1.
  unfold table. rewrite !length_app, !length_map, !sort_names_length.
  simpl List.length. rewrite !Nat.add_1_r.
  reflexivity.
Qed.

End Listing.

Section Pairs.

Variable E : env.

Lemma side_listing_C_string cmp i w l :
  side_listing E cmp i w l -> Forall C_string l.
Proof.
  intros [[_ ->] | (_ & fd & stream & e & _ & _ & _ & Hcs & ->)].
  - constructor.
  - apply Forall_forall. intros n Hn. apply filter_In in Hn.
    rewrite Forall_forall in Hcs. apply Hcs. apply Hn.
Qed.

(** A side with a listing is read successfully, into the table of the
    listing. *)
Lemma side_reads cmp i w l w0 :
  side_listing E cmp i w l ->
  read_safe E (cursor_of E cmp) w0 ->
  locale_specific_sorting w0 = locale_specific_sorting w ->
  exists f d w',
    dir_read E (parent_desc E cmp i) (file cmp i) (cursor_of E cmp) false w0
    = (Ret (true, f, d), w')
    /\ cells_of d = table l
    /\ nnames d = List.length l
    /\ locale_specific_sorting w' = locale_specific_sorting w
    /\ exists evs,
         events w' = events w0 ++ evs
         /\ forallb is_reading_event evs = true
         /\ (cursor_of E cmp = None -> forallb is_syscall evs = true).
Proof.
  intros Hside Hsafe Hflag.
  destruct (dir_read_returns E (parent_desc E cmp i) (file cmp i)
              (cursor_of E cmp) false w0 Hsafe)
    as (ok & f & d & w' & evs & Hrun & _ & Hf & _ & _ & Hev & Hrd & Hsys & _).
  assert (Hevs : exists evs0,
            events w' = events w0 ++ evs0
            /\ forallb is_reading_event evs0 = true
            /\ (cursor_of E cmp = None -> forallb is_syscall evs0 = true)).
  { exists evs. splits; auto. }
  destruct Hside as [[Hn ->] | (Hn & fd & stream & e & Hopen & Hdir & Herr & _ & ->)].
  - unfold dir_read in *. rewrite Hn, Z.eqb_refl in *.
    unfold build_names, alloc in *. injection Hrun as <- <- <- <-.
    eexists _, _, _. split; [reflexivity |]. simpl. splits; auto.
  - destruct (dir_read_names E (parent_desc E cmp i) (file cmp i) fd
                (cursor_of E cmp) false stream e w0 Hsafe Hn Hopen Hdir)
      as (f2 & d2 & w2 & Hrun2 & Hnames).
    rewrite Hrun in Hrun2. rewrite Herr in Hrun2. simpl in Hrun2.
    injection Hrun2 as -> -> -> ->.
    destruct (Hnames Herr) as [Hc Hl]. rewrite Hflag in Hc, Hl.
    exists f2, d2, w2. split; [exact Hrun |]. splits; auto. congruence.
Qed.

(** What [diff_dirs] does once both reads have succeeded, when the locale
    subsystem reports no error and the handler returns: it sorts the two
    tables, which logs collation calls only, then calls the handler on
    each pair of the result, in order, and the values of the result are
    what the calls returned. *)
Lemma after_reads_pairs h cmp1 stamp d0 d1 l0 l1 w :
  collation_works E ->
  total E h ->
  cells_of d0 = table l0 -> nnames d0 = List.length l0 ->
  cells_of d1 = table l1 -> nnames d1 = List.length l1 ->
  exists r w',
    after_reads E h cmp1 stamp true d0 d1 w = (Ret r, w')
    /\ cmp_after r = cmp1
    /\ List.length (handler_values r) = List.length (pairs r)
    /\ status r = max_status (handler_values r)
    /\ (Forall C_string l0 -> Forall C_string l1 ->
        run_permuted (comparator_equal E) (sort_names E true l0)
          (lefts (pairs r))
        /\ run_permuted (comparator_equal E) (sort_names E true l1)
             (rights (pairs r)))
    /\ (List.length (pairs r) <= List.length l0 + List.length l1)%nat
    /\ Forall (fun p => p <> (None, None)) (pairs r)
    /\ (ignore_file_name_case E = false ->
        lefts (pairs r) = sort_names E true l0
        /\ rights (pairs r) = sort_names E true l1)
    /\ (sorting_kept h ->
        pairs r = merge_pairs E (S (List.length l0) + S (List.length l1)) true
                    (sort_names E true l0) (sort_names E true l1))
    /\ exists wm wm' evs,
         events wm = events w ++ evs
         /\ forallb is_collation evs = true
         /\ handler_calls E h cmp1 wm (pairs r) (handler_values r) wm'
         /\ events w' = events wm'.
Proof.
  intros Hcw Ht Hc0 Hn0 Hc1 Hn1.
  unfold after_reads. rewrite Hc0, Hc1, Hn0, Hn1.
  set (w3 := set_jmp (Some stamp) (set_sorting true w)).
  destruct (sort_and_merge_sorts E h cmp1 stamp
              (S (List.length l0 + List.length l1))
              l0 l1 EXIT_SUCCESS [] [] w3) as (w4 & Hrun & Hcmp).
  { left. exact Hcw. }
  rewrite Hrun. clear Hrun.
  change (locale_specific_sorting w3) with true.
  destruct Hcmp as (_ & Hflag & _ & _ & _ & _ & _ & evc & Hevc & Hcoll).
  change (locale_specific_sorting w3) with true in Hflag.
  pose proof (sort_names_perm E true l0) as P0.
  pose proof (sort_names_perm E true l1) as P1.
  destruct (merge_loop_total E h cmp1 Ht
              (S (List.length l0) + S (List.length l1))
              (sort_names E true l0) (sort_names E true l1)
              EXIT_SUCCESS [] [] w4)
    as (fr & w5 & ps & vs & Hloop & _ & _ & Hd & Hr & Hlen & Hval & Hperm
        & Hbound & Hnn & Hcase & _ & Hpure).
  { left. exact Hcw. }
  { rewrite !sort_names_length. lia. }
  destruct (merge_loop_calls E h cmp1 Ht
              (S (List.length l0) + S (List.length l1))
              (sort_names E true l0) (sort_names E true l1)
              EXIT_SUCCESS [] [] w4 fr w5) as (ps' & vs' & Hd' & Hr' & Hcalls).
  { left. exact Hcw. }
  { rewrite !sort_names_length. lia. }
  { exact Hloop. }
  simpl in Hd', Hr'. rewrite <- Hd', <- Hr' in Hcalls.
  rewrite Hloop.
  eexists _, _. split; [reflexivity |].
  cbn [status pairs handler_values cmp_after].
  simpl in Hd, Hr. rewrite Hd, Hr in *.
  rewrite !sort_names_length in Hbound.
  split; [reflexivity |].
  split; [exact Hlen |]. split; [exact Hval |].
  split.
  { intros C0 C1. apply Hperm.
    - eapply Permutation_Forall; [symmetry; exact P0 | exact C0].
    - eapply Permutation_Forall; [symmetry; exact P1 | exact C1]. }
  split; [exact Hbound |]. split; [exact Hnn |]. split; [exact Hcase |].
  split.
  { intros Hk. destruct (Hpure Hk) as [-> _]. rewrite Hflag. reflexivity. }
  exists w4, w5, evc.
  destruct (release_keeps d1 (release d0 w5)) as [R1 _].
  destruct (release_keeps d0 w5) as [R2 _].
  splits.
  - rewrite Hevc. reflexivity.
  - exact Hcoll.
  - exact Hcalls.
  - rewrite R1, R2. reflexivity.
Qed.

(** What [diff_dirs] hands over, given the listings of the two sides, when
    the locale subsystem reports no error and the handler returns: after
    the reads and the sort, which log system calls and collation calls
    only, the handler is called on each pair of the result, in order, and
    the values of the result are what it returned. *)
Lemma diff_dirs_pairs h cmp w l0 l1 :
  loop_guard E cmp = false ->
  collation_works E ->
  total E h ->
  side_listing E cmp 0 w l0 ->
  side_listing E cmp 1 w l1 ->
  exists r w',
    diff_dirs E h cmp w = (Ret r, w')
    /\ List.length (handler_values r) = List.length (pairs r)
    /\ status r = max_status (handler_values r)
    /\ run_permuted (comparator_equal E) (sort_names E true l0)
         (lefts (pairs r))
    /\ run_permuted (comparator_equal E) (sort_names E true l1)
         (rights (pairs r))
    /\ (List.length (pairs r) <= List.length l0 + List.length l1)%nat
    /\ Forall (fun p => p <> (None, None)) (pairs r)
    /\ (ignore_file_name_case E = false ->
        lefts (pairs r) = sort_names E true l0
        /\ rights (pairs r) = sort_names E true l1)
    /\ (sorting_kept h ->
        pairs r = merge_pairs E (S (List.length l0) + S (List.length l1)) true
                    (sort_names E true l0) (sort_names E true l1))
    /\ hands_over E h w r w'.
Proof.
  intros Hg Hcw Ht Hs0 Hs1.
  assert (Hsafe : forall w0, read_safe E (cursor_of E cmp) w0)
    by (intros w0; right; left; exact Hcw).
  destruct (side_reads cmp 0 w l0 (snd (new_activation w)) Hs0 (Hsafe _) eq_refl)
    as (f0 & d0 & w1 & H0 & Hc0 & Hn0 & Hf0 & ev0 & He0 & Hr0 & _).
  destruct (side_reads cmp 1 w l1 (after_read true f0 w1) Hs1 (Hsafe _) Hf0)
    as (f1 & d1 & w2 & H1 & Hc1 & Hn1 & Hf1 & ev1 & He1 & Hr1 & _).
  rewrite (diff_dirs_reads E h cmp w true f0 d0 w1 true f1 d1 w2 Hg H0 H1).
  simpl andb.
  destruct (after_reads_pairs h (set_file (set_file cmp 0 f0) 1 f1)
              (activations w) d0 d1 l0 l1 (after_read true f1 w2)
              Hcw Ht Hc0 Hn0 Hc1 Hn1)
    as (r & w' & Hrun & Hcmp & Hlen & Hval & Hperm & Hbound & Hnn & Hcase
        & Hpure & wm & wm' & evc & Hevc & Hcoll & Hcalls & Hend).
  rewrite Hrun. exists r, w'. split; [reflexivity |].
  pose proof (side_listing_C_string _ _ _ _ Hs0) as C0.
  pose proof (side_listing_C_string _ _ _ _ Hs1) as C1.
  destruct (Hperm C0 C1) as [Hp0 Hp1].
  split; [exact Hlen |]. split; [exact Hval |].
  split; [exact Hp0 |]. split; [exact Hp1 |].
  split; [exact Hbound |]. split; [exact Hnn |]. split; [exact Hcase |].
  split; [exact Hpure |].
  exists wm, wm', (ev0 ++ ev1 ++ evc). rewrite Hcmp.
  splits.
  - rewrite Hevc. simpl. rewrite He1. simpl. rewrite He0. simpl.
    rewrite <- !app_assoc. reflexivity.
  - rewrite !forallb_app, Hr0, Hr1. simpl.
    eapply forallb_weaken; [| exact Hcoll].
    intros e He. unfold is_reading_event. rewrite He. apply orb_true_r.
  - exact Hcalls.
  - exact Hend.
Qed.

End Pairs.

Lemma lefts_length ps : (List.length (lefts ps) <= List.length ps)%nat.
Proof.
  induction ps as [| [[a |] b] ps IH]; simpl; lia.
Qed.

Lemma rights_length ps : (List.length (rights ps) <= List.length ps)%nat.
Proof.
  induction ps as [| [a [b |]] ps IH]; simpl; lia.
Qed.

Lemma lefts_nil ps :
  lefts ps = [] ->
  Forall (fun p => p <> (None, None)) ps ->
  Forall (fun p : option string * option string => fst p = None) ps
  /\ List.length (rights ps) = List.length ps.
Proof.
  induction ps as [| [[a |] b] ps IH]; simpl; intros Hl Hnn.
  - split; [constructor | reflexivity].
  - discriminate.
  - inversion Hnn as [| p ps' Hp Hrest]; subst.
    destruct (IH Hl Hrest) as [I1 I2].
    split; [constructor; [reflexivity | exact I1] |].
    destruct b as [b |]; [simpl; rewrite I2; reflexivity |].
    exfalso. apply Hp. reflexivity.
Qed.

Lemma rights_nil ps :
  rights ps = [] ->
  Forall (fun p => p <> (None, None)) ps ->
  Forall (fun p : option string * option string => snd p = None) ps
  /\ List.length (lefts ps) = List.length ps.
Proof.
  induction ps as [| [a [b |]] ps IH]; simpl; intros Hl Hnn.
  - split; [constructor | reflexivity].
  - discriminate.
  - inversion Hnn as [| p ps' Hp Hrest]; subst.
    destruct (IH Hl Hrest) as [I1 I2].
    split; [constructor; [reflexivity | exact I1] |].
    destruct a as [a |]; [simpl; rewrite I2; reflexivity |].
    exfalso. apply Hp. reflexivity.
Qed.

Section Delivery.

Variable E : env.

(** X9.  From the directories to the handler.  Past the loop guard, when
    the locale subsystem reports no error, the handler returns, and each
    side is either known not to exist or a directory that opens and
    enumerates without error, [diff_dirs] returns, and the left names of
    the pairs it hands over are the names [dir_read] keeps of the left
    directory, each exactly once, whatever the order of enumeration;
    likewise on the right.  No pair is empty, so the handler is called at
    least as often as the longer listing has names and at most as often
    as both have together.  These pairs are the calls of the handler:
    after the reads and the sort, [diff_dirs] calls it on each of them in
    turn, records what each call returns, and logs nothing after the
    last call. *)
Theorem diff_dirs_delivers_listings (h : handler) (cmp : comparison)
    (w : world) (l0 l1 : list string) :
  loop_guard E cmp = false ->
  collation_works E ->
  total E h ->
  side_listing E cmp 0 w l0 ->
  side_listing E cmp 1 w l1 ->
  exists r w',
    diff_dirs E h cmp w = (Ret r, w')
    /\ Permutation (lefts (pairs r)) l0
    /\ Permutation (rights (pairs r)) l1
    /\ Forall (fun p => p <> (None, None)) (pairs r)
    /\ List.length (handler_values r) = List.length (pairs r)
    /\ (List.length l0 <= List.length (pairs r))%nat
    /\ (List.length l1 <= List.length (pairs r))%nat
    /\ (List.length (pairs r) <= List.length l0 + List.length l1)%nat
    /\ hands_over E h w r w'.
Proof.
  intros Hg Hcw Ht Hs0 Hs1.
  destruct (diff_dirs_pairs E h cmp w l0 l1 Hg Hcw Ht Hs0 Hs1)
    as (r & w' & Hrun & Hlen & _ & Hp0 & Hp1 & Hb & Hnn & _ & _ & Hcalls).
  apply run_permuted_Permutation in Hp0. apply run_permuted_Permutation in Hp1.
  assert (P0 : Permutation (lefts (pairs r)) l0).
  { rewrite <- Hp0. apply sort_names_perm. }
  assert (P1 : Permutation (rights (pairs r)) l1).
  { rewrite <- Hp1. apply sort_names_perm. }
  exists r, w'. splits; auto.
  - rewrite <- (Permutation_length P0). apply lefts_length.
  - rewrite <- (Permutation_length P1). apply rights_length.
Qed.

(** X10.  A side that is missing or empty.  Under the same conditions,
    when the left listing is empty, as it is for a side known not to
    exist, every pair has a null left name and the handler is called once
    for each name of the right listing; and the same with the sides
    exchanged.  The pairs are the calls [diff_dirs] makes of the handler,
    in their order, and the values it records are what they returned. *)
Theorem diff_dirs_one_sided (h : handler) (cmp : comparison) (w : world)
    (l0 l1 : list string) :
  loop_guard E cmp = false ->
  collation_works E ->
  total E h ->
  side_listing E cmp 0 w l0 ->
  side_listing E cmp 1 w l1 ->
  exists r w',
    diff_dirs E h cmp w = (Ret r, w')
    /\ (l0 = [] ->
        Forall (fun p => fst p = None) (pairs r)
        /\ Permutation (rights (pairs r)) l1
        /\ List.length (pairs r) = List.length l1)
    /\ (l1 = [] ->
        Forall (fun p => snd p = None) (pairs r)
        /\ Permutation (lefts (pairs r)) l0
        /\ List.length (pairs r) = List.length l0)
    /\ hands_over E h w r w'.
Proof.
  intros Hg Hcw Ht Hs0 Hs1.
  destruct (diff_dirs_pairs E h cmp w l0 l1 Hg Hcw Ht Hs0 Hs1)
    as (r & w' & Hrun & _ & _ & Hp0 & Hp1 & _ & Hnn & _ & _ & Hcalls).
  apply run_permuted_Permutation in Hp0. apply run_permuted_Permutation in Hp1.
  assert (P0 : Permutation (lefts (pairs r)) l0).
  { rewrite <- Hp0. apply sort_names_perm. }
  assert (P1 : Permutation (rights (pairs r)) l1).
  { rewrite <- Hp1. apply sort_names_perm. }
  exists r, w'. split; [exact Hrun |]. split; [| split; [| exact Hcalls]].
  - intros ->. apply Permutation_sym, Permutation_nil in P0.
    destruct (lefts_nil _ P0 Hnn) as [F L].
    splits; auto. rewrite <- L. apply Permutation_length. exact P1.
  - intros ->. apply Permutation_sym, Permutation_nil in P1.
    destruct (rights_nil _ P1 Hnn) as [F L].
    splits; auto. rewrite <- L. apply Permutation_length. exact P0.
Qed.

(** X11.  The order of delivery.  Without case folding, and with a
    collation that makes [compare_names_for_qsort] consistent on the
    names of each listing, as [qsort] asks of its comparison function
    (exchanging the arguments reverses the sign of the answer, and the
    order is transitive), the left names reach the handler in ascending
    order by [compare_names_for_qsort], however the directory enumerated
    them; likewise the right names.  That order is the only sorted
    arrangement of the listing, so it does not depend on how the sort
    goes about its work.  The names are handed over by calls of the
    handler, in this order. *)
Theorem diff_dirs_sorted_delivery (h : handler) (cmp : comparison)
    (w : world) (l0 l1 : list string) :
  loop_guard E cmp = false ->
  collation_works E ->
  total E h ->
  side_listing E cmp 0 w l0 ->
  side_listing E cmp 1 w l1 ->
  ignore_file_name_case E = false ->
  consistent_on E true l0 ->
  consistent_on E true l1 ->
  exists r w',
    diff_dirs E h cmp w = (Ret r, w')
    /\ StronglySorted (sort_le E true) (lefts (pairs r))
    /\ StronglySorted (sort_le E true) (rights (pairs r))
    /\ (forall l, Permutation l l0 -> Sorted (sort_le E true) l ->
        lefts (pairs r) = l)
    /\ (forall l, Permutation l l1 -> Sorted (sort_le E true) l ->
        rights (pairs r) = l)
    /\ hands_over E h w r w'.
Proof.
  intros Hg Hcw Ht Hs0 Hs1 Hi Hq0 Hq1.
  destruct (diff_dirs_pairs E h cmp w l0 l1 Hg Hcw Ht Hs0 Hs1)
    as (r & w' & Hrun & _ & _ & _ & _ & _ & _ & Hcase & _ & Hcalls).
  destruct (Hcase Hi) as [H0 H1].
  pose proof (side_listing_C_string _ _ _ _ _ Hs0) as C0.
  pose proof (side_listing_C_string _ _ _ _ _ Hs1) as C1.
  assert (S0 : StronglySorted (sort_le E true) (sort_names E true l0))
    by (apply (sort_names_strongly E true l0); [exact Hq0 | apply incl_refl]).
  assert (S1 : StronglySorted (sort_le E true) (sort_names E true l1))
    by (apply (sort_names_strongly E true l1); [exact Hq1 | apply incl_refl]).
  exists r, w'. split; [exact Hrun |]. rewrite H0, H1.
  split; [exact S0 |]. split; [exact S1 |].
  split; [| split; [| exact Hcalls]].
  - intros l Hp Hs.
    apply (sorted_unique E true l0 Hq0 C0).
    + intros z Hz. eapply Permutation_in; [apply sort_names_perm | exact Hz].
    + rewrite sort_names_perm. symmetry. exact Hp.
    + exact S0.
    + apply (sorted_strongly E true l0); [exact Hq0 | | exact Hs].
      intros z Hz. eapply Permutation_in; [exact Hp | exact Hz].
  - intros l Hp Hs.
    apply (sorted_unique E true l1 Hq1 C1).
    + intros z Hz. eapply Permutation_in; [apply sort_names_perm | exact Hz].
    + rewrite sort_names_perm. symmetry. exact Hp.
    + exact S1.
    + apply (sorted_strongly E true l1); [exact Hq1 | | exact Hs].
      intros z Hz. eapply Permutation_in; [exact Hp | exact Hz].
Qed.

Lemma merge_pairs_same s :
  forall fuel l,
  (List.length l <= fuel)%nat ->
  (forall a, In a l -> names_cmp E s a a = 0) ->
  merge_pairs E fuel s l l = map (fun a => (Some a, Some a)) l.
Proof.
  induction fuel as [| f IH]; intros l Hlen Hrefl.
  - destruct l; [reflexivity | simpl in Hlen; lia].
  - destruct l as [| a la]; [reflexivity |].
    cbn [merge_pairs next_pair]. rewrite (Hrefl a) by (left; reflexivity).
    cbv zeta. cbn [Z.ltb Z.compare]. cbv iota.
    unfold exact_first. unfold file_name_cmp. rewrite strcmp_refl.
    cbn [Z.eqb]. cbv iota.
    assert (Hif : (if ignore_file_name_case E
                   then (a :: la, a :: la) else (a :: la, a :: la))
                  = (a :: la, a :: la))
      by (destruct (ignore_file_name_case E); reflexivity).
    rewrite Hif. cbn [hd_error tl map]. f_equal.
    apply IH; [simpl in Hlen; lia |].
    intros b Hb. apply Hrefl. right. exact Hb.
Qed.

(** X12.  A directory against itself.  When the two sides have the same
    listing, the comparator calls every name equal to itself, and the
    handler leaves [locale_specific_sorting] alone, every pair handed over
    holds one name twice: no name is reported as missing on either side,
    with or without case folding. *)
Theorem diff_dirs_same_listing (h : handler) (cmp : comparison) (w : world)
    (l : list string) :
  loop_guard E cmp = false ->
  collation_works E ->
  total E h ->
  sorting_kept h ->
  side_listing E cmp 0 w l ->
  side_listing E cmp 1 w l ->
  (forall a, In a l -> names_cmp E true a a = 0) ->
  exists r w',
    diff_dirs E h cmp w = (Ret r, w')
    /\ pairs r = map (fun a => (Some a, Some a)) (lefts (pairs r))
    /\ Permutation (lefts (pairs r)) l
    /\ List.length (pairs r) = List.length l.
Proof.
  intros Hg Hcw Ht Hk Hs0 Hs1 Hrefl.
  destruct (diff_dirs_pairs E h cmp w l l Hg Hcw Ht Hs0 Hs1)
    as (r & w' & Hrun & _ & _ & _ & _ & _ & _ & _ & Hpure & _).
  exists r, w'. split; [exact Hrun |].
  rewrite (Hpure Hk).
  rewrite merge_pairs_same.
  - assert (Hl : forall q : list string,
              lefts (map (fun a => (Some a, Some a)) q) = q).
    { induction q as [| a q IH]; [reflexivity |].
      cbn [map]. change ((Some a, Some a) :: map (fun a0 => (Some a0, Some a0)) q)
        with ([(Some a, Some a)] ++ map (fun a0 => (Some a0, Some a0)) q).
      rewrite lefts_app, IH. reflexivity. }
    rewrite Hl. splits; auto.
    + apply sort_names_perm.
    + rewrite length_map. apply sort_names_length.
  - rewrite sort_names_length. lia.
  - intros a Ha. apply Hrefl.
    eapply Permutation_in; [apply sort_names_perm | exact Ha].
Qed.

End Delivery.

Ltac names_are_C_strings :=
  repeat (constructor; [vm_compute; repeat split; discriminate |]);
  constructor.

Ltac readable_side fd stream :=
  right; split;
  [ discriminate
  | exists fd, stream, 0; splits;
    [ right; splits; [reflexivity | discriminate | reflexivity]
    | reflexivity
    | reflexivity
    | names_are_C_strings
    | reflexivity ] ].

Lemma strcmp_antisym a : forall b, Libc.strcmp b a = - Libc.strcmp a b.
Proof.
  induction a as [| c a IH]; intros [| d b]; simpl; try lia.
  rewrite Z.eqb_sym. destruct (Libc.uchar c =? Libc.uchar d); [apply IH | lia].
Qed.

(** In the POSIX locale [compare_names_for_qsort] is [strcmp]. *)
Lemma posix_qsort_cmp t a b :
  qsort_cmp (Sample.posix false None t) true a b = Libc.strcmp a b.
Proof.
  unfold qsort_cmp, collate. simpl. unfold file_name_cmp.
  destruct (Libc.strcmp a b =? 0) eqn:H; simpl; [| reflexivity].
  reflexivity.
Qed.

Lemma strcmp_trans a :
  forall b c, C_string a -> C_string b -> C_string c ->
  Libc.strcmp a b <= 0 -> Libc.strcmp b c <= 0 -> Libc.strcmp a c <= 0.
Proof.
  induction a as [| x a IH]; intros [| y b] [| z c] Ha Hb Hc H1 H2;
    simpl in *; try lia.
  - pose proof (uchar_nonneg z). lia.
  - destruct Ha as [Hx _]. pose proof (uchar_nonneg x). lia.
  - destruct Hb as [Hy _]. pose proof (uchar_nonneg y). lia.
  - destruct (Z.eqb_spec (Libc.uchar x) (Libc.uchar y)) as [Exy | Exy];
    destruct (Z.eqb_spec (Libc.uchar y) (Libc.uchar z)) as [Eyz | Eyz];
    destruct (Z.eqb_spec (Libc.uchar x) (Libc.uchar z)) as [Exz | Exz];
    try lia.
    apply (IH b c); [apply Ha | apply Hb | apply Hc | exact H1 | exact H2].
Qed.

(** So it is consistent on any listing of C strings. *)
Lemma posix_consistent t l :
  Forall C_string l -> consistent_on (Sample.posix false None t) true l.
Proof.
  intros Hl. rewrite Forall_forall in Hl. split.
  - intros a b _ _. rewrite !posix_qsort_cmp, (strcmp_antisym a b).
    apply Z.sgn_opp.
  - intros a b c Ha Hb Hc. unfold sort_le. rewrite !posix_qsort_cmp.
    apply strcmp_trans; auto.
Qed.

Lemma posix_names_refl t a :
  names_cmp (Sample.posix false None t) true a a = 0.
Proof.
  unfold names_cmp, collate. simpl. unfold file_name_cmp.
  rewrite strcmp_refl. reflexivity.
Qed.

Lemma diff_dirs_delivers_listings_witness :
  exists r w',
    diff_dirs (Sample.posix false None Sample.fs_disjoint) Sample.leaf
      Sample.top Sample.w0 = (Ret r, w')
    /\ Permutation (lefts (pairs r)) ["c"; "a"]%string
    /\ Permutation (rights (pairs r)) ["d"; "b"]%string
    /\ List.length (handler_values r) = List.length (pairs r)
    /\ hands_over (Sample.posix false None Sample.fs_disjoint) Sample.leaf
         Sample.w0 r w'.
Proof.
  destruct (diff_dirs_delivers_listings
              (Sample.posix false None Sample.fs_disjoint) Sample.leaf
              Sample.top Sample.w0 ["c"; "a"]%string ["d"; "b"]%string)
    as (r & w' & Hrun & H0 & H1 & _ & Hlen & _ & _ & _ & Hcalls).
  - reflexivity.
  - apply posix_collation_works.
  - apply keeps_sorting_total, leaf_keeps_sorting.
  - readable_side 3 (mkDIR ["."; ".."; "c"; "a"]%string 0).
  - readable_side 4 (mkDIR ["d"; "b"]%string 0).
  - exists r, w'. splits; assumption.
Defined.

Lemma diff_dirs_one_sided_witness :
  exists r w',
    diff_dirs (Sample.posix false None Sample.fs_disjoint) Sample.leaf
      Cases.left_missing Sample.w0 = (Ret r, w')
    /\ (Forall (fun p => fst p = None) (pairs r)
        /\ Permutation (rights (pairs r)) ["d"; "b"]%string
        /\ List.length (pairs r) = 2%nat)
    /\ hands_over (Sample.posix false None Sample.fs_disjoint) Sample.leaf
         Sample.w0 r w'.
Proof.
  destruct (diff_dirs_one_sided
              (Sample.posix false None Sample.fs_disjoint) Sample.leaf
              Cases.left_missing Sample.w0 [] ["d"; "b"]%string)
    as (r & w' & Hrun & H0 & _ & Hcalls).
  - reflexivity.
  - apply posix_collation_works.
  - apply keeps_sorting_total, leaf_keeps_sorting.
  - left. split; reflexivity.
  - readable_side 4 (mkDIR ["d"; "b"]%string 0).
  - exists r, w'. split; [exact Hrun |].
    split; [apply H0; reflexivity | exact Hcalls].
Defined.

Lemma diff_dirs_sorted_delivery_witness :
  exists r w',
    diff_dirs (Sample.posix false None Sample.fs_disjoint) Sample.leaf
      Sample.top Sample.w0 = (Ret r, w')
    /\ StronglySorted (sort_le (Sample.posix false None Sample.fs_disjoint) true)
         (lefts (pairs r))
    /\ StronglySorted (sort_le (Sample.posix false None Sample.fs_disjoint) true)
         (rights (pairs r))
    /\ (forall l, Permutation l ["c"; "a"]%string ->
        Sorted (sort_le (Sample.posix false None Sample.fs_disjoint) true) l ->
        lefts (pairs r) = l)
    /\ (forall l, Permutation l ["d"; "b"]%string ->
        Sorted (sort_le (Sample.posix false None Sample.fs_disjoint) true) l ->
        rights (pairs r) = l)
    /\ hands_over (Sample.posix false None Sample.fs_disjoint) Sample.leaf
         Sample.w0 r w'.
Proof.
  apply (diff_dirs_sorted_delivery
           (Sample.posix false None Sample.fs_disjoint) Sample.leaf
           Sample.top Sample.w0 ["c"; "a"]%string ["d"; "b"]%string).
  - reflexivity.
  - apply posix_collation_works.
  - apply keeps_sorting_total, leaf_keeps_sorting.
  - readable_side 3 (mkDIR ["."; ".."; "c"; "a"]%string 0).
  - readable_side 4 (mkDIR ["d"; "b"]%string 0).
  - reflexivity.
  - apply posix_consistent. names_are_C_strings.
  - apply posix_consistent. names_are_C_strings.
Defined.

Lemma diff_dirs_same_listing_witness :
  exists r w',
    diff_dirs (Sample.posix false None Cases.fs_same) Sample.leaf
      Sample.top Sample.w0 = (Ret r, w')
    /\ pairs r = map (fun a => (Some a, Some a)) (lefts (pairs r))
    /\ Permutation (lefts (pairs r)) ["b"; "a"]%string
    /\ List.length (pairs r) = 2%nat.
Proof.
  apply (diff_dirs_same_listing
           (Sample.posix false None Cases.fs_same) Sample.leaf
           Sample.top Sample.w0 ["b"; "a"]%string).
  - reflexivity.
  - apply posix_collation_works.
  - apply keeps_sorting_total, leaf_keeps_sorting.
  - apply keeps_sorting_kept, leaf_keeps_sorting.
  - readable_side 3 (mkDIR ["b"; "a"; "."]%string 0).
  - readable_side 4 (mkDIR ["b"; "a"; "."]%string 0).
  - intros a _. apply posix_names_refl.
Defined.

(** ** More on the single-name finder *)

Section FinderMore.

Variable E : env.

(** The names of a table that [dir_read] filled were handed out by a
    stream and kept by the filter. *)
Lemma dir_read_kept parentdirfd dir startfile only w :
  read_safe E startfile w ->
  exists ok dir' d w',
    dir_read E parentdirfd dir startfile only w = (Ret (ok, dir', d), w')
    /\ (ok = true ->
        exists l,
          cells_of d = table l
          /\ forall n, In n l ->
               kept E (locale_specific_sorting w) startfile only n = true
               /\ exists fd stream e,
                    os_fdopendir E fd = (Some stream, e)
                    /\ In n (dir_entries stream)).
Proof.
  intros Hsafe.
  assert (Henum : forall dirfd dir1 w0,
            locale_specific_sorting w0 = locale_specific_sorting w ->
            exists ok dir' d w',
              enumerate E dirfd dir1 startfile only w0 = (Ret (ok, dir', d), w')
              /\ (ok = true ->
                  exists l,
                    cells_of d = table l
                    /\ forall n, In n l ->
                         kept E (locale_specific_sorting w) startfile only n = true
                         /\ exists fd stream e,
                              os_fdopendir E fd = (Some stream, e)
                              /\ In n (dir_entries stream))).
  { intros dirfd dir1 w0 Hflag.
    assert (Hsafe0 : read_safe E startfile w0)
      by (eapply read_safe_step; [exact Hsafe | exact Hflag]).
    destruct (os_fdopendir E dirfd) as [[stream |] e] eqn:Hdir.
    - destruct (enumerate_names E dirfd dir1 startfile only stream e w0
                  Hsafe0 Hdir) as (d & w' & Hrun & Hn).
      eexists _, _, d, w'. split; [exact Hrun |].
      intros Hok. apply Z.eqb_eq in Hok. destruct (Hn Hok) as [Hc _].
      rewrite Hflag in Hc. eexists. split; [exact Hc |].
      intros n Hin. apply filter_In in Hin. destruct Hin as [Hin Hk].
      split; [exact Hk |]. exists dirfd, stream, e. split; assumption.
    - unfold enumerate. rewrite Hdir.
      eexists false, _, _, _. split; [reflexivity | discriminate]. }
  unfold dir_read.
  destruct (desc dir =? NONEXISTENT E).
  { unfold build_names, alloc. eexists true, _, _, _.
    split; [reflexivity |]. intros _. exists []. split; [reflexivity |].
    intros n []. }
  unfold bind, open_directory.
  destruct (desc dir <? 0).
  - destruct (os_openat E parentdirfd
                (if parentdirfd <? 0 then name dir else last_component E (name dir))
                (Z.lor (O_dir_flags E)
                   (if no_dereference_symlinks E then O_NOFOLLOW E else 0)))
      as [fd e].
    destruct (fd <? 0).
    + eexists false, _, _, _. split; [reflexivity | discriminate].
    + apply Henum. reflexivity.
  - unfold ret. apply Henum. reflexivity.
Qed.

Lemma best_match_choice file_ run :
  best_match file_ run = file_ \/ In (best_match file_ run) run.
Proof.
  unfold best_match.
  destruct (find (fun q => file_name_cmp q file_ =? 0) run) as [q |] eqn:Hf.
  - right. apply find_some in Hf. apply Hf.
  - destruct run as [| x run]; [left; reflexivity | right; left; reflexivity].
Qed.

(** The name the finder joins to the directory name, when case is folded
    and no comparison can fail. *)
Lemma finder_match dir file_ w :
  ignore_file_name_case E = true ->
  comparisons_safe E w ->
  exists m blk dir' w',
    find_dir_file_pathname E dir file_ w
    = (Ret (file_name_concat E (name dir) m, blk, dir'), w')
    /\ (m = file_
        \/ (kept E (locale_specific_sorting w) (Some file_) true m = true
            /\ exists fd stream e,
                 os_fdopendir E fd = (Some stream, e)
                 /\ In m (dir_entries stream))).
Proof.
  intros Hi Hsafe.
  destruct (dir_read_kept (AT_FDCWD E) dir (Some file_) true w
              (or_intror Hsafe)) as (ok & dir' & d & w1 & Hrun & Htab).
  unfold find_dir_file_pathname. rewrite Hi. unfold bind. rewrite Hrun.
  destruct ok.
  - destruct (Htab eq_refl) as (l & Hl & Hall). rewrite Hl.
    rewrite find_match_table.
    change (match find (fun q => file_name_cmp q file_ =? 0) l with
            | Some q => q
            | None => hd file_ l
            end) with (best_match file_ l).
    destruct (alloc w1) as [b w2] eqn:Ha.
    eexists (best_match file_ l), _, _, _. split; [reflexivity |].
    destruct (best_match_choice file_ l) as [Hm | Hm];
      [left; exact Hm | right; apply Hall; exact Hm].
  - destruct (alloc w1) as [b w2] eqn:Ha.
    eexists file_, _, _, _. split; [reflexivity | left; reflexivity].
Qed.

(** X13.  The finder invents no name.  With case folding and a comparator
    that cannot fail it returns the directory name joined with the target
    itself or with an entry that some directory stream handed out, that is
    neither "." nor ".." nor excluded, and that the comparator, as
    [locale_specific_sorting] currently sets it, calls equal to the
    target. *)
Theorem find_dir_file_pathname_match (dir : file_data) (file_ : string)
    (w : world) :
  ignore_file_name_case E = true ->
  comparisons_safe E w ->
  exists m blk dir' w',
    find_dir_file_pathname E dir file_ w
    = (Ret (file_name_concat E (name dir) m, blk, dir'), w')
    /\ (m = file_
        \/ (names_cmp E (locale_specific_sorting w) m file_ = 0
            /\ is_dot_or_dotdot m = false
            /\ excluded_file_name E m = false
            /\ exists fd stream e,
                 os_fdopendir E fd = (Some stream, e)
                 /\ In m (dir_entries stream))).
Proof.
  intros Hi Hsafe.
  destruct (finder_match dir file_ w Hi Hsafe)
    as (m & blk & dir' & w' & Hrun & Hm).
  exists m, blk, dir', w'. split; [exact Hrun |].
  destruct Hm as [Hm | [Hk Hin]]; [left; exact Hm | right].
  unfold kept in Hk.
  apply andb_prop in Hk. destruct Hk as [Hk Hex].
  apply andb_prop in Hk. destruct Hk as [Hdot Hcmp].
  splits.
  - cbv zeta in Hcmp. simpl in Hcmp.
    destruct (Z.eqb_spec (names_cmp E (locale_specific_sorting w) m file_) 0)
      as [H0 | H0]; [exact H0 |].
    rewrite orb_true_r in Hcmp. discriminate.
  - destruct (is_dot_or_dotdot m); [discriminate | reflexivity].
  - destruct (excluded_file_name E m); [discriminate | reflexivity].
  - exact Hin.
Qed.

(** X14.  The finder and the global switch.  [find_dir_file_pathname]
    compares under [locale_specific_sorting] as it finds it and never sets
    it.  While the switch is off, which it is until a call of [diff_dirs]
    has turned it on, the comparator is [file_name_cmp], so that an entry
    differing from the target in case is not a candidate: when the target
    and the entries are C strings, the finder returns the directory name
    joined with the target verbatim even though case folding was asked
    for. *)
Theorem find_dir_file_pathname_raw (dir : file_data) (file_ : string)
    (w : world) :
  ignore_file_name_case E = true ->
  locale_specific_sorting w = false ->
  C_string file_ ->
  (forall fd stream e, os_fdopendir E fd = (Some stream, e) ->
     Forall C_string (dir_entries stream)) ->
  exists blk dir' w',
    find_dir_file_pathname E dir file_ w
    = (Ret (file_name_concat E (name dir) file_, blk, dir'), w')
    /\ locale_specific_sorting w' = false.
Proof.
  intros Hi Hoff Hfile Hentries.
  assert (Hflag : forall r w1,
            find_dir_file_pathname E dir file_ w = (Ret r, w1) ->
            locale_specific_sorting w1 = false).
  { intros r w1. unfold find_dir_file_pathname. rewrite Hi. unfold bind.
    destruct (dir_read_returns E (AT_FDCWD E) dir (Some file_) true w)
      as (ok & dir' & d & w2 & evs & Hrun & _ & Hf & _).
    { right. right. exact Hoff. }
    rewrite Hrun.
    assert (Hfin : forall m r0 w3,
              (let '(b, w4) := alloc w2 in
               (Ret (file_name_concat E (name dir) m, b, dir'),
                free (data d) (free (names_block d) w4))) = (Ret r0, w3) ->
              locale_specific_sorting w3 = false).
    { intros m r0 w3. unfold alloc. intros [= _ <-].
      destruct (data d), (names_block d); simpl; congruence. }
    destruct ok; [| apply Hfin].
    destruct (find_match file_ (cells_of d) None); try discriminate.
    apply Hfin. }
  destruct (finder_match dir file_ w Hi (or_intror Hoff))
    as (m & blk & dir' & w' & Hrun & Hm).
  assert (Heq : m = file_).
  { destruct Hm as [Hm | [Hk (fd & stream & e & Hdir & Hin)]]; [exact Hm |].
    rewrite Hoff in Hk. unfold kept, names_cmp in Hk.
    apply andb_prop in Hk. destruct Hk as [Hk _].
    apply andb_prop in Hk. destruct Hk as [_ Hcmp].
    cbv zeta in Hcmp. simpl in Hcmp.
    destruct (Z.eqb_spec (file_name_cmp m file_) 0) as [H0 | H0].
    - apply strcmp_eq; [| exact Hfile | exact H0].
      specialize (Hentries fd stream e Hdir).
      rewrite Forall_forall in Hentries. apply Hentries. exact Hin.
    - rewrite orb_true_r in Hcmp. discriminate. }
  subst m. exists blk, dir', w'. split; [exact Hrun |].
  eapply Hflag. exact Hrun.
Qed.

End FinderMore.

Lemma find_dir_file_pathname_match_witness :
  exists m blk dir' w',
    find_dir_file_pathname (Sample.posix true None Sample.fs_readme)
      (Sample.unopened "L" 10) "readme" Sample.w_after_diff
    = (Ret (("L" ++ "/" ++ m)%string, blk, dir'), w')
    /\ (m = "readme"%string
        \/ names_cmp (Sample.posix true None Sample.fs_readme) true m "readme"
           = 0).
Proof.
  destruct (find_dir_file_pathname_match
              (Sample.posix true None Sample.fs_readme)
              (Sample.unopened "L" 10) "readme" Sample.w_after_diff eq_refl)
    as (m & blk & dir' & w' & Hrun & Hm).
  - left. apply posix_collation_works.
  - exists m, blk, dir', w'. split; [exact Hrun |].
    destruct Hm as [Hm | [Hm _]]; [left; exact Hm | right; exact Hm].
Defined.

Lemma find_dir_file_pathname_raw_witness :
  exists blk dir' w',
    find_dir_file_pathname (Sample.posix true None Sample.fs_readme)
      (Sample.unopened "L" 10) "readme" Sample.w0
    = (Ret ("L/readme"%string, blk, dir'), w')
    /\ locale_specific_sorting w' = false.
Proof.
  apply (find_dir_file_pathname_raw (Sample.posix true None Sample.fs_readme)
           (Sample.unopened "L" 10) "readme" Sample.w0).
  - reflexivity.
  - reflexivity.
  - vm_compute. repeat split; discriminate.
  - intros fd stream e. simpl. unfold Sample.fs_readme. simpl.
    destruct fd as [| q |]; try discriminate.
    destruct (3 =? q)%positive; [| discriminate].
    intros [= <- _]. names_are_C_strings.
Defined.

(** ** More on the loop detector *)

Lemma same_file_sym s t : same_file s t = same_file t s.
Proof.
  unfold same_file, SAME_INODE, same_special_file.
  rewrite (Z.eqb_sym (st_ino s)), (Z.eqb_sym (st_dev s)),
    (Z.eqb_sym (st_rdev s)).
  rewrite (andb_comm (S_ISBLK (st_mode s))), (andb_comm (S_ISCHR (st_mode s))).
  reflexivity.
Qed.

Lemma same_file_refl s : same_file s s = 1.
Proof. unfold same_file, SAME_INODE. rewrite !Z.eqb_refl. reflexivity. Qed.

(** X15.  What [dir_loop] detects.  Side [i] of a node loops exactly when
    some proper ancestor, at any depth, has on that side the same device
    and inode, or is the same block or character special device.  A node
    at the top level never loops; a node whose side carries the [stat] data
    of one of its ancestors always does.  The test does not depend on the
    order in which the two files are given to [same_file]. *)
Theorem dir_loop_detects (cmp : comparison) (i : nat) :
  (dir_loop cmp i = true
   <-> exists q, In q (ancestors cmp)
                 /\ (SAME_INODE (fstat (file q i)) (fstat (file cmp i))
                     || same_special_file (fstat (file q i))
                          (fstat (file cmp i))) = true)
  /\ (parent cmp = None -> dir_loop cmp i = false)
  /\ (forall q, In q (ancestors cmp) ->
        fstat (file q i) = fstat (file cmp i) -> dir_loop cmp i = true)
  /\ (forall q, 0 < same_file (fstat (file q i)) (fstat (file cmp i))
                <-> 0 < same_file (fstat (file cmp i)) (fstat (file q i))).
Proof.
  assert (Hpos : forall s t,
            0 < same_file s t
            <-> (SAME_INODE s t || same_special_file s t) = true).
  { intros s t. unfold same_file.
    destruct (SAME_INODE s t || same_special_file s t);
      split; intros H; try reflexivity; try lia; discriminate. }
  unfold dir_loop. splits.
  - rewrite dir_loop_from_ancestors. split.
    + intros (q & Hq & Hs). exists q. split; [exact Hq |]. apply Hpos. exact Hs.
    + intros (q & Hq & Hs). exists q. split; [exact Hq |]. apply Hpos. exact Hs.
  - destruct cmp as [f0 f1 [p |]]; simpl; [discriminate | reflexivity].
  - intros q Hq Heq. apply dir_loop_from_ancestors.
    exists q. split; [exact Hq |]. rewrite Heq, same_file_refl. lia.
  - intros q. rewrite same_file_sym. reflexivity.
Qed.

Lemma dir_loop_detects_witness :
  dir_loop Sample.top 0 = false
  /\ dir_loop Sample.one_sided_loop 1 = true.
Proof.
  split.
  - destruct (dir_loop_detects Sample.top 0) as (_ & H & _). apply H.
    reflexivity.
  - destruct (dir_loop_detects Sample.one_sided_loop 1) as (_ & _ & H & _).
    apply (H Sample.top); [left; reflexivity | reflexivity].
Defined.

(** ** A locale that always fails *)

Section Broken.

Variable E : env.
Hypothesis Hbroken : forall a b, snd (collate E a b) <> 0.

(** The log of a comparison that fails: the collation call, then the
    report. *)
Lemma compare_names_broken a b w :
  locale_specific_sorting w = true ->
  exists w',
    compare_names E a b w = (Longjmp, w')
    /\ failed_locale_specific_sorting w' = failed_locale_specific_sorting w
    /\ events w'
       = events w ++ [Ev_collate (ignore_file_name_case E) a b;
                      Ev_diag (Cannot_compare (snd (collate E a b)) a b)].
Proof.
  intros Hon. unfold compare_names. rewrite Hon. unfold bind.
  rewrite (compare_collated_fails E a b w (Hbroken a b)).
  eexists. split; [reflexivity |]. split; [reflexivity |].
  simpl. rewrite <- app_assoc. reflexivity.
Qed.

Lemma compare_names_for_qsort_broken a b w :
  locale_specific_sorting w = true ->
  exists w',
    compare_names_for_qsort E (Some a) (Some b) w = (Longjmp, w')
    /\ failed_locale_specific_sorting w' = failed_locale_specific_sorting w
    /\ events w'
       = events w ++ [Ev_collate (ignore_file_name_case E) a b;
                      Ev_diag (Cannot_compare (snd (collate E a b)) a b)].
Proof.
  intros Hon. unfold compare_names_for_qsort. rewrite Hon. unfold bind.
  rewrite (compare_collated_fails E a b w (Hbroken a b)).
  eexists. split; [reflexivity |]. split; [reflexivity |].
  simpl. rewrite <- app_assoc. reflexivity.
Qed.

Lemma qsort_cells_broken l :
  forall w,
  locale_specific_sorting w = true ->
  ((List.length l < 2)%nat ->
   qsort_cells E (map Some l) w = (Ret (map Some l), w))
  /\ ((2 <= List.length l)%nat ->
      exists w' a b,
        qsort_cells E (map Some l) w = (Longjmp, w')
        /\ failed_locale_specific_sorting w'
           = failed_locale_specific_sorting w
        /\ In a l /\ In b l
        /\ events w'
           = events w ++ [Ev_collate (ignore_file_name_case E) a b;
                          Ev_diag (Cannot_compare (snd (collate E a b)) a b)]).
Proof.
  induction l as [| x l IH]; intros w Hon.
  - split; [reflexivity | simpl; lia].
  - destruct (IH w Hon) as [Hsmall Hbig].
    cbn [map qsort_cells]. unfold bind.
    destruct l as [| y l].
    + split; [| simpl; lia]. intros _. reflexivity.
    + split; [simpl; lia |]. intros _.
      destruct l as [| z l].
      * rewrite Hsmall by (simpl; lia).
        cbn [map qsort_insert]. unfold bind.
        destruct (compare_names_for_qsort_broken x y w Hon)
          as (w' & Hc & Hf & He).
        rewrite Hc. exists w', x, y. split; [reflexivity |].
        split; [exact Hf |]. split; [left; reflexivity |].
        split; [right; left; reflexivity | exact He].
      * destruct Hbig as (w' & a & b & Hc & Hf & Ha & Hb & He);
          [simpl; lia |].
        rewrite Hc. exists w', a, b. split; [reflexivity |].
        split; [exact Hf |]. split; [right; exact Ha |].
        split; [right; exact Hb | exact He].
Qed.

Lemma qsort_broken l w :
  locale_specific_sorting w = true ->
  ((List.length l < 2)%nat ->
   qsort E (table l) (List.length l) w = (Ret (table l), w))
  /\ ((2 <= List.length l)%nat ->
      exists w' a b,
        qsort E (table l) (List.length l) w = (Longjmp, w')
        /\ failed_locale_specific_sorting w'
           = failed_locale_specific_sorting w
        /\ In a l /\ In b l
        /\ events w'
           = events w ++ [Ev_collate (ignore_file_name_case E) a b;
                          Ev_diag (Cannot_compare (snd (collate E a b)) a b)]).
Proof.
  intros Hon. unfold qsort.
  destruct (table_split l) as (T1 & T2 & T3). rewrite T1, T2, T3.
  destruct (qsort_cells_broken l w Hon) as [Hsmall Hbig].
  unfold bind. split.
  - intros Hl. rewrite (Hsmall Hl). reflexivity.
  - intros Hl. destruct (Hbig Hl) as (w' & a & b & Hc & Hrest).
    rewrite Hc. exists w', a, b. split; [reflexivity | exact Hrest].
Qed.

(** Sorting and merging with collation off: no comparison logs anything,
    and the handler is called from the very world the sort started in. *)
Lemma sort_and_merge_raw h cmp stamp fuel l0 l1 v w :
  keeps_sorting h ->
  locale_specific_sorting w = false ->
  exists fr' w',
    sort_and_merge E (S fuel) stamp h cmp (List.length l0) (List.length l1)
      (mkframe (table l0) (table l1) v [] []) w
    = (Ret tt, fr', w')
    /\ delivered fr'
       = merge_pairs E (S (List.length l0) + S (List.length l1)) false
           (sort_names E false l0) (sort_names E false l1)
    /\ locale_specific_sorting w' = false
    /\ handler_calls E h cmp w (delivered fr') (returned fr') w'.
Proof.
  intros Hk Hoff.
  destruct (sort_and_merge_sorts E h cmp stamp fuel l0 l1 v [] [] w)
    as (w2 & Hrun & Hcmp).
  { right. exact Hoff. }
  rewrite Hrun, Hoff. clear Hrun.
  destruct Hcmp as (S2 & F2 & _ & _ & _ & _ & Hsame & _).
  rewrite Hoff in F2. rewrite (Hsame Hoff) in *. clear Hsame.
  destruct (merge_loop_total E h cmp (keeps_sorting_total E h Hk)
              (S (List.length l0) + S (List.length l1))
              (sort_names E false l0) (sort_names E false l1) v [] [] w S2)
    as (fr & w5 & ps & vs & Hloop & _ & _ & Hd & _ & _ & _ & _ & _ & _ & _ & _
        & Hpure).
  { rewrite !sort_names_length. lia. }
  destruct (merge_loop_calls E h cmp (keeps_sorting_total E h Hk)
              (S (List.length l0) + S (List.length l1))
              (sort_names E false l0) (sort_names E false l1) v [] [] w fr w5
              S2)
    as (ps' & vs' & Hd' & Hr' & Hcalls).
  { rewrite !sort_names_length. lia. }
  { exact Hloop. }
  simpl in Hd', Hr'. rewrite <- Hd', <- Hr' in Hcalls.
  rewrite Hloop. exists fr, w5. split; [reflexivity |].
  destruct (Hpure (keeps_sorting_kept h Hk)) as [Hps Hflag].
  simpl in Hd. rewrite F2 in Hps, Hflag.
  split; [rewrite Hd; exact Hps |]. split; [exact Hflag | exact Hcalls].
Qed.

(** Sorting and merging with collation on and a locale that always fails:
    the first comparison logs its collation call and the failure report,
    the jump turns collation off, and the sort and the merge are done
    again from there. *)
Lemma sort_and_merge_broken h cmp stamp fuel l0 l1 v w :
  keeps_sorting h ->
  locale_specific_sorting w = true ->
  failed_locale_specific_sorting w = Some stamp ->
  ((2 <= List.length l0)%nat \/ (2 <= List.length l1)%nat
   \/ (l0 <> [] /\ l1 <> [])) ->
  exists fr' w' wf a b,
    sort_and_merge E (S (S fuel)) stamp h cmp (List.length l0) (List.length l1)
      (mkframe (table l0) (table l1) v [] []) w
    = (Ret tt, fr', w')
    /\ delivered fr'
       = merge_pairs E (S (List.length l0) + S (List.length l1)) false
           (sort_names E false l0) (sort_names E false l1)
    /\ locale_specific_sorting w' = false
    /\ In a (l0 ++ l1) /\ In b (l0 ++ l1)
    /\ events wf
       = events w ++ [Ev_collate (ignore_file_name_case E) a b;
                      Ev_diag (Cannot_compare (snd (collate E a b)) a b)]
    /\ locale_specific_sorting wf = false
    /\ handler_calls E h cmp wf (delivered fr') (returned fr') w'.
Proof.
  intros Hk Hon Hjmp Hneed.
  assert (Hresume : forall w1 a b,
            failed_locale_specific_sorting w1 = Some stamp ->
            In a (l0 ++ l1) -> In b (l0 ++ l1) ->
            events w1
            = events w ++ [Ev_collate (ignore_file_name_case E) a b;
                           Ev_diag (Cannot_compare (snd (collate E a b)) a b)] ->
            exists fr' w' wf a b,
              (if match failed_locale_specific_sorting w1 with
                  | Some k => Nat.eqb k stamp
                  | None => false
                  end
               then sort_and_merge E (S fuel) stamp h cmp (List.length l0)
                      (List.length l1) (mkframe (table l0) (table l1) v [] [])
                      (set_sorting false w1)
               else (Longjmp, mkframe (table l0) (table l1) v [] [], w1))
              = (Ret tt, fr', w')
              /\ delivered fr'
                 = merge_pairs E (S (List.length l0) + S (List.length l1)) false
                     (sort_names E false l0) (sort_names E false l1)
              /\ locale_specific_sorting w' = false
              /\ In a (l0 ++ l1) /\ In b (l0 ++ l1)
              /\ events wf
                 = events w ++ [Ev_collate (ignore_file_name_case E) a b;
                                Ev_diag (Cannot_compare (snd (collate E a b))
                                           a b)]
              /\ locale_specific_sorting wf = false
              /\ handler_calls E h cmp wf (delivered fr') (returned fr') w').
  { intros w1 a b Hf Ha Hb He. rewrite Hf, Nat.eqb_refl.
    destruct (sort_and_merge_raw h cmp stamp fuel l0 l1 v
                (set_sorting false w1) Hk eq_refl)
      as (fr' & w' & Hrun & Hd & Hflag & Hcalls).
    exists fr', w', (set_sorting false w1), a, b.
    split; [exact Hrun |]. split; [exact Hd |]. split; [exact Hflag |].
    split; [exact Ha |]. split; [exact Hb |]. split; [exact He |].
    split; [reflexivity | exact Hcalls]. }
  cbn [sort_and_merge names0 names1 val delivered returned].
  destruct (qsort_broken l0 w Hon) as [Hsmall0 Hbig0].
  destruct (le_lt_dec 2 (List.length l0)) as [H0 | H0].
  { destruct (Hbig0 H0) as (w1 & a & b & Hq & Hf & Ha & Hb & He). rewrite Hq.
    apply (Hresume w1 a b); [congruence | | | exact He];
      apply in_or_app; left; assumption. }
  rewrite (Hsmall0 H0). cbn [names1].
  destruct (qsort_broken l1 w Hon) as [Hsmall1 Hbig1].
  destruct (le_lt_dec 2 (List.length l1)) as [H1 | H1].
  { destruct (Hbig1 H1) as (w1 & a & b & Hq & Hf & Ha & Hb & He). rewrite Hq.
    apply (Hresume w1 a b); [congruence | | | exact He];
      apply in_or_app; right; assumption. }
  rewrite (Hsmall1 H1).
  destruct Hneed as [Hn | [Hn | [Hn0 Hn1]]]; try lia.
  destruct l0 as [| a [| ? ?]]; [contradiction | | simpl in H0; lia].
  destruct l1 as [| b [| ? ?]]; [contradiction | | simpl in H1; lia].
  destruct (compare_names_broken a b w Hon) as (w1 & Hc & Hf & He).
  assert (Hloop : merge_loop E (List.length (table [a]) + List.length (table [b]))
                    h cmp (mkframe (table [a]) (table [b]) v [] []) w
                  = (Longjmp, mkframe (table [a]) (table [b]) v [] [], w1)).
  { cbn [table map app List.length Nat.add merge_loop at_end names0 names1].
    unfold compare_heads. cbn [names0 names1 hd name_order].
    unfold bind at 1. unfold bind at 1. rewrite Hc. reflexivity. }
  rewrite Hloop.
  apply (Hresume w1 a b); [congruence | | | exact He].
  - left. reflexivity.
  - right. left. reflexivity.
Qed.

(** X16.  The fallback at work.  With a locale subsystem that reports an
    error on every call, no restart cursor, and a handler that returns and
    leaves [locale_specific_sorting] alone, a call of [diff_dirs] that has
    any two names to compare still returns.  Up to its first comparison it
    logs system calls only; that comparison, of two names of the
    listings, logs its collation call and the failure report, and
    [locale_specific_sorting] is turned off.  Only from there is the
    handler called: on exactly the pairs that sorting and merging by the
    comparator without collation yield, in their order, the values of the
    result being what the calls returned.  Nothing is logged after the
    last call, and [locale_specific_sorting] is left off. *)
Theorem broken_locale_falls_back (h : handler) (cmp : comparison) (w : world)
    (l0 l1 : list string) :
  loop_guard E cmp = false ->
  cursor_of E cmp = None ->
  keeps_sorting h ->
  side_listing E cmp 0 w l0 ->
  side_listing E cmp 1 w l1 ->
  ((2 <= List.length l0)%nat \/ (2 <= List.length l1)%nat
   \/ (l0 <> [] /\ l1 <> [])) ->
  exists r w' wf wm' evs a b,
    diff_dirs E h cmp w = (Ret r, w')
    /\ pairs r
       = merge_pairs E (S (List.length l0) + S (List.length l1)) false
           (sort_names E false l0) (sort_names E false l1)
    /\ locale_specific_sorting w' = false
    /\ In a (l0 ++ l1) /\ In b (l0 ++ l1)
    /\ forallb is_syscall evs = true
    /\ events wf
       = events w ++ evs
         ++ [Ev_collate (ignore_file_name_case E) a b;
             Ev_diag (Cannot_compare (snd (collate E a b)) a b)]
    /\ locale_specific_sorting wf = false
    /\ handler_calls E h (cmp_after r) wf (pairs r) (handler_values r) wm'
    /\ events w' = events wm'.
Proof.
  intros Hg Hcur Hk Hs0 Hs1 Hneed.
  assert (Hsafe : forall w0, read_safe E (cursor_of E cmp) w0)
    by (intros w0; left; exact Hcur).
  destruct (side_reads E cmp 0 w l0 (snd (new_activation w)) Hs0 (Hsafe _)
              eq_refl)
    as (f0 & d0 & w1 & H0 & Hc0 & Hn0 & Hf0 & ev0 & He0 & _ & Hy0).
  destruct (side_reads E cmp 1 w l1 (after_read true f0 w1) Hs1 (Hsafe _) Hf0)
    as (f1 & d1 & w2 & H1 & Hc1 & Hn1 & Hf1 & ev1 & He1 & _ & Hy1).
  rewrite (diff_dirs_reads E h cmp w true f0 d0 w1 true f1 d1 w2 Hg H0 H1).
  unfold after_reads. simpl andb. cbv iota.
  rewrite Hc0, Hc1, Hn0, Hn1.
  destruct (sort_and_merge_broken h (set_file (set_file cmp 0 f0) 1 f1)
              (activations w) (List.length l0 + List.length l1) l0 l1
              EXIT_SUCCESS
              (set_jmp (Some (activations w))
                 (set_sorting true (after_read true f1 w2)))
              Hk eq_refl eq_refl Hneed)
    as (fr' & w3 & wf & a & b & Hrun & Hd & Hflag & Ha & Hb & Hev & Hoff
        & Hcalls).
  rewrite Hrun. exists (mkresult (val fr') (set_file (set_file cmp 0 f0) 1 f1)
                          (delivered fr') (returned fr')).
  exists (release d1 (release d0 w3)), wf, w3, (ev0 ++ ev1), a, b.
  destruct (release_keeps d1 (release d0 w3)) as [E1 R1].
  destruct (release_keeps d0 w3) as [E2 R2].
  cbn [pairs handler_values cmp_after].
  split; [reflexivity |]. split; [exact Hd |].
  split; [rewrite R1, R2; exact Hflag |].
  split; [exact Ha |]. split; [exact Hb |].
  split; [rewrite forallb_app, (Hy0 Hcur), (Hy1 Hcur); reflexivity |].
  split.
  { rewrite Hev. simpl. rewrite He1. simpl. rewrite He0. simpl.
    rewrite <- !app_assoc. reflexivity. }
  split; [exact Hoff |]. split; [exact Hcalls |].
  rewrite E1, E2. reflexivity.
Qed.

End Broken.

Lemma broken_locale_falls_back_witness :
  exists r w' wf wm' evs a b,
    diff_dirs (Sample.broken false Sample.fs_disjoint) Sample.leaf Sample.top
      Sample.w0 = (Ret r, w')
    /\ pairs r
       = [(Some "a", None); (None, Some "b"); (Some "c", None);
          (None, Some "d")]%string
    /\ locale_specific_sorting w' = false
    /\ In a ["c"; "a"; "d"; "b"]%string /\ In b ["c"; "a"; "d"; "b"]%string
    /\ forallb is_syscall evs = true
    /\ events wf
       = events Sample.w0 ++ evs
         ++ [Ev_collate false a b;
             Ev_diag (Cannot_compare
                        (snd (collate (Sample.broken false Sample.fs_disjoint)
                                a b)) a b)]
    /\ locale_specific_sorting wf = false
    /\ handler_calls (Sample.broken false Sample.fs_disjoint) Sample.leaf
         (cmp_after r) wf (pairs r) (handler_values r) wm'
    /\ events w' = events wm'.
Proof.
  apply (broken_locale_falls_back (Sample.broken false Sample.fs_disjoint)
           (fun a b => ltac:(discriminate)) Sample.leaf Sample.top Sample.w0
           ["c"; "a"]%string ["d"; "b"]%string).
  - reflexivity.
  - reflexivity.
  - apply leaf_keeps_sorting.
  - readable_side 3 (mkDIR ["."; ".."; "c"; "a"]%string 0).
  - readable_side 4 (mkDIR ["d"; "b"]%string 0).
  - left. simpl. lia.
Defined.

(** ** floor_log2 *)

(** X17.  Given a count of leading zeros that behaves as gnulib's,
    [floor_log2] answers -1 for 0, and for a positive [n] that fits
    [unsigned long long] the one exponent [k] with 2^k <= n < 2^(k+1). *)
Theorem floor_log2_spec (width : Z) (clz : Z -> Z) (n : Z) :
  0 < width ->
  counts_leading_zeros width clz ->
  0 <= n < 2 ^ width ->
  (n = 0 -> floor_log2 width clz n = -1)
  /\ (0 < n ->
      0 <= floor_log2 width clz n < width
      /\ 2 ^ floor_log2 width clz n <= n < 2 ^ (floor_log2 width clz n + 1)
      /\ floor_log2 width clz n = Z.log2 n).
Proof.
  intros Hw [Hzero Hbits] Hn. unfold floor_log2. split.
  - intros ->. rewrite Hzero. lia.
  - intros Hpos. destruct (Hbits n) as (Hr & Hset & Hclear); [lia |].
    set (k := width - 1 - clz n) in *.
    assert (Hk : k = Z.log2 n).
    { apply Z.le_antisymm.
      - destruct (Z_le_gt_dec k (Z.log2 n)) as [H | H]; [exact H |].
        rewrite (Z.bits_above_log2 n k) in Hset by lia. discriminate.
      - destruct (Z_le_gt_dec (Z.log2 n) k) as [H | H]; [exact H |].
        pose proof (Z.bit_log2 n Hpos) as Hb.
        rewrite (Hclear (Z.log2 n)) in Hb by lia. discriminate. }
    destruct (Z.log2_spec n Hpos) as [L1 L2].
    rewrite Hk. unfold Z.succ in L2. splits; auto; lia.
Qed.

Lemma clz64_counts : counts_leading_zeros 64 Cases.clz64.
Proof.
  split; [reflexivity |].
  intros n [Hpos Hlt]. unfold Cases.clz64.
  destruct (Z.eqb_spec n 0) as [-> | _]; [lia |].
  assert (Hlog : 0 <= Z.log2 n < 64).
  { split; [apply Z.log2_nonneg |]. apply Z.log2_lt_pow2; assumption. }
  replace (64 - 1 - (63 - Z.log2 n)) with (Z.log2 n) by lia.
  splits; try lia.
  - apply Z.bit_log2. exact Hpos.
  - intros i Hi. apply Z.bits_above_log2; lia.
Qed.

Lemma floor_log2_spec_witness :
  floor_log2 64 Cases.clz64 0 = -1
  /\ floor_log2 64 Cases.clz64 1000 = 9.
Proof.
  split.
  - destruct (floor_log2_spec 64 Cases.clz64 0) as [H _];
      [lia | exact clz64_counts | vm_compute; split; [discriminate | reflexivity] |].
    apply H. reflexivity.
  - destruct (floor_log2_spec 64 Cases.clz64 1000) as [_ H];
      [lia | exact clz64_counts | vm_compute; split; [discriminate | reflexivity] |].
    destruct H as (_ & _ & H); [lia |]. rewrite H. reflexivity.
Defined.

(** ** The system calls of a read *)

Section Trace.

Variable E : env.

Lemma read_entry_silent only d_name r w :
  events (snd (read_entry E None only d_name r w)) = events w.
Proof.
  unfold read_entry.
  destruct (is_dot_or_dotdot d_name); [reflexivity |].
  unfold bind at 1. unfold ret at 1. cbv iota beta.
  destruct (excluded_file_name E d_name); [reflexivity |].
  destruct (data_alloc r - data_used r <? Libc.strlen d_name + 1);
    reflexivity.
Qed.

Lemma read_entries_trace fd only entries final_errno :
  forall r w,
  exists r' w',
    read_entries E fd None only entries final_errno r w = (Ret r', w')
    /\ events w'
       = events w
         ++ repeat (Ev_sys (Sys_readdir fd)) (S (List.length entries)).
Proof.
  induction entries as [| d_name rest IH]; intros r w; cbn [read_entries].
  - unfold bind, readdir. eexists _, _. split; [reflexivity |]. reflexivity.
  - unfold bind at 1. unfold readdir at 1.
    set (w0 := emit (Ev_sys (Sys_readdir fd)) (set_errno 0 w)).
    destruct (read_entry_ok E None only d_name [] r w0 (or_introl eq_refl))
      as (r1 & w1 & evs & Hrun & _).
    pose proof (read_entry_silent only d_name r w0) as Hsilent.
    unfold bind at 1. rewrite Hrun in Hsilent |- *. simpl in Hsilent.
    destruct (IH r1 w1) as (r2 & w2 & Hrun2 & Hev).
    exists r2, w2. split; [exact Hrun2 |].
    rewrite Hev, Hsilent. unfold w0. simpl.
    rewrite <- app_assoc. reflexivity.
Qed.

(** X18.  The system calls of one read.  Without a restart cursor, a read
    of an existing side whose directory opens makes, in this order, one
    [openat] if and only if the side had no descriptor yet, one
    [fdopendir], and one [readdir] more than the stream has entries, the
    last being the one that returns the null pointer; it does so whether
    or not the enumeration ends in an error, and logs nothing else. *)
Theorem dir_read_syscalls (parentdirfd : Z) (dir : file_data) (fd : Z)
    (stream : DIR) (e : Z) (only : bool) (w : world) :
  desc dir <> NONEXISTENT E ->
  opens_as E parentdirfd dir fd ->
  os_fdopendir E fd = (Some stream, e) ->
  exists ok dir' d w',
    dir_read E parentdirfd dir None only w = (Ret (ok, dir', d), w')
    /\ events w'
       = events w
         ++ (if desc dir <? 0
             then [Ev_sys (Sys_openat parentdirfd (open_name E parentdirfd dir)
                             (open_flags E))]
             else [])
         ++ Ev_sys (Sys_fdopendir fd)
            :: repeat (Ev_sys (Sys_readdir fd))
                 (S (List.length (dir_entries stream))).
Proof.
  intros Hne Hopen Hdir.
  assert (Henum : forall dir1 w0,
            exists ok dir' d w',
              enumerate E fd dir1 None only w0 = (Ret (ok, dir', d), w')
              /\ events w'
                 = events w0
                   ++ Ev_sys (Sys_fdopendir fd)
                      :: repeat (Ev_sys (Sys_readdir fd))
                           (S (List.length (dir_entries stream)))).
  { intros dir1 w0. unfold enumerate. rewrite Hdir.
    destruct (alloc (emit (Ev_sys (Sys_fdopendir fd)) w0)) as [blk w2] eqn:Ha.
    destruct (read_entries_trace fd only (dir_entries stream)
                (dir_errno stream) (mkreader blk 512 0 []) w2)
      as (r & w3 & Hrun & Hev).
    unfold bind. rewrite Hrun.
    assert (Hw2 : events w2 = events w0 ++ [Ev_sys (Sys_fdopendir fd)])
      by (unfold alloc in Ha; injection Ha as _ <-; reflexivity).
    rewrite Hw2, <- app_assoc in Hev. simpl in Hev.
    destruct (negb (errno w3 =? 0)).
    - eexists _, _, _, _. split; [reflexivity | exact Hev].
    - unfold build_names, alloc.
      eexists _, _, _, _. split; [reflexivity | exact Hev]. }
  unfold dir_read. apply Z.eqb_neq in Hne. rewrite Hne.
  unfold bind, open_directory.
  destruct Hopen as [[Hpos ->] | (Hneg & Hfd & Hop)].
  - assert (Hlt : (desc dir <? 0) = false) by (apply Z.ltb_ge; exact Hpos).
    rewrite Hlt. unfold ret. apply Henum.
  - assert (Hlt : (desc dir <? 0) = true) by (apply Z.ltb_lt; exact Hneg).
    rewrite Hlt. unfold open_name, open_flags in *.
    destruct (os_openat E parentdirfd
                (if parentdirfd <? 0 then name dir else last_component E (name dir))
                (Z.lor (O_dir_flags E)
                   (if no_dereference_symlinks E then O_NOFOLLOW E else 0)))
      as [fd' e'] eqn:Hopen.
    simpl in Hop. subst fd'.
    assert (Hfd' : (fd <? 0) = false) by (apply Z.ltb_ge; exact Hfd).
    rewrite Hfd'.
    match goal with
    | |- context [enumerate E fd ?d1 None only ?w1] =>
        destruct (Henum d1 w1) as (ok & dir' & d & w' & Hrun & Hev)
    end.
    exists ok, dir', d, w'. split; [exact Hrun |].
    rewrite Hev. simpl. rewrite <- app_assoc. reflexivity.
Qed.

End Trace.

Lemma dir_read_syscalls_witness :
  exists ok dir' d w',
    dir_read (Sample.posix false None Sample.fs_unreadable) (-100)
      (Sample.unopened "L" 10) None false Sample.w0
    = (Ret (ok, dir', d), w')
    /\ events w'
       = [Ev_sys (Sys_openat (-100) "L" 65536); Ev_sys (Sys_fdopendir 3);
          Ev_sys (Sys_readdir 3); Ev_sys (Sys_readdir 3);
          Ev_sys (Sys_readdir 3)]%string.
Proof.
  apply (dir_read_syscalls (Sample.posix false None Sample.fs_unreadable)
           (-100) (Sample.unopened "L" 10) 3 (mkDIR ["a"; "b"]%string 5) 0
           false Sample.w0).
  - discriminate.
  - right. splits; [reflexivity | discriminate | reflexivity].
  - reflexivity.
Defined.

(** ** What never reaches the handler *)

Lemma in_pairs_names (ps : list (option string * option string)) a b n :
  In (a, b) ps ->
  (a = Some n -> In n (lefts ps)) /\ (b = Some n -> In n (rights ps)).
Proof.
  induction ps as [| [a' b'] ps IH]; intros Hin; [destruct Hin |].
  change ((a', b') :: ps) with ([(a', b')] ++ ps).
  rewrite lefts_app, rights_app.
  destruct Hin as [Heq | Hin].
  - injection Heq as -> ->. split; intros ->; apply in_or_app; left; left;
      reflexivity.
  - destruct (IH Hin) as [I1 I2].
    split; intros H; apply in_or_app; right; auto.
Qed.

Section Handed.

Variable E : env.

(** X19.  Under the conditions of X9, no name that reaches the handler,
    on either side, is "." or "..", or a name the exclusion predicate
    rejects. *)
Theorem diff_dirs_hands_kept_names (h : handler) (cmp : comparison)
    (w : world) (l0 l1 : list string) :
  loop_guard E cmp = false ->
  collation_works E ->
  total E h ->
  side_listing E cmp 0 w l0 ->
  side_listing E cmp 1 w l1 ->
  exists r w',
    diff_dirs E h cmp w = (Ret r, w')
    /\ forall a b n,
         In (a, b) (pairs r) ->
         a = Some n \/ b = Some n ->
         excluded_file_name E n = false
         /\ n <> "."%string /\ n <> ".."%string.
Proof.
  intros Hg Hcw Ht Hs0 Hs1.
  assert (Hkept : forall i l n,
            side_listing E cmp i w l -> In n l ->
            excluded_file_name E n = false
            /\ n <> "."%string /\ n <> ".."%string).
  { intros i l n [[_ ->] | (_ & fd & stream & e & _ & _ & _ & Hcs & ->)] Hin;
      [destruct Hin |].
    apply filter_In in Hin. destruct Hin as [Hin Hk].
    unfold kept in Hk.
    apply andb_prop in Hk. destruct Hk as [Hk Hex].
    apply andb_prop in Hk. destruct Hk as [Hdot _].
    rewrite Forall_forall in Hcs.
    pose proof (is_dot_or_dotdot_names n (Hcs n Hin)) as Hd.
    destruct (is_dot_or_dotdot n); [discriminate |].
    splits.
    - destruct (excluded_file_name E n); [discriminate | reflexivity].
    - intros Heq. assert (false = true) by (apply Hd; left; exact Heq).
      discriminate.
    - intros Heq. assert (false = true) by (apply Hd; right; exact Heq).
      discriminate. }
  destruct (diff_dirs_pairs E h cmp w l0 l1 Hg Hcw Ht Hs0 Hs1)
    as (r & w' & Hrun & _ & _ & Hp0 & Hp1 & _).
  apply run_permuted_Permutation in Hp0. apply run_permuted_Permutation in Hp1.
  exists r, w'. split; [exact Hrun |].
  intros a b n Hin Hn.
  destruct (in_pairs_names (pairs r) a b n Hin) as [I0 I1].
  destruct Hn as [Hn | Hn].
  - apply (Hkept 0%nat l0 n Hs0).
    eapply Permutation_in; [apply sort_names_perm |].
    eapply Permutation_in; [symmetry; exact Hp0 | apply I0; exact Hn].
  - apply (Hkept 1%nat l1 n Hs1).
    eapply Permutation_in; [apply sort_names_perm |].
    eapply Permutation_in; [symmetry; exact Hp1 | apply I1; exact Hn].
Qed.

End Handed.

Lemma diff_dirs_hands_kept_names_witness :
  exists r w',
    diff_dirs (Sample.posix false None Sample.fs_disjoint) Sample.leaf
      Sample.top Sample.w0 = (Ret r, w')
    /\ forall a b n,
         In (a, b) (pairs r) ->
         a = Some n \/ b = Some n ->
         excluded_file_name (Sample.posix false None Sample.fs_disjoint) n
         = false
         /\ n <> "."%string /\ n <> ".."%string.
Proof.
  apply (diff_dirs_hands_kept_names
           (Sample.posix false None Sample.fs_disjoint) Sample.leaf
           Sample.top Sample.w0 ["c"; "a"]%string ["d"; "b"]%string).
  - reflexivity.
  - apply posix_collation_works.
  - apply keeps_sorting_total, leaf_keeps_sorting.
  - readable_side 3 (mkDIR ["."; ".."; "c"; "a"]%string 0).
  - readable_side 4 (mkDIR ["d"; "b"]%string 0).
Defined.

(** ** The guard, the status and the calls of the handler *)

Section Calls.

Variable E : env.

(** C2, as the code has it.  [diff_dirs] reports the recursive loop, names
    the side that exists, reads nothing and returns EXIT_TROUBLE exactly
    when each of the two sides is either known not to exist or has an
    ancestor that is the same file.  In every other case, so also when one
    existing side loops and the other does not, it logs no loop report of
    its own, and the comparison proceeds on both sides alike: [dir_loop]
    is not asked again, each side that exists is opened and read, and
    (when the locale subsystem reports no error and the handler returns)
    every name either side lists is handed to the handler, the names of a
    side that loops like those of any other. *)
Theorem diff_dirs_loop_guard (h : handler) (cmp : comparison) (w : world) :
  (loop_guard E cmp = true <->
   (desc (file cmp 0) = NONEXISTENT E
    \/ exists q, In q (ancestors cmp)
                 /\ 0 < same_file (fstat (file q 0)) (fstat (file cmp 0)))
   /\ (desc (file cmp 1) = NONEXISTENT E
       \/ exists q, In q (ancestors cmp)
                    /\ 0 < same_file (fstat (file q 1)) (fstat (file cmp 1))))
  /\ (loop_guard E cmp = true ->
      diff_dirs E h cmp w
      = (Ret (mkresult EXIT_TROUBLE cmp [] []),
         emit (Ev_diag (Recursive_loop
                 (name (file cmp (if desc (file cmp 0) =? NONEXISTENT E
                                  then 1%nat else 0%nat))))) w))
  /\ (loop_guard E cmp = false ->
      (forall cmp' a b w0, extends not_loop_report w0 (snd (h cmp' a b w0))) ->
      extends not_loop_report w (snd (diff_dirs E h cmp w))
      /\ count is_loop_report (events (snd (diff_dirs E h cmp w)))
         = count is_loop_report (events w))
  /\ (loop_guard E cmp = false ->
      collation_works E ->
      total E h ->
      forall l0 l1,
      side_listing E cmp 0 w l0 ->
      side_listing E cmp 1 w l1 ->
      exists r w',
        diff_dirs E h cmp w = (Ret r, w')
        /\ Permutation (lefts (pairs r)) l0
        /\ Permutation (rights (pairs r)) l1
        /\ hands_over E h w r w').
Proof.
  destruct (loop_guard_cases E h cmp w) as (G1 & G2 & G3).
  split; [exact G1 |]. split; [exact G2 |]. split; [exact G3 |].
  intros Hg Hcw Ht l0 l1 Hs0 Hs1.
  destruct (diff_dirs_pairs E h cmp w l0 l1 Hg Hcw Ht Hs0 Hs1)
    as (r & w' & Hrun & _ & _ & Hp0 & Hp1 & _ & _ & _ & _ & Hcalls).
  apply run_permuted_Permutation in Hp0. apply run_permuted_Permutation in Hp1.
  exists r, w'. split; [exact Hrun |].
  split; [rewrite <- Hp0; apply sort_names_perm |].
  split; [rewrite <- Hp1; apply sort_names_perm | exact Hcalls].
Qed.


End Calls.

(** C2 as the specification words it fails, twice.  First, the left side
    of [Sample.one_sided_loop] is known not to exist and does not loop,
    only the right side revisits an ancestor: [diff_dirs] reports the loop
    and returns EXIT_TROUBLE all the same, without reading either side.
    Second, only the left side of [Cases.left_loops] revisits an ancestor
    and both sides exist: [diff_dirs] does not treat the left side as a
    dead end, it opens and reads "L/s" and hands its names "s" and "x" to
    the handler. *)
Lemma one_sided_loop_counterexample :
  (dir_loop Sample.one_sided_loop 0 = false
   /\ dir_loop Sample.one_sided_loop 1 = true
   /\ diff_dirs (Sample.posix false None Sample.fs_disjoint) Sample.leaf
        Sample.one_sided_loop Sample.w0
      = (Ret (mkresult EXIT_TROUBLE Sample.one_sided_loop [] []),
         emit (Ev_diag (Recursive_loop "R/s")) Sample.w0))
  /\ (dir_loop Cases.left_loops 0 = true
      /\ dir_loop Cases.left_loops 1 = false
      /\ exists r w',
           diff_dirs (Sample.posix false None Cases.fs_link) Sample.leaf
             Cases.left_loops Sample.w0 = (Ret r, w')
           /\ pairs r
              = [(Some "s", None); (None, Some "u"); (Some "x", None)]%string
           /\ handler_values r = [1; 1; 1]
           /\ In (Ev_sys (Sys_openat (-2) "L/s" 65536)) (events w')
           /\ In (Ev_handle (Some "s"%string) None) (events w')
           /\ count is_loop_report (events w') = 0%nat).
Proof.
  split; [splits; reflexivity |].
  split; [reflexivity |]. split; [reflexivity |].
  eexists _, _. split; [vm_compute; reflexivity |].
  cbn [pairs handler_values events].
  split; [reflexivity |]. split; [reflexivity |].
  split; [left; reflexivity |].
  split; [| reflexivity].
  do 15 right. left. reflexivity.
Qed.

Lemma diff_dirs_loop_guard_witness :
  diff_dirs (Sample.posix false None Sample.fs_disjoint) Sample.leaf
    Sample.one_sided_loop Sample.w0
  = (Ret (mkresult EXIT_TROUBLE Sample.one_sided_loop [] []),
     emit (Ev_diag (Recursive_loop "R/s")) Sample.w0)
  /\ count is_loop_report
       (events (snd (diff_dirs (Sample.posix false None Sample.fs_disjoint)
                       Sample.leaf Sample.top Sample.w0)))
     = count is_loop_report (events Sample.w0)
  /\ exists r w',
       diff_dirs (Sample.posix false None Cases.fs_link) Sample.leaf
         Cases.left_loops Sample.w0 = (Ret r, w')
       /\ Permutation (lefts (pairs r)) ["s"; "x"]%string
       /\ Permutation (rights (pairs r)) ["u"]%string
       /\ hands_over (Sample.posix false None Cases.fs_link) Sample.leaf
            Sample.w0 r w'.
Proof.
  split; [| split].
  - destruct (diff_dirs_loop_guard (Sample.posix false None Sample.fs_disjoint)
                Sample.leaf Sample.one_sided_loop Sample.w0) as (_ & H & _).
    apply H. reflexivity.
  - destruct (diff_dirs_loop_guard (Sample.posix false None Sample.fs_disjoint)
                Sample.leaf Sample.top Sample.w0) as (_ & _ & H & _).
    destruct (H eq_refl (leaf_extends not_loop_report)) as [_ H2]. exact H2.
  - destruct (diff_dirs_loop_guard (Sample.posix false None Cases.fs_link)
                Sample.leaf Cases.left_loops Sample.w0) as (_ & _ & _ & H).
    apply (H eq_refl (posix_collation_works false None Cases.fs_link)
             (keeps_sorting_total _ _ leaf_keeps_sorting)).
    + readable_side 5 (mkDIR ["."; ".."; "s"; "x"]%string 0).
    + readable_side 6 (mkDIR ["."; ".."; "u"]%string 0).
Defined.



(** C9, at the input where the code fails it.  [locale_specific_sorting]
    is off when the process starts, and only [diff_dirs] turns it on; the
    finder does not.  With case folding asked for, a finder that runs
    before any [diff_dirs] therefore searches the directory, as its log
    shows, but [dir_read] compares the entries with the target by
    [file_name_cmp], without a single collation call: "README" and
    "Readme" are not found for "readme", and the finder answers with the
    target verbatim.  The run of entries that are equal to the target when
    case is ignored starts with "README", and that is what the same call
    answers once a [diff_dirs] has turned [locale_specific_sorting] on. *)
Theorem find_dir_file_pathname_fresh_process :
  locale_specific_sorting Sample.w0 = false
  /\ ignore_file_name_case (Sample.posix true None Sample.fs_readme) = true
  /\ (exists blk dir' w',
        find_dir_file_pathname (Sample.posix true None Sample.fs_readme)
          (Sample.unopened "L" 10) "readme" Sample.w0
        = (Ret ("L/readme"%string, blk, dir'), w')
        /\ In (Ev_sys (Sys_openat (-100) "L" 65536)) (events w')
        /\ count is_collation (events w') = 0%nat)
  /\ best_match "readme"
       (filter (kept (Sample.posix true None Sample.fs_readme) true
                  (Some "readme"%string) true)
          ["."; ".."; "README"; "Readme"; "other"]%string)
     = "README"%string
  /\ (exists blk dir' w',
        find_dir_file_pathname (Sample.posix true None Sample.fs_readme)
          (Sample.unopened "L" 10) "readme" Sample.w_after_diff
        = (Ret ("L/README"%string, blk, dir'), w')).
Proof.
  split; [reflexivity |]. split; [reflexivity |].
  split.
  { eexists _, _, _. split; [vm_compute; reflexivity |].
    split; [left; reflexivity | reflexivity]. }
  split; [reflexivity |].
  eexists _, _, _. vm_compute. reflexivity.
Qed.
